(** * PAZI_LW2: password-based AES-256-CBC file encryption (main.cpp)

    A shallow embedding of [src/main.cpp] and of the OpenSSL and libc
    primitives it calls, followed by the properties of the specification.

    Conventions.
    - Bytes are [Byte.byte]; byte vectors ([std::vector<unsigned char>],
      [unsigned char *] buffers) are [list byte].
    - C integers are [Z]; the conversions of a [size_t] to an [int]
      parameter and the [size_t] subtraction are written out with their
      wrap-around.
    - The process is a state transformer over a [world] (file system,
      standard streams, OpenSSL error queue, random source); a run ends
      in an [outcome]. *)

From Stdlib Require Import ZArith Lia List Ascii String Bool.
From Stdlib Require Import Init.Byte Strings.Byte.
From stdpp Require Import base gmap strings list.

Local Open Scope Z_scope.
Import ListNotations.

(** ** Bytes and machine integers *)

Module Bytes.

Definition to_Z (b : byte) : Z := Z.of_N (Byte.to_N b).

Definition of_Z (z : Z) : byte :=
  match Byte.of_N (Z.to_N (Z.land z 255)) with
  | Some b => b
  | None => x00
  end.

Definition xor (a b : byte) : byte := of_Z (Z.lxor (to_Z a) (to_Z b)).

(** [xor_list a b]: byte-wise xor, as long as the shorter operand. *)
Fixpoint xor_list (a b : list byte) : list byte :=
  match a, b with
  | x :: a', y :: b' => xor x y :: xor_list a' b'
  | _, _ => []
  end.

Definition of_string (s : string) : list byte := list_byte_of_string s.

(** [n] zero bytes: a value-initialised buffer. *)
Definition zeros (n : nat) : list byte := repeat x00 n.

(** Big-endian encoding of a 32-bit word. *)
Definition be32 (w : Z) : list byte :=
  [of_Z (Z.shiftr w 24); of_Z (Z.shiftr w 16); of_Z (Z.shiftr w 8); of_Z w].

(** Big-endian decoding of up to four bytes. *)
Definition word_of (bs : list byte) : Z :=
  fold_left (fun acc b => Z.lor (Z.shiftl acc 8) (to_Z b)) bs 0.

(** Cut a byte string into chunks of [n] bytes; [fuel] bounds the number
    of chunks. *)
Fixpoint chunks (fuel n : nat) (l : list byte) : list (list byte) :=
  match fuel with
  | O => []
  | S fuel' =>
      match l with
      | [] => []
      | _ => firstn n l :: chunks fuel' n (skipn n l)
      end
  end.

End Bytes.

(** [int]: 32-bit two's complement; [size_t]: 64-bit unsigned (LP64). *)
Definition INT_MAX : Z := 2147483647.
Definition INT_MIN : Z := -2147483648.

(** Conversion of an unsigned value to [int]: reduction modulo 2^32 into
    the signed range. *)
Definition to_int (z : Z) : Z := (z + 2 ^ 31) mod 2 ^ 32 - 2 ^ 31.

(** [size_t] arithmetic wraps modulo 2^64. *)
Definition to_size_t (z : Z) : Z := z mod 2 ^ 64.

(** ** SHA-1 (FIPS 180-4), the hash under OpenSSL's [EVP_sha1] *)

Module SHA1.

Definition mask32 : Z := 4294967295.
Definition add32 (a b : Z) : Z := Z.land (a + b) mask32.
Definition rotl (n : Z) (x : Z) : Z :=
  Z.land (Z.lor (Z.shiftl x n) (Z.shiftr x (32 - n))) mask32.

Definition digest_length : nat := 20.
Definition block_length : nat := 64.

(** Padding: 0x80, zeros up to 56 mod 64, then the bit length on 64 bits. *)
Definition pad (msg : list byte) : list byte :=
  let n := Z.of_nat (length msg) in
  let k := Z.to_nat ((55 - n) mod 64) in
  let bits := 8 * n in
  msg ++ [x80] ++ Bytes.zeros k
      ++ Bytes.be32 (Z.shiftr bits 32) ++ Bytes.be32 bits.

Fixpoint expand (n : nat) (win : list Z) : list Z :=
  match n with
  | O => []
  | S n' =>
      let w := rotl 1 (Z.lxor (Z.lxor (nth 13 win 0) (nth 8 win 0))
                              (Z.lxor (nth 2 win 0) (nth 0 win 0))) in
      w :: expand n' (tl win ++ [w])
  end.

Definition schedule (block : list byte) : list Z :=
  let w16 := map Bytes.word_of (Bytes.chunks 16 4 block) in
  w16 ++ expand 64 w16.

Definition f (t : nat) (b c d : Z) : Z :=
  if (t <? 20)%nat then Z.lor (Z.land b c) (Z.ldiff d b)
  else if (t <? 40)%nat then Z.lxor (Z.lxor b c) d
  else if (t <? 60)%nat then
    Z.lor (Z.lor (Z.land b c) (Z.land b d)) (Z.land c d)
  else Z.lxor (Z.lxor b c) d.

Definition K (t : nat) : Z :=
  if (t <? 20)%nat then 0x5A827999
  else if (t <? 40)%nat then 0x6ED9EBA1
  else if (t <? 60)%nat then 0x8F1BBCDC
  else 0xCA62C1D6.

Record regs := Regs { ra : Z; rb : Z; rc : Z; rd : Z; re : Z }.

Definition round (s : regs) (tw : nat * Z) : regs :=
  let '(t, w) := tw in
  let T := add32 (add32 (add32 (add32 (rotl 5 (ra s)) (f t (rb s) (rc s) (rd s)))
                               (re s)) (K t)) w in
  Regs T (ra s) (rotl 30 (rb s)) (rc s) (rd s).

Definition compress (h : regs) (block : list byte) : regs :=
  let ws := schedule block in
  let s := fold_left round (combine (seq 0 80) ws) h in
  Regs (add32 (ra h) (ra s)) (add32 (rb h) (rb s)) (add32 (rc h) (rc s))
       (add32 (rd h) (rd s)) (add32 (re h) (re s)).

Definition init : regs :=
  Regs 0x67452301 0xEFCDAB89 0x98BADCFE 0x10325476 0xC3D2E1F0.

Definition output (s : regs) : list byte :=
  Bytes.be32 (ra s) ++ Bytes.be32 (rb s) ++ Bytes.be32 (rc s)
    ++ Bytes.be32 (rd s) ++ Bytes.be32 (re s).

Definition hash (msg : list byte) : list byte :=
  let padded := pad msg in
  let blocks := Bytes.chunks (S (length padded)) block_length padded in
  output (fold_left compress blocks init).

End SHA1.

(** ** HMAC-SHA1 (RFC 2104) *)

Module HMAC.

(** The key block K0: a key longer than the hash block is replaced by its
    digest; the result is padded with zeros to the block length. *)
Definition key_block (key : list byte) : list byte :=
  let k := if (SHA1.block_length <? length key)%nat then SHA1.hash key else key in
  k ++ Bytes.zeros (SHA1.block_length - length k).

Definition ipad : list byte := repeat x36 SHA1.block_length.
Definition opad : list byte := repeat x5c SHA1.block_length.

(** HMAC with the key block already formed. *)
Definition keyed (k0 : list byte) (msg : list byte) : list byte :=
  SHA1.hash (Bytes.xor_list k0 opad ++ SHA1.hash (Bytes.xor_list k0 ipad ++ msg)).

Definition hmac_sha1 (key msg : list byte) : list byte :=
  keyed (key_block key) msg.

End HMAC.

(** ** PBKDF2 (RFC 8018, section 5.2) *)

Module PBKDF2.

Section WithPRF.
Variable prf : list byte -> list byte.
Variable hLen : nat.

Definition step (ua : list byte * list byte) : list byte * list byte :=
  let u' := prf (fst ua) in (u', Bytes.xor_list (snd ua) u').

(** F(P, S, c, i) = U_1 xor ... xor U_c. *)
Definition F (salt : list byte) (c : Z) (i : nat) : list byte :=
  let u1 := prf (salt ++ Bytes.be32 (Z.of_nat i)) in
  snd (Z.iter (c - 1) step (u1, u1)).

Definition derive (salt : list byte) (c : Z) (dkLen : nat) : list byte :=
  let l := ((dkLen + hLen - 1) / hLen)%nat in
  firstn dkLen (concat (map (F salt c) (seq 1 l))).
End WithPRF.

End PBKDF2.

(** ** AES-256 (FIPS 197), the block cipher under [EVP_aes_256_cbc] *)

Module AES.

Definition all_bytes : list byte :=
  map (fun n => Bytes.of_Z (Z.of_nat n)) (seq 0 256).

Definition index (b : byte) : nat := Z.to_nat (Bytes.to_Z b).

(** *** Arithmetic in GF(2^8) modulo x^8 + x^4 + x^3 + x + 1 *)

Definition xtime (b : byte) : byte :=
  let z := 2 * Bytes.to_Z b in
  Bytes.of_Z (if z <? 256 then z else Z.lxor z 0x11b).

Definition gmul_step (b : byte) (st : byte * byte) (i : Z) : byte * byte :=
  (if Z.testbit (Bytes.to_Z b) i then Bytes.xor (fst st) (snd st) else fst st,
   xtime (snd st)).

Definition gmul (a b : byte) : byte :=
  fst (fold_left (gmul_step b) [0; 1; 2; 3; 4; 5; 6; 7] (x00, a)).

(** The multiplicative inverse, as the 254th power (0 is sent to 0). *)
Definition ginv (x : byte) : byte := Nat.iter 253 (gmul x) x.

Definition rotl8 (n : Z) (b : byte) : byte :=
  let z := Bytes.to_Z b in
  Bytes.of_Z (Z.lor (Z.shiftl z n) (Z.shiftr z (8 - n))).

(** *** S-box: inversion followed by the affine map (section 5.1.1) *)

Definition affine (b : byte) : byte :=
  Bytes.xor (Bytes.xor (Bytes.xor b (rotl8 1 b)) (Bytes.xor (rotl8 2 b) (rotl8 3 b)))
            (Bytes.xor (rotl8 4 b) x63).

Definition inv_affine (s : byte) : byte :=
  Bytes.xor (Bytes.xor (rotl8 1 s) (rotl8 3 s)) (Bytes.xor (rotl8 6 s) x05).

Definition sbox_table : list byte :=
  Eval vm_compute in map (fun b => affine (ginv b)) all_bytes.

Definition inv_sbox_table : list byte :=
  Eval vm_compute in map (fun s => ginv (inv_affine s)) all_bytes.

Definition sbox (b : byte) : byte := nth (index b) sbox_table x00.
Definition inv_sbox (b : byte) : byte := nth (index b) inv_sbox_table x00.

(** *** The state: 16 bytes, column after column *)

Definition sub_bytes (s : list byte) : list byte := map sbox s.
Definition inv_sub_bytes (s : list byte) : list byte := map inv_sbox s.

Definition shift_rows (s : list byte) : list byte :=
  match s with
  | [s0; s1; s2; s3; s4; s5; s6; s7; s8; s9; s10; s11; s12; s13; s14; s15] =>
      [s0; s5; s10; s15; s4; s9; s14; s3; s8; s13; s2; s7; s12; s1; s6; s11]
  | _ => s
  end.

Definition inv_shift_rows (s : list byte) : list byte :=
  match s with
  | [s0; s1; s2; s3; s4; s5; s6; s7; s8; s9; s10; s11; s12; s13; s14; s15] =>
      [s0; s13; s10; s7; s4; s1; s14; s11; s8; s5; s2; s15; s12; s9; s6; s3]
  | _ => s
  end.

Definition xor4 (a b c d : byte) : byte :=
  Bytes.xor (Bytes.xor a b) (Bytes.xor c d).

Definition m2 : byte -> byte := gmul x02.
Definition m3 : byte -> byte := gmul x03.
Definition m9 : byte -> byte := gmul x09.
Definition m11 : byte -> byte := gmul x0b.
Definition m13 : byte -> byte := gmul x0d.
Definition m14 : byte -> byte := gmul x0e.

(** A map of bytes that distributes over xor. *)
Definition additive (f : byte -> byte) : Prop :=
  forall a b, f (Bytes.xor a b) = Bytes.xor (f a) (f b).

Definition mix_column (a b c d : byte) : list byte :=
  [xor4 (m2 a) (m3 b) c d; xor4 a (m2 b) (m3 c) d;
   xor4 a b (m2 c) (m3 d); xor4 (m3 a) b c (m2 d)].

Definition inv_mix_column (a b c d : byte) : list byte :=
  [xor4 (m14 a) (m11 b) (m13 c) (m9 d); xor4 (m9 a) (m14 b) (m11 c) (m13 d);
   xor4 (m13 a) (m9 b) (m14 c) (m11 d); xor4 (m11 a) (m13 b) (m9 c) (m14 d)].

Definition columns (f : byte -> byte -> byte -> byte -> list byte)
    (s : list byte) : list byte :=
  match s with
  | [s0; s1; s2; s3; s4; s5; s6; s7; s8; s9; s10; s11; s12; s13; s14; s15] =>
      f s0 s1 s2 s3 ++ f s4 s5 s6 s7 ++ f s8 s9 s10 s11 ++ f s12 s13 s14 s15
  | _ => s
  end.

Definition mix_columns : list byte -> list byte := columns mix_column.
Definition inv_mix_columns : list byte -> list byte := columns inv_mix_column.

Definition add_round_key (s k : list byte) : list byte := Bytes.xor_list s k.

(** *** Key expansion for Nk = 8 (section 5.2) *)

Record word := W { w0 : byte; w1 : byte; w2 : byte; w3 : byte }.

Definition word_bytes (w : word) : list byte := [w0 w; w1 w; w2 w; w3 w].
Definition zero_word : word := W x00 x00 x00 x00.
Definition sub_word (w : word) : word :=
  W (sbox (w0 w)) (sbox (w1 w)) (sbox (w2 w)) (sbox (w3 w)).
Definition rot_word (w : word) : word := W (w1 w) (w2 w) (w3 w) (w0 w).
Definition xor_word (a b : word) : word :=
  W (Bytes.xor (w0 a) (w0 b)) (Bytes.xor (w1 a) (w1 b))
    (Bytes.xor (w2 a) (w2 b)) (Bytes.xor (w3 a) (w3 b)).
Definition rcon (i : nat) : word := W (Nat.iter (i - 1) xtime x01) x00 x00 x00.

Fixpoint expand (n i : nat) (win : list word) : list word :=
  match n with
  | O => []
  | S n' =>
      let prev := nth 7 win zero_word in
      let temp :=
        if (i mod 8 =? 0)%nat then xor_word (sub_word (rot_word prev)) (rcon (i / 8))
        else if (i mod 8 =? 4)%nat then sub_word prev
        else prev in
      let w := xor_word (nth 0 win zero_word) temp in
      w :: expand n' (S i) (tl win ++ [w])
  end.

Definition key_words (key : list byte) : list word :=
  map (fun j => W (nth (4 * j) key x00) (nth (4 * j + 1) key x00)
                  (nth (4 * j + 2) key x00) (nth (4 * j + 3) key x00))
      (seq 0 8).

Definition key_schedule (key : list byte) : list word :=
  let w8 := key_words key in w8 ++ expand 52 8 w8.

Definition round_key (ws : list word) (r : nat) : list byte :=
  word_bytes (nth (4 * r) ws zero_word) ++ word_bytes (nth (4 * r + 1) ws zero_word)
    ++ word_bytes (nth (4 * r + 2) ws zero_word)
    ++ word_bytes (nth (4 * r + 3) ws zero_word).

(** *** Cipher and inverse cipher (sections 5.1 and 5.3), Nr = 14 *)

Definition round (s k : list byte) : list byte :=
  add_round_key (mix_columns (shift_rows (sub_bytes s))) k.

Definition inv_round (s k : list byte) : list byte :=
  inv_sub_bytes (inv_shift_rows (inv_mix_columns (add_round_key s k))).

Definition middle_keys (ws : list word) : list (list byte) :=
  map (round_key ws) (seq 1 13).

Definition cipher (key block : list byte) : list byte :=
  let ws := key_schedule key in
  let s := add_round_key block (round_key ws 0) in
  let s := fold_left round (middle_keys ws) s in
  add_round_key (shift_rows (sub_bytes s)) (round_key ws 14).

Definition inv_cipher (key block : list byte) : list byte :=
  let ws := key_schedule key in
  let s := inv_sub_bytes (inv_shift_rows (add_round_key block (round_key ws 14))) in
  let s := fold_left inv_round (rev (middle_keys ws)) s in
  add_round_key s (round_key ws 0).

End AES.

(** ** The process: world, outcomes and the monad of [main.cpp] *)

(** Errors that the EVP layer leaves on OpenSSL's error queue. *)
Inductive openssl_error : Set :=
| EVP_R_BAD_DECRYPT
| EVP_R_WRONG_FINAL_BLOCK_LENGTH.

(** What reaches the standard error stream: a line written by the program
    or by [getopt], or a queued OpenSSL error printed by
    [ERR_print_errors_fp]. *)
Inductive stderr_item : Set :=
| Message (s : string)
| OpenSSLError (e : openssl_error).

Record world := World {
  files : gmap string (list byte);   (* readable files and their contents *)
  writable : string -> bool;         (* can the path be opened for writing *)
  cout : string;                     (* standard output so far *)
  cerr : list stderr_item;           (* standard error so far *)
  err_queue : list openssl_error;    (* OpenSSL error queue *)
  RAND : Z * list byte;              (* what RAND_bytes returns and leaves in
                                        the buffer of AES_BLOCK_SIZE bytes *)
  posixly_correct : bool             (* POSIXLY_CORRECT set: getopt stops at
                                        the first non-option *)
}.

Definition set_files (f : gmap string (list byte)) (w : world) : world :=
  World f (writable w) (cout w) (cerr w) (err_queue w) (RAND w) (posixly_correct w).
Definition set_cout (s : string) (w : world) : world :=
  World (files w) (writable w) s (cerr w) (err_queue w) (RAND w) (posixly_correct w).
Definition set_cerr (l : list stderr_item) (w : world) : world :=
  World (files w) (writable w) (cout w) l (err_queue w) (RAND w) (posixly_correct w).
Definition set_err_queue (q : list openssl_error) (w : world) : world :=
  World (files w) (writable w) (cout w) (cerr w) q (RAND w) (posixly_correct w).

(** How a computation ends. *)
Inductive outcome (A : Type) : Type :=
| Returned (a : A)       (* normal completion with a value *)
| Exited (status : Z)    (* exit(status) *)
| Aborted                (* abort(): the process is killed by SIGABRT *)
| Undefined.             (* undefined behaviour: access out of range,
                            signed overflow *)
Arguments Returned {A} a.
Arguments Exited {A} status.
Arguments Aborted {A}.
Arguments Undefined {A}.

Definition M (A : Type) : Type := world -> outcome A * world.

Definition ret {A} (a : A) : M A := fun w => (Returned a, w).

Definition bind {A B} (m : M A) (k : A -> M B) : M B :=
  fun w =>
    match m w with
    | (Returned a, w') => k a w'
    | (Exited s, w') => (Exited s, w')
    | (Aborted, w') => (Aborted, w')
    | (Undefined, w') => (Undefined, w')
    end.

Notation "x <- m ;; k" := (bind m (fun x => k))
  (at level 100, m at level 99, k at level 200, right associativity).
Notation "m ;; k" := (bind m (fun _ => k))
  (at level 100, k at level 200, right associativity).

Definition exit {A} (status : Z) : M A := fun w => (Exited status, w).
Definition abort {A} : M A := fun w => (Aborted, w).
Definition undefined {A} : M A := fun w => (Undefined, w).

Definition cout_put (s : string) : M unit :=
  fun w => (Returned tt, set_cout (cout w ++ s) w).
Definition cerr_put (s : string) : M unit :=
  fun w => (Returned tt, set_cerr (cerr w ++ [Message s]) w).

Definition endl : string := String (ascii_of_nat 10) EmptyString.

(** [ERR_put_error]: queue an OpenSSL error. *)
Definition ERR_put_error (e : openssl_error) : M unit :=
  fun w => (Returned tt, set_err_queue (err_queue w ++ [e]) w).

(** [ERR_print_errors_fp(stderr)]: print the queue and empty it. *)
Definition ERR_print_errors_fp : M unit :=
  fun w => (Returned tt,
            set_err_queue [] (set_cerr (cerr w ++ map OpenSSLError (err_queue w)) w)).

(** The status a parent process sees. *)
Definition SIGABRT : Z := 6.
Definition exit_status (o : outcome Z) : option Z :=
  match o with
  | Returned s => Some s
  | Exited s => Some s
  | Aborted => Some (128 + SIGABRT)
  | Undefined => None
  end.

(** ** Buffers: [std::vector<unsigned char>] and raw byte arrays *)

(** Copy [data] over [buf] from offset [off]; [None] when the copy would
    run past the end of the buffer. *)
Definition store (buf : list byte) (off : nat) (data : list byte) : option (list byte) :=
  if (off + length data <=? length buf)%nat
  then Some (firstn off buf ++ data ++ skipn (off + length data) buf)
  else None.

Definition buffer_write (buf : list byte) (off : nat) (data : list byte) : M (list byte) :=
  match store buf off data with
  | Some buf' => ret buf'
  | None => undefined
  end.

(** Read [n] elements of a vector from index [off]; out of range is
    undefined behaviour. *)
Definition vector_read (v : list byte) (off n : nat) : M (list byte) :=
  if (off + n <=? length v)%nat then ret (firstn n (skipn off v)) else undefined.

(** [v.vector_resize(n)]: truncate, or extend with zeros. *)
Definition vector_resize (v : list byte) (n : nat) : list byte :=
  firstn n v ++ Bytes.zeros (n - length v).

(** [a + b] on [int]; overflow is undefined behaviour. *)
Definition int_add (a b : Z) : M Z :=
  if (INT_MIN <=? a + b) && (a + b <=? INT_MAX) then ret (a + b) else undefined.

(** [std::hex << (int)b]: lower-case hexadecimal without leading zero. *)
Definition hex_digit (d : Z) : ascii :=
  if d <? 10 then ascii_of_N (Z.to_N (48 + d)) else ascii_of_N (Z.to_N (87 + d)).

Definition hex_of_byte (b : byte) : string :=
  let z := Bytes.to_Z b in
  if z <? 16 then String (hex_digit z) EmptyString
  else String (hex_digit (z / 16)) (String (hex_digit (z mod 16)) EmptyString).

(** The loop [for i: cout << hex << (int)iv[i] << " "]. *)
Definition hex_dump (bs : list byte) : string :=
  fold_right (fun b s => hex_of_byte b ++ " " ++ s)%string EmptyString bs.

(** ** OpenSSL's EVP cipher layer *)

Definition AES_KEY_LENGTH : nat := 32.
Definition AES_BLOCK_SIZE : nat := 16.

(** An [EVP_CIPHER]: a block cipher run in CBC mode. *)
Record EVP_CIPHER := {
  block_encrypt : list byte -> list byte -> list byte;   (* key, block *)
  block_decrypt : list byte -> list byte -> list byte
}.

Definition EVP_aes_256_cbc : EVP_CIPHER :=
  {| block_encrypt := AES.cipher; block_decrypt := AES.inv_cipher |}.

Record EVP_CIPHER_CTX := {
  ctx_cipher : EVP_CIPHER;
  ctx_encrypt : bool;
  ctx_key : list byte;
  ctx_iv : list byte;          (* the chaining value *)
  ctx_buf : list byte;         (* input not yet a full block; buf_len is its length *)
  ctx_final : list byte;       (* last decrypted block, held back *)
  ctx_final_used : bool
}.

(** CBC over whole blocks; returns the output and the next chaining value. *)
Fixpoint cbc_encrypt (c : EVP_CIPHER) (key iv : list byte)
    (blocks : list (list byte)) : list byte * list byte :=
  match blocks with
  | [] => ([], iv)
  | b :: bs =>
      let ct := block_encrypt c key (Bytes.xor_list b iv) in
      let r := cbc_encrypt c key ct bs in
      (ct ++ fst r, snd r)
  end.

Fixpoint cbc_decrypt (c : EVP_CIPHER) (key iv : list byte)
    (blocks : list (list byte)) : list byte * list byte :=
  match blocks with
  | [] => ([], iv)
  | b :: bs =>
      let pt := Bytes.xor_list (block_decrypt c key b) iv in
      let r := cbc_decrypt c key b bs in
      (pt ++ fst r, snd r)
  end.

Definition blocks_of (data : list byte) : list (list byte) :=
  Bytes.chunks (length data) AES_BLOCK_SIZE data.

(** The largest multiple of the block size within [n]: [n & ~(bl - 1)]. *)
Definition whole_length (n : nat) : nat :=
  (n / AES_BLOCK_SIZE * AES_BLOCK_SIZE)%nat.

(** [EVP_CIPHER_CTX_new] followed by the context's initial state; the
    allocation is assumed to succeed. *)
Definition EVP_CIPHER_CTX_new : EVP_CIPHER_CTX :=
  {| ctx_cipher := EVP_aes_256_cbc; ctx_encrypt := true; ctx_key := [];
     ctx_iv := []; ctx_buf := []; ctx_final := []; ctx_final_used := false |}.

Definition cipher_init (enc : bool) (c : EVP_CIPHER) (key iv : list byte)
  : Z * EVP_CIPHER_CTX :=
  (1, {| ctx_cipher := c; ctx_encrypt := enc;
         ctx_key := firstn AES_KEY_LENGTH key;
         ctx_iv := firstn AES_BLOCK_SIZE iv;
         ctx_buf := []; ctx_final := []; ctx_final_used := false |}).

Definition EVP_EncryptInit_ex (ctx : EVP_CIPHER_CTX) (c : EVP_CIPHER)
    (key iv : list byte) : M (Z * EVP_CIPHER_CTX) :=
  ret (cipher_init true c key iv).

Definition EVP_DecryptInit_ex (ctx : EVP_CIPHER_CTX) (c : EVP_CIPHER)
    (key iv : list byte) : M (Z * EVP_CIPHER_CTX) :=
  ret (cipher_init false c key iv).

(** The update common to both directions: the buffered bytes and the first
    [inl] bytes of the input are processed as far as whole blocks go, the
    rest stays in the buffer. A negative [inl] is refused, [inl = 0] is a
    successful no-op. *)
Definition cipher_update (ctx : EVP_CIPHER_CTX) (input : list byte) (inl : Z)
  : Z * list byte * EVP_CIPHER_CTX :=
  if inl <? 0 then (0, [], ctx)
  else if inl =? 0 then (1, [], ctx)
  else
    let data := ctx_buf ctx ++ firstn (Z.to_nat inl) input in
    let whole := whole_length (length data) in
    let r := (if ctx_encrypt ctx then cbc_encrypt else cbc_decrypt)
               (ctx_cipher ctx) (ctx_key ctx) (ctx_iv ctx)
               (blocks_of (firstn whole data)) in
    (1, fst r,
     {| ctx_cipher := ctx_cipher ctx; ctx_encrypt := ctx_encrypt ctx;
        ctx_key := ctx_key ctx; ctx_iv := snd r;
        ctx_buf := skipn whole data;
        ctx_final := ctx_final ctx; ctx_final_used := ctx_final_used ctx |}).

Definition EVP_EncryptUpdate (ctx : EVP_CIPHER_CTX) (input : list byte) (inl : Z)
  : M (Z * list byte * EVP_CIPHER_CTX) :=
  ret (cipher_update ctx input inl).

(** PKCS#7 padding of the buffered bytes: [n] bytes of value [n] fill the
    block. *)
Definition padded_block (buf : list byte) : list byte :=
  let n := (AES_BLOCK_SIZE - length buf)%nat in
  buf ++ repeat (Bytes.of_Z (Z.of_nat n)) n.

Definition EVP_EncryptFinal_ex (ctx : EVP_CIPHER_CTX)
  : M (Z * list byte * EVP_CIPHER_CTX) :=
  let r := cbc_encrypt (ctx_cipher ctx) (ctx_key ctx) (ctx_iv ctx)
             [padded_block (ctx_buf ctx)] in
  ret (1, fst r,
       {| ctx_cipher := ctx_cipher ctx; ctx_encrypt := ctx_encrypt ctx;
          ctx_key := ctx_key ctx; ctx_iv := snd r; ctx_buf := [];
          ctx_final := ctx_final ctx; ctx_final_used := ctx_final_used ctx |}).

(** Decryption holds back the last whole block until the final call, which
    must examine its padding. *)
Definition decrypt_update (ctx : EVP_CIPHER_CTX) (input : list byte) (inl : Z)
  : Z * list byte * EVP_CIPHER_CTX :=
  if inl <? 0 then (0, [], ctx)
  else if inl =? 0 then (1, [], ctx)
  else
    let held := if ctx_final_used ctx then ctx_final ctx else [] in
    let '(_, out, ctx1) := cipher_update ctx input inl in
    match ctx_buf ctx1 with
    | [] =>
        let keep := (length out - AES_BLOCK_SIZE)%nat in
        (1, held ++ firstn keep out,
         {| ctx_cipher := ctx_cipher ctx1; ctx_encrypt := ctx_encrypt ctx1;
            ctx_key := ctx_key ctx1; ctx_iv := ctx_iv ctx1; ctx_buf := [];
            ctx_final := skipn keep out; ctx_final_used := true |})
    | _ :: _ =>
        (1, held ++ out,
         {| ctx_cipher := ctx_cipher ctx1; ctx_encrypt := ctx_encrypt ctx1;
            ctx_key := ctx_key ctx1; ctx_iv := ctx_iv ctx1;
            ctx_buf := ctx_buf ctx1;
            ctx_final := ctx_final ctx1; ctx_final_used := false |})
    end.

Definition EVP_DecryptUpdate (ctx : EVP_CIPHER_CTX) (input : list byte) (inl : Z)
  : M (Z * list byte * EVP_CIPHER_CTX) :=
  ret (decrypt_update ctx input inl).

(** The padding check of the final block: the last byte [n] must be in
    1..16 and the last [n] bytes must all equal [n]. *)
Definition padding_length (final : list byte) : option nat :=
  let n := Bytes.to_Z (nth (AES_BLOCK_SIZE - 1) final x00) in
  if (n =? 0) || (Z.of_nat AES_BLOCK_SIZE <? n) then None
  else if forallb (fun b => Bytes.to_Z b =? n)
                  (skipn (AES_BLOCK_SIZE - Z.to_nat n) final)
       then Some (Z.to_nat n)
       else None.

Definition EVP_DecryptFinal_ex (ctx : EVP_CIPHER_CTX)
  : M (Z * list byte * EVP_CIPHER_CTX) :=
  match ctx_buf ctx, ctx_final_used ctx with
  | [], true =>
      match padding_length (ctx_final ctx) with
      | Some n => ret (1, firstn (AES_BLOCK_SIZE - n) (ctx_final ctx), ctx)
      | None => ERR_put_error EVP_R_BAD_DECRYPT ;; ret (0, [], ctx)
      end
  | _, _ => ERR_put_error EVP_R_WRONG_FINAL_BLOCK_LENGTH ;; ret (0, [], ctx)
  end.

(** ** OpenSSL's PKCS5_PBKDF2_HMAC_SHA1 and RAND_bytes *)

(** A [std::string] seen through [c_str()]: its bytes and a terminating NUL. *)
Definition c_str (s : string) : list byte := Bytes.of_string s ++ [x00].

Fixpoint strlen (p : list byte) : nat :=
  match p with
  | [] => 0
  | b :: p' => if Byte.eqb b x00 then 0 else S (strlen p')
  end.

(** [passlen = -1] asks for [strlen(pass)]; another negative length makes
    the HMAC initialisation, and so the derivation, fail with 0. *)
Definition PKCS5_PBKDF2_HMAC_SHA1 (pass : list byte) (passlen : Z)
    (salt : list byte) (saltlen : Z) (iter : Z) (keylen : nat) : Z * list byte :=
  let passlen := if passlen =? -1 then Z.of_nat (strlen pass) else passlen in
  if passlen <? 0 then (0, [])
  else (1, PBKDF2.derive (HMAC.hmac_sha1 (firstn (Z.to_nat passlen) pass))
                         SHA1.digest_length
                         (firstn (Z.to_nat saltlen) salt) iter keylen).

(** The return value (1 on success, 0 or -1 otherwise) and the [num] bytes
    of the buffer after the call come from the world. *)
Definition RAND_bytes (num : nat) : M (Z * list byte) :=
  fun w => (Returned (fst (RAND w), vector_resize (snd (RAND w)) num), w).

(** ** libc's [getopt] *)

(** One return of [getopt]: an option character of the option string with
    its argument, or ['?'] after a diagnostic on standard error. *)
Inductive getopt_result : Set :=
| GetoptOption (opt : ascii) (optarg : string)
| GetoptError (diagnostic : string).

(** Whether [c] is in the option string, and whether it takes an argument. *)
Fixpoint takes_argument (optstring : list ascii) (c : ascii) : option bool :=
  match optstring with
  | [] => None
  | o :: rest =>
      if Ascii.eqb o c && negb (Ascii.eqb c ":")
      then Some (match rest with
                 | colon :: _ => Ascii.eqb colon ":"
                 | [] => false
                 end)
      else takes_argument rest c
  end.

Definition char_string (c : ascii) : string := String c EmptyString.

Definition invalid_option (program : string) (c : ascii) : string :=
  (program ++ ": invalid option -- '" ++ char_string c ++ "'" ++ endl)%string.

Definition requires_argument (program : string) (c : ascii) : string :=
  (program ++ ": option requires an argument -- '" ++ char_string c ++ "'" ++ endl)%string.

(** The option characters of one argv element after its dash. [next] is the
    following argv element, if any; the boolean tells whether it was taken
    as an option argument. *)
Fixpoint getopt_cluster (optstring : list ascii) (program : string)
    (cs : list ascii) (next : option string) : list getopt_result * bool :=
  match cs with
  | [] => ([], false)
  | c :: rest =>
      match takes_argument optstring c with
      | None =>
          let r := getopt_cluster optstring program rest next in
          (GetoptError (invalid_option program c) :: fst r, snd r)
      | Some false =>
          let r := getopt_cluster optstring program rest next in
          (GetoptOption c EmptyString :: fst r, snd r)
      | Some true =>
          match rest, next with
          | _ :: _, _ => ([GetoptOption c (string_of_list_ascii rest)], false)
          | [], Some a => ([GetoptOption c a], true)
          | [], None => ([GetoptError (requires_argument program c)], false)
          end
      end
  end.

(** An argv element is an option element when it starts with a dash and is
    longer than the dash. *)
Definition option_chars (a : string) : option (list ascii) :=
  match a with
  | String "-" (String c s) => Some (c :: list_ascii_of_string s)
  | _ => None
  end.

(** The successive returns of [getopt(argc, argv, optstring)] until it
    returns -1, for the arguments after [argv[0]]. The element "--" ends the
    options; a non-option element ends them under POSIXLY_CORRECT and is
    skipped otherwise. *)
Fixpoint getopt_scan (posix : bool) (optstring : list ascii) (program : string)
    (args : list string) : list getopt_result :=
  match args with
  | [] => []
  | a :: rest =>
      if String.eqb a "--" then []
      else
        match option_chars a with
        | None => if posix then [] else getopt_scan posix optstring program rest
        | Some cs =>
            match rest with
            | [] => fst (getopt_cluster optstring program cs None)
            | b :: rest' =>
                let r := getopt_cluster optstring program cs (Some b) in
                fst r ++ (if snd r
                          then getopt_scan posix optstring program rest'
                          else getopt_scan posix optstring program rest)
            end
        end
  end.

(** ** The functions of [main.cpp] *)

(** [handleErrors]: print the OpenSSL error queue and abort. *)
Definition handleErrors {A} : M A :=
  ERR_print_errors_fp ;; abort.

Definition salt : list byte := Bytes.of_string "12345678".

Definition generateKeyFromPassword (password : string) : M (list byte) :=
  let r := PKCS5_PBKDF2_HMAC_SHA1 (c_str password)
             (to_int (Z.of_nat (String.length password)))
             salt 8 10000 AES_KEY_LENGTH in
  if negb (fst r =? 1) then handleErrors else ret (snd r).

Definition readFile (filename : string) : M (list byte) :=
  fun w =>
    match files w !! filename with
    | None =>
        (cerr_put ("Cannot open file: " ++ filename ++ endl) ;; exit 1) w
    | Some data => (Returned data, w)
    end.

Definition writeFile (filename : string) (data : list byte) : M unit :=
  fun w =>
    if writable w filename
    then (Returned tt, set_files (<[filename := data]> (files w)) w)
    else (cerr_put ("Cannot open file: " ++ filename ++ endl) ;; exit 1) w.

(** The output loop of lines 127-131 and 232-236: a label, the
    AES_BLOCK_SIZE bytes in hexadecimal, and a line end. *)
Definition print_iv (label : string) (iv : list byte) : M unit :=
  cout_put label ;;
  cout_put (hex_dump iv) ;;
  cout_put endl.

(** Lines 106-109 of [encryptDataWithIV]: the container is the
    AES_BLOCK_SIZE bytes at [iv] followed by the cipher text. *)
Definition pack (iv ciphertext : list byte) : M (list byte) :=
  let result := Bytes.zeros (AES_BLOCK_SIZE + length ciphertext) in
  result <- buffer_write result 0 (firstn AES_BLOCK_SIZE iv) ;;
  result <- buffer_write result AES_BLOCK_SIZE ciphertext ;;
  ret result.

(** Lines 124-125 and 144 of [decryptDataWithIV]: the IV is copied from
    the first AES_BLOCK_SIZE elements of the vector, the cipher text is what
    [ciphertext.data() + AES_BLOCK_SIZE] points to. *)
Definition unpack (data : list byte) : M (list byte * list byte) :=
  iv <- vector_read data 0 AES_BLOCK_SIZE ;;
  ret (iv, skipn AES_BLOCK_SIZE data).

Definition encryptDataWithIV (plaintext key iv : list byte) : M (list byte) :=
  let ctx := EVP_CIPHER_CTX_new in
  r <- EVP_EncryptInit_ex ctx EVP_aes_256_cbc key iv ;;
  let '(ok, ctx) := r in
  if negb (ok =? 1) then handleErrors else
  let ciphertext := Bytes.zeros (length plaintext + AES_BLOCK_SIZE) in
  r <- EVP_EncryptUpdate ctx plaintext (to_int (Z.of_nat (length plaintext))) ;;
  let '(ok, out, ctx) := r in
  if negb (ok =? 1) then handleErrors else
  ciphertext <- buffer_write ciphertext 0 out ;;
  let len := Z.of_nat (length out) in
  let ciphertext_len := len in
  r <- EVP_EncryptFinal_ex ctx ;;
  let '(ok, out, ctx) := r in
  if negb (ok =? 1) then handleErrors else
  ciphertext <- buffer_write ciphertext (Z.to_nat len) out ;;
  ciphertext_len <- int_add ciphertext_len (Z.of_nat (length out)) ;;
  let ciphertext := vector_resize ciphertext (Z.to_nat (to_size_t ciphertext_len)) in
  pack iv ciphertext.

Definition decryptDataWithIV (ciphertext key : list byte) : M (list byte) :=
  r <- unpack ciphertext ;;
  let '(iv, body) := r in
  print_iv "Extracted IV: " iv ;;
  let ctx := EVP_CIPHER_CTX_new in
  r <- EVP_DecryptInit_ex ctx EVP_aes_256_cbc key iv ;;
  let '(ok, ctx) := r in
  if negb (ok =? 1) then handleErrors else
  let size := to_size_t (Z.of_nat (length ciphertext) - Z.of_nat AES_BLOCK_SIZE) in
  let plaintext := Bytes.zeros (Z.to_nat size) in
  r <- EVP_DecryptUpdate ctx body (to_int size) ;;
  let '(ok, out, ctx) := r in
  if negb (ok =? 1) then handleErrors else
  plaintext <- buffer_write plaintext 0 out ;;
  let len := Z.of_nat (length out) in
  let plaintext_len := len in
  r <- EVP_DecryptFinal_ex ctx ;;
  let '(ok, out, ctx) := r in
  if negb (ok =? 1) then handleErrors else
  plaintext <- buffer_write plaintext (Z.to_nat len) out ;;
  plaintext_len <- int_add plaintext_len (Z.of_nat (length out)) ;;
  let plaintext := vector_resize plaintext (Z.to_nat (to_size_t plaintext_len)) in
  ret plaintext.

Definition usage_text (program : string) : string :=
  ("Usage: " ++ program
   ++ " [-e | -d] -i <inputfile> -o <outputfile> -p <password>" ++ endl)%string.

Definition printUsage (program : string) : M unit :=
  cout_put (usage_text program).

(** The local variables of [main] that the option loop assigns. *)
Record options := Options {
  inputFile : string;
  outputFile : string;
  password : string;
  encrypt : bool;
  decrypt : bool
}.

Definition no_options : options :=
  Options EmptyString EmptyString EmptyString false false.

(** The [switch (opt)] of the option loop; [None] is the [default] case. *)
Definition switch_opt (opt : ascii) (optarg : string) (o : options) : option options :=
  if Ascii.eqb opt "e" then
    Some (Options (inputFile o) (outputFile o) (password o) true (decrypt o))
  else if Ascii.eqb opt "d" then
    Some (Options (inputFile o) (outputFile o) (password o) (encrypt o) true)
  else if Ascii.eqb opt "i" then
    Some (Options optarg (outputFile o) (password o) (encrypt o) (decrypt o))
  else if Ascii.eqb opt "o" then
    Some (Options (inputFile o) optarg (password o) (encrypt o) (decrypt o))
  else if Ascii.eqb opt "p" then
    Some (Options (inputFile o) (outputFile o) optarg (encrypt o) (decrypt o))
  else None.

(** The [while ((opt = getopt(...)) != -1)] loop over the returns of
    [getopt]: the options assigned, or the diagnostic [getopt] printed
    before the [default] case was taken. *)
Fixpoint option_loop (rs : list getopt_result) (o : options)
  : options + option string :=
  match rs with
  | [] => inl o
  | GetoptError d :: _ => inr (Some d)
  | GetoptOption c a :: rs' =>
      match switch_opt c a o with
      | Some o' => option_loop rs' o'
      | None => inr None
      end
  end.

Definition optstring : list ascii := list_ascii_of_string "edi:o:p:".

Definition string_empty (s : string) : bool := String.eqb s EmptyString.

(** The test of line 210: the arguments are refused. *)
Definition refused (o : options) : bool :=
  (encrypt o && decrypt o) || (negb (encrypt o) && negb (decrypt o))
  || string_empty (inputFile o) || string_empty (outputFile o)
  || string_empty (password o).

(** Lines 215-243 of [main]: key derivation, reading the input and the
    transformation in memory. *)
Definition transform (o : options) : M (list byte) :=
  key <- generateKeyFromPassword (password o) ;;
  fileData <- readFile (inputFile o) ;;
  if encrypt o then
    r <- RAND_bytes AES_BLOCK_SIZE ;;
    let '(ok, iv) := r in
    if ok =? 0 then handleErrors else
    print_iv "Generated IV: " iv ;;
    encryptDataWithIV fileData key iv
  else if decrypt o then decryptDataWithIV fileData key
  else ret [].

Definition completed (o : options) : string :=
  ("Operation " ++ (if encrypt o then "encryption" else "decryption")
   ++ " completed successfully!" ++ endl)%string.

(** Lines 215-250 of [main]: what runs once the arguments are accepted. *)
Definition process (o : options) : M Z :=
  resultData <- transform o ;;
  writeFile (outputFile o) resultData ;;
  cout_put (completed o) ;;
  ret 0.

(** The returns of [getopt] for a command line. *)
Definition getopt_returns (argv : list string) (w : world) : list getopt_result :=
  getopt_scan (posixly_correct w) optstring (hd EmptyString argv) (tl argv).

Definition main (argv : list string) : M Z :=
  let program := hd EmptyString argv in
  fun w =>
    match option_loop (getopt_returns argv w) no_options with
    | inr diagnostic =>
        (match diagnostic with
         | Some d => cerr_put d
         | None => ret tt
         end ;;
         printUsage program ;; ret 1) w
    | inl o =>
        (if refused o then printUsage program ;; ret 1 else process o) w
    end.

(** ** Notions used by the statements *)

(** A block cipher whose decryption undoes its encryption on blocks of
    AES_BLOCK_SIZE bytes, both preserving the length. *)
Definition good_cipher (c : EVP_CIPHER) : Prop :=
  forall key b, length b = AES_BLOCK_SIZE ->
    length (block_encrypt c key b) = AES_BLOCK_SIZE
    /\ length (block_decrypt c key b) = AES_BLOCK_SIZE
    /\ block_decrypt c key (block_encrypt c key b) = b.

Definition all_blocks (bs : list (list byte)) : Prop :=
  List.Forall (fun b => length b = AES_BLOCK_SIZE) bs.

(** The blocks that the encryption of [data] feeds to the cipher: the whole
    blocks of [data], then its rest with the padding. *)
Definition padded_blocks (data : list byte) : list (list byte) :=
  blocks_of (firstn (whole_length (length data)) data)
    ++ [padded_block (skipn (whole_length (length data)) data)].

(** AES-256-CBC with padding, as a function. *)
Definition cbc_pkcs7_encrypt (key iv data : list byte) : list byte :=
  fst (cbc_encrypt EVP_aes_256_cbc (firstn AES_KEY_LENGTH key)
         (firstn AES_BLOCK_SIZE iv) (padded_blocks data)).

(** What the cipher text of a container decrypts to, padding included. *)
Definition cbc_decrypted (key container : list byte) : list byte :=
  fst (cbc_decrypt EVP_aes_256_cbc (firstn AES_KEY_LENGTH key)
         (firstn AES_BLOCK_SIZE container)
         (blocks_of (skipn AES_BLOCK_SIZE container))).

(** The last block of the decrypted cipher text. *)
Definition final_block (key container : list byte) : list byte :=
  let d := cbc_decrypted key container in
  skipn (length d - AES_BLOCK_SIZE) d.

(** The key that [generateKeyFromPassword] derives. *)
Definition derived_key (password : string) : list byte :=
  PBKDF2.derive (HMAC.hmac_sha1 (Bytes.of_string password)) SHA1.digest_length
    salt 10000 AES_KEY_LENGTH.

(** Encryption followed by decryption of the container. *)
Definition roundtrip (plaintext key iv : list byte) : M (list byte) :=
  c <- encryptDataWithIV plaintext key iv ;;
  decryptDataWithIV c key.

(** The standard output after [print_iv]. *)
Definition printed_iv (label : string) (iv : list byte) (w : world) : world :=
  set_cout (((cout w ++ label) ++ hex_dump iv) ++ endl)%string w.

(** The world after [handleErrors] reported the queued errors and [e]. *)
Definition reported (e : openssl_error) (w : world) : world :=
  set_err_queue []
    (set_cerr (cerr w ++ map OpenSSLError (err_queue w ++ [e]))
       (set_err_queue (err_queue w ++ [e]) w)).

(** A computation that leaves an observation of the world unchanged,
    however it ends. *)
Definition preserves {A X} (obs : world -> X) (m : M A) : Prop :=
  forall w, obs (snd (m w)) = obs w.

(** *** The command line as [getopt] reports it *)

Definition is_option (c : ascii) (r : getopt_result) : bool :=
  match r with
  | GetoptOption c' _ => Ascii.eqb c' c
  | GetoptError _ => false
  end.

Definition is_error (r : getopt_result) : bool :=
  match r with
  | GetoptOption _ _ => false
  | GetoptError _ => true
  end.

(** The flag [c] was given at least once. *)
Definition given (c : ascii) (rs : list getopt_result) : bool :=
  existsb (is_option c) rs.

(** The assignment that a return of [getopt] makes to the variable of the
    flag [c]. *)
Definition assign (c : ascii) (acc : string) (r : getopt_result) : string :=
  match r with
  | GetoptOption c' a => if Ascii.eqb c' c then a else acc
  | GetoptError _ => acc
  end.

(** The argument of the last occurrence of the flag [c], empty if none. *)
Definition last_argument (c : ascii) (rs : list getopt_result) : string :=
  fold_left (assign c) rs EmptyString.

(** The options that the loop assigns from error-free returns of [getopt]. *)
Definition options_of (rs : list getopt_result) : options :=
  Options (last_argument "i" rs) (last_argument "o" rs) (last_argument "p" rs)
          (given "e" rs) (given "d" rs).

(** An option character that [getopt] can return for the option string of
    [main]. *)
Definition known (c : ascii) : Prop :=
  c = "e"%char \/ c = "d"%char \/ c = "i"%char \/ c = "o"%char \/ c = "p"%char.

Definition well_formed (rs : list getopt_result) : Prop :=
  List.Forall (fun r => match r with
                        | GetoptOption c _ => known c
                        | GetoptError _ => True
                        end) rs.

(** [getopt] reported an unknown option or a missing argument. *)
Definition getopt_failed (rs : list getopt_result) : bool :=
  existsb is_error rs.

(** Neither or both of -e and -d, or one of -i, -o, -p absent or empty. *)
Definition flags_refused (rs : list getopt_result) : bool :=
  refused (options_of rs).

(** *** Sample inputs *)

Definition sample_key : list byte := repeat x2a AES_KEY_LENGTH.
Definition sample_iv : list byte := repeat x17 AES_BLOCK_SIZE.

Definition sample_world : world :=
  {| files := {[ "in.bin" := Bytes.of_string "Hello World" ]};
     writable := fun _ => true;
     cout := EmptyString; cerr := []; err_queue := [];
     RAND := (1, sample_iv);
     posixly_correct := false |}.

(** A plaintext of 2^32 zero bytes: its size converts to the [int] 0. *)
Definition four_gigabytes : list byte := repeat x00 (Z.to_nat 4294967296).

(** Two passwords, the second the SHA-1 digest of the first. *)
Definition long_password : string :=
  "plnlrtfpijpuhqylxbgqiiyipieyxvfsavzgxbbcfusqkozwpngsyejqlmjsytrmd".
Definition short_password : string := "eBkXQTfuBqp'cTcar&g*".

(** A command line that gives -e twice. *)
Definition twice_e : list string :=
  ["prog"; "-e"; "-e"; "-i"; "in.bin"; "-o"; "out.bin"; "-p"; "secret"]%string.

Definition hello_world : list byte := Bytes.of_string "Hello World".

(** A plaintext of one whole block. *)
Definition one_block : list byte := Bytes.of_string "0123456789abcdef".

(** A file too short to hold an IV. *)
Definition ten_bytes : list byte := Bytes.of_string "0123456789".

Definition other_iv : list byte := repeat x00 AES_BLOCK_SIZE.


(** A command line without flags, and one naming a missing input file. *)
Definition no_flags : list string := ["prog"]%string.
Definition missing_input : list string :=
  ["prog"; "-d"; "-i"; "absent.bin"; "-o"; "out.bin"; "-p"; "secret"]%string.

(** *** Runs of [main] *)

(** The option loop of [main] ends with the variables [o], and the test of
    line 210 lets them pass. *)
Definition accepts (argv : list string) (w : world) (o : options) : Prop :=
  option_loop (getopt_returns argv w) no_options = inl o /\ refused o = false.

(** A computation that leaves an observation of the world unchanged
    whenever it returns. *)
Definition preserves_on_return {A X} (obs : world -> X) (m : M A) : Prop :=
  forall w a, fst (m w) = Returned a -> obs (snd (m w)) = obs w.

(** The world after [handleErrors] printed the error queue. *)
Definition errors_printed (w : world) : world :=
  set_err_queue [] (set_cerr (cerr w ++ map OpenSSLError (err_queue w)) w).

(** The world after [readFile] or [writeFile] could not open [name]. *)
Definition cannot_open (name : string) (w : world) : world :=
  set_cerr (cerr w ++ [Message ("Cannot open file: " ++ name ++ endl)]) w.

(** The world after a run that printed the IV under [label], wrote [data]
    to the output file and reported completion. *)
Definition completed_run (o : options) (label : string) (iv data : list byte)
    (w : world) : world :=
  let w1 := printed_iv label iv w in
  set_cout (cout w1 ++ completed o)
    (set_files (<[outputFile o := data]> (files w1)) w1).

(** *** More sample inputs *)

Definition encrypt_line : list string :=
  ["prog"; "-e"; "-i"; "in.bin"; "-o"; "out.bin"; "-p"; "secret"]%string.
Definition decrypt_line : list string :=
  ["prog"; "-d"; "-i"; "out.bin"; "-o"; "back.bin"; "-p"; "secret"]%string.

Definition encrypt_options : options :=
  Options "in.bin" "out.bin" "secret" true false.
Definition decrypt_options : options :=
  Options "out.bin" "back.bin" "secret" false true.
Definition absent_options : options :=
  Options "absent.bin" "out.bin" "secret" false true.

(** The sample world with no path that can be opened for writing. *)
Definition read_only_world : world :=
  {| files := {[ "in.bin" := Bytes.of_string "Hello World" ]};
     writable := fun _ => false;
     cout := EmptyString; cerr := []; err_queue := [];
     RAND := (1, sample_iv);
     posixly_correct := false |}.

(** The sample world with [RAND_bytes] failing. *)
Definition no_random_world : world :=
  {| files := {[ "in.bin" := Bytes.of_string "Hello World" ]};
     writable := fun _ => true;
     cout := EmptyString; cerr := []; err_queue := [];
     RAND := (0, []);
     posixly_correct := false |}.

(** The container of "Hello World" under the password "secret". *)
Definition hello_container : list byte :=
  sample_iv ++ cbc_pkcs7_encrypt (derived_key "secret") sample_iv hello_world.

(** A world whose file "out.bin" holds that container. *)
Definition container_world : world :=
  {| files := {[ "out.bin" := hello_container ]};
     writable := fun _ => true;
     cout := EmptyString; cerr := []; err_queue := [];
     RAND := (1, sample_iv);
     posixly_correct := false |}.

(** A plaintext of 2^31 - 16 zero bytes. *)
Definition two_gigabytes : list byte := repeat x00 (Z.to_nat 2147483632).


(** A computation that calls [exit] with no status other than [status]. *)
Definition exits_only_with {A} (status : Z) (m : M A) : Prop :=
  forall w s, fst (m w) = Exited s -> s = status.

(** The command line of the usage text: the mode, then -i, -o and -p with
    their values. *)
Definition usage_line (prog : string) (e : bool) (i o p : string) : list string :=
  [prog; if e then "-e" else "-d"; "-i"; i; "-o"; o; "-p"; p]%string.


(** A computation that is aborted only by [handleErrors]: the world it
    leaves is one in which the error queue has just been printed. *)
Definition aborts_in_handleErrors {A} (m : M A) : Prop :=
  forall w, fst (m w) = Aborted -> exists w1, snd (m w) = errors_printed w1.

(** * Part II: properties *)

Module BytesFacts.
Import Bytes.

Lemma to_Z_range b : 0 <= to_Z b < 256.
Proof.
  unfold to_Z. pose proof (Byte.to_N_bounded b). lia.
Qed.

Lemma of_to_Z b : of_Z (to_Z b) = b.
Proof.
  unfold of_Z. pose proof (to_Z_range b).
  change 255 with (Z.ones 8). rewrite Z.land_ones by lia.
  rewrite Z.mod_small by (change (2 ^ 8) with 256; lia). unfold to_Z. rewrite N2Z.id.
  now rewrite Byte.of_to_N.
Qed.

Lemma to_of_Z z : 0 <= z < 256 -> to_Z (of_Z z) = z.
Proof.
  intros Hz. unfold of_Z, to_Z.
  change 255 with (Z.ones 8). rewrite Z.land_ones by lia.
  rewrite Z.mod_small by (change (2 ^ 8) with 256; lia).
  destruct (Byte.of_N (Z.to_N z)) as [b|] eqn:E.
  - apply Byte.to_of_N in E. rewrite E. lia.
  - apply Byte.of_N_None_iff in E. lia.
Qed.

Lemma to_Z_inj a b : to_Z a = to_Z b -> a = b.
Proof. intros H. rewrite <- (of_to_Z a), <- (of_to_Z b). now rewrite H. Qed.

Lemma lxor_range a b : 0 <= a < 256 -> 0 <= b < 256 -> 0 <= Z.lxor a b < 256.
Proof.
  intros Ha Hb. split.
  - apply Z.lxor_nonneg. lia.
  - destruct (Z.eq_dec (Z.lxor a b) 0) as [->|Hn]; [lia|].
    assert (0 < Z.lxor a b) by (assert (0 <= Z.lxor a b) by (apply Z.lxor_nonneg; lia); lia).
    apply (Z.log2_lt_pow2 _ 8); [lia|].
    pose proof (Z.log2_lxor a b ltac:(lia) ltac:(lia)).
    assert (Z.log2 a < 8).
    { destruct (Z.eq_dec a 0) as [->|]; [simpl; lia|]. apply Z.log2_lt_pow2; lia. }
    assert (Z.log2 b < 8).
    { destruct (Z.eq_dec b 0) as [->|]; [simpl; lia|]. apply Z.log2_lt_pow2; lia. }
    lia.
Qed.

Lemma to_Z_xor a b : to_Z (xor a b) = Z.lxor (to_Z a) (to_Z b).
Proof.
  unfold xor. apply to_of_Z. apply lxor_range; apply to_Z_range.
Qed.

Lemma xor_comm a b : xor a b = xor b a.
Proof. apply to_Z_inj. rewrite !to_Z_xor. apply Z.lxor_comm. Qed.

Lemma xor_assoc a b c : xor a (xor b c) = xor (xor a b) c.
Proof. apply to_Z_inj. rewrite !to_Z_xor. now rewrite Z.lxor_assoc. Qed.

Lemma xor_nilpotent a : xor a a = x00.
Proof. apply to_Z_inj. rewrite to_Z_xor, Z.lxor_nilpotent. reflexivity. Qed.

Lemma xor_x00_r a : xor a x00 = a.
Proof. apply to_Z_inj. rewrite to_Z_xor. change (to_Z x00) with 0. apply Z.lxor_0_r. Qed.

Lemma xor_x00_l a : xor x00 a = a.
Proof. rewrite xor_comm. apply xor_x00_r. Qed.

Lemma xor_cancel_r a b : xor (xor a b) b = a.
Proof. now rewrite <- xor_assoc, xor_nilpotent, xor_x00_r. Qed.

Lemma xor_list_length a b : length (xor_list a b) = Nat.min (length a) (length b).
Proof.
  revert b. induction a as [|x a IH]; intros [|y b]; simpl; auto.
Qed.

Lemma xor_list_cancel a b :
  (length a <= length b)%nat -> xor_list (xor_list a b) b = a.
Proof.
  revert b. induction a as [|x a IH]; intros [|y b]; simpl; intros H; try lia; auto.
  rewrite xor_cancel_r, IH by lia. reflexivity.
Qed.

Lemma of_string_length s : length (of_string s) = String.length s.
Proof.
  unfold of_string, list_byte_of_string.
  rewrite length_map. induction s; simpl; auto.
Qed.

Lemma zeros_length n : length (zeros n) = n.
Proof. apply repeat_length. Qed.

End BytesFacts.

Module AESFacts.
Import AES BytesFacts.

Lemma all_bytes_nth b : nth (index b) all_bytes x00 = b.
Proof. destruct b; reflexivity. Qed.

Lemma index_lt b : (index b < 256)%nat.
Proof. unfold index. pose proof (to_Z_range b). lia. Qed.

(** A property checked on the table of all bytes holds of every byte. *)
Lemma forall_bytes (P : byte -> bool) :
  forallb P all_bytes = true -> forall b, P b = true.
Proof.
  intros H b. rewrite forallb_forall in H. apply H.
  rewrite <- (all_bytes_nth b). apply nth_In.
  change (length all_bytes) with 256%nat. apply index_lt.
Qed.

Lemma forall_bytes2 (P : byte -> byte -> bool) :
  forallb (fun a => forallb (P a) all_bytes) all_bytes = true ->
  forall a b, P a b = true.
Proof.
  intros H a b.
  apply (forall_bytes (P a)). apply (forall_bytes _ H a).
Qed.

Lemma inv_sbox_sbox b : inv_sbox (sbox b) = b.
Proof.
  apply Byte.byte_dec_bl. revert b. apply forall_bytes. vm_compute. reflexivity.
Qed.

Lemma additive_check f :
  forallb (fun a => forallb (fun b => Byte.eqb (f (Bytes.xor a b)) (Bytes.xor (f a) (f b)))
                            all_bytes) all_bytes = true ->
  additive f.
Proof.
  intros H a b. apply Byte.byte_dec_bl.
  apply (forall_bytes2 (fun a b => Byte.eqb (f (Bytes.xor a b)) (Bytes.xor (f a) (f b))) H).
Qed.

Lemma m9_additive : additive m9.
Proof. apply additive_check. vm_compute. reflexivity. Qed.
Lemma m11_additive : additive m11.
Proof. apply additive_check. vm_compute. reflexivity. Qed.
Lemma m13_additive : additive m13.
Proof. apply additive_check. vm_compute. reflexivity. Qed.
Lemma m14_additive : additive m14.
Proof. apply additive_check. vm_compute. reflexivity. Qed.

Lemma additive_xor4 f : additive f ->
  forall a b c d, f (xor4 a b c d) = xor4 (f a) (f b) (f c) (f d).
Proof. intros H a b c d. unfold xor4. now rewrite !H. Qed.

Lemma xor_interchange a b c d :
  Bytes.xor (Bytes.xor a b) (Bytes.xor c d) = Bytes.xor (Bytes.xor a c) (Bytes.xor b d).
Proof.
  rewrite <- (xor_assoc a b), (xor_assoc b c d), (xor_comm b c),
    <- (xor_assoc c b d), (xor_assoc a c). reflexivity.
Qed.

(** The xor of a 4 x 4 table of bytes by rows equals the xor by columns. *)
Lemma xor4_transpose a1 a2 a3 a4 b1 b2 b3 b4 c1 c2 c3 c4 d1 d2 d3 d4 :
  xor4 (xor4 a1 a2 a3 a4) (xor4 b1 b2 b3 b4) (xor4 c1 c2 c3 c4) (xor4 d1 d2 d3 d4)
  = xor4 (xor4 a1 b1 c1 d1) (xor4 a2 b2 c2 d2) (xor4 a3 b3 c3 d3) (xor4 a4 b4 c4 d4).
Proof.
  unfold xor4.
  rewrite (xor_interchange (Bytes.xor a1 a2)), (xor_interchange (Bytes.xor c1 c2)).
  rewrite (xor_interchange (Bytes.xor (Bytes.xor a1 a2) (Bytes.xor b1 b2))).
  rewrite (xor_interchange a1 a2), (xor_interchange c1 c2),
    (xor_interchange a3 a4), (xor_interchange c3 c4).
  rewrite (xor_interchange (Bytes.xor a1 b1)), (xor_interchange (Bytes.xor a3 b3)).
  reflexivity.
Qed.

Lemma xor4_1 a : xor4 a x00 x00 x00 = a.
Proof. unfold xor4. repeat (rewrite xor_x00_l || rewrite xor_x00_r). reflexivity. Qed.
Lemma xor4_2 a : xor4 x00 a x00 x00 = a.
Proof. unfold xor4. repeat (rewrite xor_x00_l || rewrite xor_x00_r). reflexivity. Qed.
Lemma xor4_3 a : xor4 x00 x00 a x00 = a.
Proof. unfold xor4. repeat (rewrite xor_x00_l || rewrite xor_x00_r). reflexivity. Qed.
Lemma xor4_4 a : xor4 x00 x00 x00 a = a.
Proof. unfold xor4. repeat (rewrite xor_x00_l || rewrite xor_x00_r). reflexivity. Qed.

(** The products of the rows of the inverse matrix with the columns of the
    MixColumns matrix, on one byte: the entries of the identity matrix. *)
Ltac by_table :=
  intros; apply Byte.byte_dec_bl;
  match goal with x : byte |- _ => revert x end;
  apply forall_bytes; vm_compute; reflexivity.

Lemma product_0_0 x : xor4 (m14 (m2 x)) (m11 x) (m13 x) (m9 (m3 x)) = x.
Proof. by_table. Qed.
Lemma product_0_1 x : xor4 (m14 (m3 x)) (m11 (m2 x)) (m13 x) (m9 x) = x00.
Proof. by_table. Qed.
Lemma product_0_2 x : xor4 (m14 x) (m11 (m3 x)) (m13 (m2 x)) (m9 x) = x00.
Proof. by_table. Qed.
Lemma product_0_3 x : xor4 (m14 x) (m11 x) (m13 (m3 x)) (m9 (m2 x)) = x00.
Proof. by_table. Qed.
Lemma product_1_0 x : xor4 (m9 (m2 x)) (m14 x) (m11 x) (m13 (m3 x)) = x00.
Proof. by_table. Qed.
Lemma product_1_1 x : xor4 (m9 (m3 x)) (m14 (m2 x)) (m11 x) (m13 x) = x.
Proof. by_table. Qed.
Lemma product_1_2 x : xor4 (m9 x) (m14 (m3 x)) (m11 (m2 x)) (m13 x) = x00.
Proof. by_table. Qed.
Lemma product_1_3 x : xor4 (m9 x) (m14 x) (m11 (m3 x)) (m13 (m2 x)) = x00.
Proof. by_table. Qed.
Lemma product_2_0 x : xor4 (m13 (m2 x)) (m9 x) (m14 x) (m11 (m3 x)) = x00.
Proof. by_table. Qed.
Lemma product_2_1 x : xor4 (m13 (m3 x)) (m9 (m2 x)) (m14 x) (m11 x) = x00.
Proof. by_table. Qed.
Lemma product_2_2 x : xor4 (m13 x) (m9 (m3 x)) (m14 (m2 x)) (m11 x) = x.
Proof. by_table. Qed.
Lemma product_2_3 x : xor4 (m13 x) (m9 x) (m14 (m3 x)) (m11 (m2 x)) = x00.
Proof. by_table. Qed.
Lemma product_3_0 x : xor4 (m11 (m2 x)) (m13 x) (m9 x) (m14 (m3 x)) = x00.
Proof. by_table. Qed.
Lemma product_3_1 x : xor4 (m11 (m3 x)) (m13 (m2 x)) (m9 x) (m14 x) = x00.
Proof. by_table. Qed.
Lemma product_3_2 x : xor4 (m11 x) (m13 (m3 x)) (m9 (m2 x)) (m14 x) = x00.
Proof. by_table. Qed.
Lemma product_3_3 x : xor4 (m11 x) (m13 x) (m9 (m3 x)) (m14 (m2 x)) = x.
Proof. by_table. Qed.

Ltac columns_cancel :=
  intros;
  rewrite !(additive_xor4 _ m9_additive), !(additive_xor4 _ m11_additive),
    !(additive_xor4 _ m13_additive), !(additive_xor4 _ m14_additive);
  rewrite xor4_transpose;
  rewrite ?product_0_0, ?product_0_1, ?product_0_2, ?product_0_3,
    ?product_1_0, ?product_1_1, ?product_1_2, ?product_1_3,
    ?product_2_0, ?product_2_1, ?product_2_2, ?product_2_3,
    ?product_3_0, ?product_3_1, ?product_3_2, ?product_3_3;
  first [apply xor4_1 | apply xor4_2 | apply xor4_3 | apply xor4_4].

Lemma inv_col0 a b c d :
  xor4 (m14 (xor4 (m2 a) (m3 b) c d)) (m11 (xor4 a (m2 b) (m3 c) d))
       (m13 (xor4 a b (m2 c) (m3 d))) (m9 (xor4 (m3 a) b c (m2 d))) = a.
Proof. columns_cancel. Qed.

Lemma inv_col1 a b c d :
  xor4 (m9 (xor4 (m2 a) (m3 b) c d)) (m14 (xor4 a (m2 b) (m3 c) d))
       (m11 (xor4 a b (m2 c) (m3 d))) (m13 (xor4 (m3 a) b c (m2 d))) = b.
Proof. columns_cancel. Qed.

Lemma inv_col2 a b c d :
  xor4 (m13 (xor4 (m2 a) (m3 b) c d)) (m9 (xor4 a (m2 b) (m3 c) d))
       (m14 (xor4 a b (m2 c) (m3 d))) (m11 (xor4 (m3 a) b c (m2 d))) = c.
Proof. columns_cancel. Qed.

Lemma inv_col3 a b c d :
  xor4 (m11 (xor4 (m2 a) (m3 b) c d)) (m13 (xor4 a (m2 b) (m3 c) d))
       (m9 (xor4 a b (m2 c) (m3 d))) (m14 (xor4 (m3 a) b c (m2 d))) = d.
Proof. columns_cancel. Qed.

Lemma inv_mix_mix_columns s :
  length s = 16%nat -> inv_mix_columns (mix_columns s) = s.
Proof.
  intros H.
  do 16 (destruct s as [|? s]; [discriminate H|]).
  destruct s; [|discriminate H].
  cbv [mix_columns inv_mix_columns columns mix_column inv_mix_column app].
  now rewrite !inv_col0, !inv_col1, !inv_col2, !inv_col3.
Qed.

Lemma inv_sub_sub_bytes s : inv_sub_bytes (sub_bytes s) = s.
Proof.
  unfold inv_sub_bytes, sub_bytes. induction s as [|b s IH]; simpl; [reflexivity|].
  now rewrite inv_sbox_sbox, IH.
Qed.

Lemma inv_shift_shift_rows s :
  length s = 16%nat -> inv_shift_rows (shift_rows s) = s.
Proof.
  intros H.
  do 16 (destruct s as [|? s]; [discriminate H|]).
  destruct s; [|discriminate H]. reflexivity.
Qed.

Lemma sub_bytes_length s : length (sub_bytes s) = length s.
Proof. apply length_map. Qed.

Lemma inv_sub_bytes_length s : length (inv_sub_bytes s) = length s.
Proof. apply length_map. Qed.

Lemma shift_rows_length s : length s = 16%nat -> length (shift_rows s) = 16%nat.
Proof.
  intros H.
  do 16 (destruct s as [|? s]; [discriminate H|]).
  destruct s; [|discriminate H]. reflexivity.
Qed.

Lemma mix_columns_length s : length s = 16%nat -> length (mix_columns s) = 16%nat.
Proof.
  intros H.
  do 16 (destruct s as [|? s]; [discriminate H|]).
  destruct s; [|discriminate H]. reflexivity.
Qed.

Lemma add_round_key_length s k :
  length s = 16%nat -> length k = 16%nat -> length (add_round_key s k) = 16%nat.
Proof. intros Hs Hk. unfold add_round_key. rewrite xor_list_length. lia. Qed.

Lemma add_round_key_cancel s k :
  length s = 16%nat -> length k = 16%nat ->
  add_round_key (add_round_key s k) k = s.
Proof. intros Hs Hk. apply xor_list_cancel. lia. Qed.

Lemma inv_shift_rows_length s :
  length s = 16%nat -> length (inv_shift_rows s) = 16%nat.
Proof.
  intros H.
  do 16 (destruct s as [|? s]; [discriminate H|]).
  destruct s; [|discriminate H]. reflexivity.
Qed.

Lemma inv_mix_columns_length s :
  length s = 16%nat -> length (inv_mix_columns s) = 16%nat.
Proof.
  intros H.
  do 16 (destruct s as [|? s]; [discriminate H|]).
  destruct s; [|discriminate H]. reflexivity.
Qed.

Lemma inv_round_length s k :
  length s = 16%nat -> length k = 16%nat -> length (inv_round s k) = 16%nat.
Proof.
  intros Hs Hk. unfold inv_round. rewrite inv_sub_bytes_length.
  apply inv_shift_rows_length, inv_mix_columns_length.
  now apply add_round_key_length.
Qed.

Lemma round_key_length ws r : length (round_key ws r) = 16%nat.
Proof. reflexivity. Qed.

Lemma round_length s k :
  length s = 16%nat -> length k = 16%nat -> length (round s k) = 16%nat.
Proof.
  intros Hs Hk. unfold round. apply add_round_key_length; [|exact Hk].
  apply mix_columns_length, shift_rows_length. now rewrite sub_bytes_length.
Qed.

Lemma inv_round_round s k :
  length s = 16%nat -> length k = 16%nat -> inv_round (round s k) k = s.
Proof.
  intros Hs Hk. unfold inv_round, round.
  assert (Hsr : length (shift_rows (sub_bytes s)) = 16%nat)
    by (apply shift_rows_length; now rewrite sub_bytes_length).
  rewrite add_round_key_cancel by (try apply mix_columns_length; assumption).
  rewrite inv_mix_mix_columns by exact Hsr.
  rewrite inv_shift_shift_rows by (now rewrite sub_bytes_length).
  apply inv_sub_sub_bytes.
Qed.

Lemma rounds_length ks : forall s,
  List.Forall (fun k => length k = 16%nat) ks ->
  length s = 16%nat -> length (fold_left round ks s) = 16%nat.
Proof.
  induction ks as [|k ks IH]; intros s Hks Hs; simpl; [exact Hs|].
  apply List.Forall_cons_iff in Hks. destruct Hks as [Hk Hks].
  apply IH; [exact Hks|]. now apply round_length.
Qed.

Lemma inv_rounds_rounds ks : forall s,
  List.Forall (fun k => length k = 16%nat) ks ->
  length s = 16%nat ->
  fold_left inv_round (rev ks) (fold_left round ks s) = s.
Proof.
  induction ks as [|k ks IH]; intros s Hks Hs; simpl; [reflexivity|].
  apply List.Forall_cons_iff in Hks. destruct Hks as [Hk Hks].
  rewrite fold_left_app. simpl.
  rewrite IH by (try apply round_length; assumption).
  now apply inv_round_round.
Qed.

Lemma middle_keys_length ws :
  List.Forall (fun k => length k = 16%nat) (middle_keys ws).
Proof.
  unfold middle_keys. apply List.Forall_forall. intros k Hk.
  apply List.in_map_iff in Hk. destruct Hk as [r [<- _]]. apply round_key_length.
Qed.

Lemma cipher_length key block :
  length block = 16%nat -> length (cipher key block) = 16%nat.
Proof.
  intros H. unfold cipher.
  apply add_round_key_length; [|apply round_key_length].
  apply shift_rows_length. rewrite sub_bytes_length.
  apply rounds_length; [apply middle_keys_length|].
  apply add_round_key_length; [exact H|apply round_key_length].
Qed.

(** FIPS 197, section 5.3: the inverse cipher undoes the cipher. *)
Lemma inv_cipher_cipher key block :
  length block = 16%nat -> inv_cipher key (cipher key block) = block.
Proof.
  intros H. unfold inv_cipher, cipher.
  set (ws := key_schedule key).
  assert (H0 : length (add_round_key block (round_key ws 0)) = 16%nat)
    by (apply add_round_key_length; [exact H|apply round_key_length]).
  assert (HF : length (fold_left round (middle_keys ws)
                         (add_round_key block (round_key ws 0))) = 16%nat)
    by (apply rounds_length; [apply middle_keys_length|exact H0]).
  rewrite add_round_key_cancel;
    [|apply shift_rows_length; now rewrite sub_bytes_length|apply round_key_length].
  rewrite inv_shift_shift_rows by (now rewrite sub_bytes_length).
  rewrite inv_sub_sub_bytes.
  rewrite inv_rounds_rounds by (try apply middle_keys_length; assumption).
  apply add_round_key_cancel; [exact H|apply round_key_length].
Qed.

Lemma inv_cipher_length key block :
  length block = 16%nat -> length (inv_cipher key block) = 16%nat.
Proof.
  intros H. unfold inv_cipher.
  apply add_round_key_length; [|apply round_key_length].
  assert (H0 : length (inv_sub_bytes (inv_shift_rows
             (add_round_key block (round_key (key_schedule key) 14)))) = 16%nat).
  { rewrite inv_sub_bytes_length. apply inv_shift_rows_length.
    apply add_round_key_length; [exact H|apply round_key_length]. }
  revert H0. generalize (inv_sub_bytes (inv_shift_rows
             (add_round_key block (round_key (key_schedule key) 14)))).
  pose proof (middle_keys_length (key_schedule key)) as Hk.
  apply List.Forall_rev in Hk. revert Hk.
  generalize (rev (middle_keys (key_schedule key))).
  intros ks. induction ks as [|k ks IH]; intros Hks s Hs; simpl; [exact Hs|].
  apply List.Forall_cons_iff in Hks. destruct Hks as [Hk Hks].
  apply IH; [exact Hks|]. now apply inv_round_length.
Qed.

End AESFacts.

Module EVPFacts.
Import Bytes BytesFacts.

Lemma chunks_fuel n l : (0 < n)%nat ->
  forall f1 f2, (length l <= f1)%nat -> (length l <= f2)%nat ->
  chunks f1 n l = chunks f2 n l.
Proof.
  intros Hn f1. revert l.
  induction f1 as [|f1 IH]; intros l f2 H1 H2.
  - destruct l; [|simpl in H1; lia]. destruct f2; reflexivity.
  - destruct l as [|x l]; [destruct f2; reflexivity|].
    destruct f2 as [|f2]; [simpl in H2; lia|].
    cbn [chunks]. f_equal.
    apply IH; rewrite List.length_skipn; simpl in *; lia.
Qed.

Lemma blocks_of_nil : blocks_of [] = [].
Proof. reflexivity. Qed.

Lemma blocks_of_app b rest :
  length b = AES_BLOCK_SIZE -> blocks_of (b ++ rest) = b :: blocks_of rest.
Proof.
  intros Hb. unfold blocks_of. rewrite List.length_app, Hb.
  change (AES_BLOCK_SIZE + length rest)%nat with (S (15 + length rest)).
  cbn [chunks].
  destruct (b ++ rest) eqn:E.
  - apply (f_equal (@length byte)) in E. rewrite List.length_app, Hb in E. discriminate E.
  - rewrite <- E.
    rewrite (take_app_length' b rest _ (eq_sym Hb)),
      (drop_app_length' b rest _ (eq_sym Hb)).
    f_equal. apply chunks_fuel; unfold AES_BLOCK_SIZE; lia.
Qed.

Lemma blocks_of_spec k : forall l,
  length l = (AES_BLOCK_SIZE * k)%nat ->
  all_blocks (blocks_of l) /\ concat (blocks_of l) = l /\ length (blocks_of l) = k.
Proof.
  unfold all_blocks.
  induction k as [|k IH]; intros l Hl.
  - destruct l; [|simpl in Hl; unfold AES_BLOCK_SIZE in Hl; lia].
    repeat split. constructor.
  - rewrite <- (List.firstn_skipn AES_BLOCK_SIZE l).
    assert (Hf : length (firstn AES_BLOCK_SIZE l) = AES_BLOCK_SIZE)
      by (rewrite List.length_firstn; unfold AES_BLOCK_SIZE in *; lia).
    rewrite blocks_of_app by exact Hf.
    destruct (IH (skipn AES_BLOCK_SIZE l)) as (IH1 & IH2 & IH3).
    { rewrite List.length_skipn. unfold AES_BLOCK_SIZE in *. lia. }
    repeat split.
    + constructor; assumption.
    + cbn [concat]. now rewrite IH2.
    + cbn [length]. now rewrite IH3.
Qed.

Lemma whole_length_le n : (whole_length n <= n)%nat.
Proof.
  unfold whole_length, AES_BLOCK_SIZE.
  pose proof (Nat.div_mod_eq n 16). lia.
Qed.

Lemma whole_length_rest n : (n - whole_length n < AES_BLOCK_SIZE)%nat.
Proof.
  unfold whole_length, AES_BLOCK_SIZE.
  pose proof (Nat.div_mod_eq n 16). pose proof (Nat.mod_upper_bound n 16). lia.
Qed.

Lemma whole_length_mul k : whole_length (AES_BLOCK_SIZE * k) = (AES_BLOCK_SIZE * k)%nat.
Proof.
  unfold whole_length, AES_BLOCK_SIZE.
  rewrite (Nat.mul_comm 16 k), Nat.div_mul by lia. reflexivity.
Qed.

Lemma whole_length_blocks n : exists k, whole_length n = (AES_BLOCK_SIZE * k)%nat.
Proof. exists (n / AES_BLOCK_SIZE)%nat. unfold whole_length. lia. Qed.

Section Cipher.
Variable c : EVP_CIPHER.
Hypothesis c_good : good_cipher c.
Variable key : list byte.

Lemma cbc_encrypt_app bs1 : forall iv bs2,
  cbc_encrypt c key iv (bs1 ++ bs2)
  = (fst (cbc_encrypt c key iv bs1)
       ++ fst (cbc_encrypt c key (snd (cbc_encrypt c key iv bs1)) bs2),
     snd (cbc_encrypt c key (snd (cbc_encrypt c key iv bs1)) bs2)).
Proof.
  induction bs1 as [|b bs1 IH]; intros iv bs2.
  - cbn [app cbc_encrypt fst snd]. now destruct (cbc_encrypt c key iv bs2).
  - cbn [app cbc_encrypt fst snd]. rewrite IH. cbn [fst snd].
    now rewrite List.app_assoc.
Qed.

Lemma xor_block_length b iv :
  length b = AES_BLOCK_SIZE -> length iv = AES_BLOCK_SIZE ->
  length (xor_list b iv) = AES_BLOCK_SIZE.
Proof. intros Hb Hi. rewrite xor_list_length. lia. Qed.

Lemma cbc_encrypt_length bs : forall iv,
  all_blocks bs -> length iv = AES_BLOCK_SIZE ->
  length (fst (cbc_encrypt c key iv bs)) = (AES_BLOCK_SIZE * length bs)%nat
  /\ length (snd (cbc_encrypt c key iv bs)) = AES_BLOCK_SIZE.
Proof.
  unfold all_blocks.
  induction bs as [|b bs IH]; intros iv Hbs Hiv.
  - split; [reflexivity|exact Hiv].
  - apply List.Forall_cons_iff in Hbs. destruct Hbs as [Hb Hbs].
    cbn [cbc_encrypt fst snd].
    destruct (c_good key (xor_list b iv)) as (He & _ & _);
      [now apply xor_block_length|].
    destruct (IH (block_encrypt c key (xor_list b iv)) Hbs He) as [IH1 IH2].
    split; [|exact IH2].
    rewrite List.length_app, He, IH1. cbn [length]. lia.
Qed.

Lemma cbc_decrypt_length bs : forall iv,
  all_blocks bs -> length iv = AES_BLOCK_SIZE ->
  length (fst (cbc_decrypt c key iv bs)) = (AES_BLOCK_SIZE * length bs)%nat.
Proof.
  unfold all_blocks.
  induction bs as [|b bs IH]; intros iv Hbs Hiv.
  - reflexivity.
  - apply List.Forall_cons_iff in Hbs. destruct Hbs as [Hb Hbs].
    cbn [cbc_decrypt fst snd].
    destruct (c_good key b Hb) as (_ & Hd & _).
    rewrite List.length_app, xor_block_length, (IH b Hbs Hb) by assumption.
    cbn [length]. lia.
Qed.

(** CBC decryption of a CBC encryption gives the blocks back. *)
Lemma cbc_decrypt_encrypt bs : forall iv,
  all_blocks bs -> length iv = AES_BLOCK_SIZE ->
  fst (cbc_decrypt c key iv (blocks_of (fst (cbc_encrypt c key iv bs)))) = concat bs.
Proof.
  unfold all_blocks.
  induction bs as [|b bs IH]; intros iv Hbs Hiv.
  - reflexivity.
  - apply List.Forall_cons_iff in Hbs. destruct Hbs as [Hb Hbs].
    cbn [cbc_encrypt fst snd concat].
    destruct (c_good key (xor_list b iv)) as (He & _ & Hde);
      [now apply xor_block_length|].
    rewrite blocks_of_app by exact He.
    cbn [cbc_decrypt fst snd]. rewrite Hde.
    rewrite xor_list_cancel by lia.
    now rewrite (IH _ Hbs He).
Qed.

End Cipher.

Lemma aes_256_cbc_good : good_cipher EVP_aes_256_cbc.
Proof.
  intros key b Hb. cbn [EVP_aes_256_cbc block_encrypt block_decrypt].
  split; [|split].
  - now apply AESFacts.cipher_length.
  - now apply AESFacts.inv_cipher_length.
  - now apply AESFacts.inv_cipher_cipher.
Qed.

(** *** Padding *)

Lemma padded_block_length buf :
  (length buf < AES_BLOCK_SIZE)%nat -> length (padded_block buf) = AES_BLOCK_SIZE.
Proof.
  intros H. unfold padded_block. rewrite List.length_app, repeat_length. lia.
Qed.

Lemma forallb_repeat {A} (p : A -> bool) x n :
  p x = true -> forallb p (repeat x n) = true.
Proof. intros H. induction n; simpl; [reflexivity|]. now rewrite H. Qed.

Lemma padding_length_padded buf :
  (length buf < AES_BLOCK_SIZE)%nat ->
  padding_length (padded_block buf) = Some (AES_BLOCK_SIZE - length buf)%nat.
Proof.
  intros H. unfold padding_length, padded_block.
  set (n := (AES_BLOCK_SIZE - length buf)%nat).
  assert (Hn : (1 <= n <= 16)%nat) by (unfold n, AES_BLOCK_SIZE in *; lia).
  assert (Hb : to_Z (of_Z (Z.of_nat n)) = Z.of_nat n) by (apply to_of_Z; lia).
  rewrite List.app_nth2 by (unfold AES_BLOCK_SIZE in *; lia).
  rewrite List.nth_repeat_lt by (unfold n, AES_BLOCK_SIZE in *; lia).
  rewrite Hb.
  replace (Z.of_nat n =? 0) with false by (symmetry; apply Z.eqb_neq; lia).
  replace (Z.of_nat AES_BLOCK_SIZE <? Z.of_nat n) with false
    by (symmetry; apply Z.ltb_ge; unfold AES_BLOCK_SIZE; lia).
  cbn [orb]. rewrite Nat2Z.id.
  replace (AES_BLOCK_SIZE - n)%nat with (length buf) by (unfold n; lia).
  rewrite List.skipn_app, Nat.sub_diag, List.skipn_all, List.skipn_O. cbn [app].
  rewrite forallb_repeat; [reflexivity|]. rewrite Hb. apply Z.eqb_refl.
Qed.

Lemma padding_length_bound final n :
  padding_length final = Some n -> (1 <= n <= AES_BLOCK_SIZE)%nat.
Proof.
  unfold padding_length.
  set (z := to_Z (nth (AES_BLOCK_SIZE - 1) final x00)).
  destruct (z =? 0) eqn:E0; [discriminate|].
  destruct (Z.of_nat AES_BLOCK_SIZE <? z) eqn:E1; [discriminate|].
  cbn [orb]. destruct (forallb _ _); [|discriminate].
  intros [= <-]. apply Z.eqb_neq in E0. apply Z.ltb_ge in E1.
  pose proof (to_Z_range (nth (AES_BLOCK_SIZE - 1) final x00)).
  fold z in H. unfold AES_BLOCK_SIZE in *. lia.
Qed.

(** *** Buffers *)

Lemma store_fits buf off data :
  (off + length data <= length buf)%nat ->
  store buf off data = Some (firstn off buf ++ data ++ skipn (off + length data) buf).
Proof.
  intros H. unfold store. apply Nat.leb_le in H. now rewrite H.
Qed.

Lemma skipn_zeros n m : skipn n (zeros m) = zeros (m - n).
Proof.
  unfold zeros. revert m. induction n as [|n IH]; intros m.
  - now rewrite Nat.sub_0_r.
  - destruct m; [reflexivity|]. cbn [repeat skipn]. apply IH.
Qed.

(** Two successive outputs written into a zeroed buffer. *)
Lemma two_writes size a b :
  (length a + length b <= size)%nat ->
  store (zeros size) 0 a = Some (a ++ zeros (size - length a))
  /\ store (a ++ zeros (size - length a)) (length a) b
     = Some (a ++ b ++ zeros (size - length a - length b)).
Proof.
  intros H. split.
  - rewrite store_fits by (rewrite zeros_length; lia).
    cbn [firstn app Nat.add]. now rewrite skipn_zeros.
  - rewrite store_fits by (rewrite List.length_app, zeros_length; lia).
    rewrite (take_app_length' a _ _ eq_refl).
    rewrite List.skipn_app, skipn_zeros.
    rewrite List.skipn_all2 by lia. cbn [app].
    do 4 f_equal. lia.
Qed.

(** The buffer cut to the length of what was written. *)
Lemma resize_written a b k :
  vector_resize (a ++ b ++ zeros k) (length a + length b) = a ++ b.
Proof.
  unfold vector_resize. rewrite List.app_assoc.
  rewrite <- List.length_app.
  rewrite (take_app_length' (a ++ b) _ _ eq_refl).
  rewrite (List.length_app (a ++ b)).
  replace (_ - _)%nat with 0%nat by lia.
  cbn. now rewrite List.app_nil_r.
Qed.

End EVPFacts.

Module ProgramFacts.
Import Bytes BytesFacts EVPFacts.

Lemma bind_returned {A B} (m : M A) (k : A -> M B) w a w' :
  m w = (Returned a, w') -> bind m k w = k a w'.
Proof. intros H. unfold bind. now rewrite H. Qed.

Lemma to_int_small z : 0 <= z <= INT_MAX -> to_int z = z.
Proof.
  unfold to_int, INT_MAX. intros H.
  rewrite Z.mod_small by lia. lia.
Qed.

Lemma to_int_nonneg_le z : 0 <= z -> 0 <= to_int z -> to_int z <= z.
Proof.
  unfold to_int. intros Hz H.
  pose proof (Z.mod_le (z + 2 ^ 31) (2 ^ 32) ltac:(lia) ltac:(lia)). lia.
Qed.

Lemma to_size_t_small z : 0 <= z <= INT_MAX -> to_size_t z = z.
Proof. unfold to_size_t, INT_MAX. intros H. apply Z.mod_small. lia. Qed.

Lemma int_add_fits a b w :
  INT_MIN <= a + b <= INT_MAX -> int_add a b w = (Returned (a + b), w).
Proof.
  intros [H1 H2]. unfold int_add.
  apply Z.leb_le in H1, H2. now rewrite H1, H2.
Qed.

Lemma buffer_write_stored buf off data buf' w :
  store buf off data = Some buf' -> buffer_write buf off data w = (Returned buf', w).
Proof. intros H. unfold buffer_write. now rewrite H. Qed.

(** The update of a fresh context. *)
Lemma cipher_update_fresh (enc : bool) c key iv input inl :
  0 <= inl ->
  let data := firstn (Z.to_nat inl) input in
  let whole := whole_length (length data) in
  let r := (if enc then cbc_encrypt else cbc_decrypt) c
             (firstn AES_KEY_LENGTH key) (firstn AES_BLOCK_SIZE iv)
             (blocks_of (firstn whole data)) in
  cipher_update
    {| ctx_cipher := c; ctx_encrypt := enc;
       ctx_key := firstn AES_KEY_LENGTH key; ctx_iv := firstn AES_BLOCK_SIZE iv;
       ctx_buf := []; ctx_final := []; ctx_final_used := false |} input inl
  = (1, fst r,
     {| ctx_cipher := c; ctx_encrypt := enc;
        ctx_key := firstn AES_KEY_LENGTH key; ctx_iv := snd r;
        ctx_buf := skipn whole data; ctx_final := []; ctx_final_used := false |}).
Proof.
  intros H data whole r. unfold cipher_update.
  destruct (inl <? 0) eqn:E; [apply Z.ltb_lt in E; lia|].
  destruct (inl =? 0) eqn:E0.
  - apply Z.eqb_eq in E0. subst inl. subst r whole data.
    cbn [Z.to_nat firstn length whole_length]. 
    destruct enc; reflexivity.
  - reflexivity.
Qed.

(** The pack of an IV and a cipher text. *)
Lemma pack_spec iv ciphertext w :
  (AES_BLOCK_SIZE <= length iv)%nat ->
  pack iv ciphertext w = (Returned (firstn AES_BLOCK_SIZE iv ++ ciphertext), w).
Proof.
  intros H. unfold pack.
  assert (Hl : length (firstn AES_BLOCK_SIZE iv) = AES_BLOCK_SIZE)
    by (rewrite List.length_firstn; lia).
  destruct (two_writes (AES_BLOCK_SIZE + length ciphertext)
              (firstn AES_BLOCK_SIZE iv) ciphertext) as (H1 & H2); [lia|].
  rewrite Hl in H1, H2.
  rewrite (bind_returned _ _ _ _ _ (buffer_write_stored _ _ _ _ w H1)).
  rewrite (bind_returned _ _ _ _ _ (buffer_write_stored _ _ _ _ w H2)).
  unfold ret. do 3 f_equal.
  replace (_ - _ - _)%nat with 0%nat by lia. apply List.app_nil_r.
Qed.

Ltac step_ret := rewrite (bind_returned (ret _) _ _ _ _ eq_refl).

Lemma resize_prefix a k : vector_resize (a ++ Bytes.zeros k) (length a) = a.
Proof.
  pose proof (resize_written a [] k) as H. cbn [app length] in H.
  rewrite Nat.add_0_r, List.app_nil_r in H. exact H.
Qed.

(** The length of the cipher text: the whole blocks and one more. *)
Lemma cbc_pkcs7_encrypt_length key iv data :
  (AES_BLOCK_SIZE <= length iv)%nat ->
  length (cbc_pkcs7_encrypt key iv data)
  = (whole_length (length data) + AES_BLOCK_SIZE)%nat.
Proof.
  intros Hiv. unfold cbc_pkcs7_encrypt, padded_blocks.
  set (whole := whole_length (length data)).
  pose proof (whole_length_le (length data)) as Hw. fold whole in Hw.
  pose proof (whole_length_rest (length data)) as Hrest. fold whole in Hrest.
  destruct (whole_length_blocks (length data)) as [k Hk]. fold whole in Hk.
  assert (Hwl : length (firstn whole data) = (AES_BLOCK_SIZE * k)%nat)
    by (rewrite List.length_firstn; lia).
  destruct (blocks_of_spec k _ Hwl) as (Hall & _ & Hlen).
  assert (Hpb : length (padded_block (skipn whole data)) = AES_BLOCK_SIZE)
    by (apply padded_block_length; rewrite List.length_skipn; lia).
  destruct (cbc_encrypt_length _ aes_256_cbc_good (firstn AES_KEY_LENGTH key)
              (blocks_of (firstn whole data) ++ [padded_block (skipn whole data)])
              (firstn AES_BLOCK_SIZE iv)) as [Ho _].
  - apply List.Forall_app. split; [exact Hall|]. repeat constructor. exact Hpb.
  - rewrite List.length_firstn. lia.
  - rewrite Ho, List.length_app, Hlen. cbn [length]. lia.
Qed.

(** Encryption up to the addition of the two output lengths. *)
Lemma encrypt_reaches_add P key iv w :
  let inl := to_int (Z.of_nat (length P)) in
  let data := firstn (Z.to_nat inl) P in
  let whole := whole_length (length data) in
  0 <= inl ->
  (AES_BLOCK_SIZE <= length iv)%nat ->
  encryptDataWithIV P key iv w
  = (len <- int_add (Z.of_nat whole) (Z.of_nat AES_BLOCK_SIZE) ;;
     pack iv (vector_resize
                (cbc_pkcs7_encrypt key iv data ++ Bytes.zeros (length P - whole))
                (Z.to_nat (to_size_t len)))) w.
Proof.
  intros inl data whole H0 Hiv.
  unfold cbc_pkcs7_encrypt, padded_blocks. fold whole.
  unfold encryptDataWithIV, EVP_EncryptInit_ex, EVP_EncryptUpdate, EVP_EncryptFinal_ex.
  step_ret. unfold cipher_init. cbv beta iota zeta.
  change (1 =? 1) with true. cbn [negb].
  step_ret. fold inl.
  rewrite (cipher_update_fresh true _ _ _ _ _ H0).
  cbv beta iota zeta. change (1 =? 1) with true.
  cbn [negb fst snd ctx_cipher ctx_key ctx_iv ctx_buf ctx_encrypt ctx_final ctx_final_used].
  fold data. fold whole.
  set (k0 := firstn AES_KEY_LENGTH key).
  set (iv0 := firstn AES_BLOCK_SIZE iv).
  set (r1 := cbc_encrypt EVP_aes_256_cbc k0 iv0 (blocks_of (firstn whole data))).
  set (pb := padded_block (skipn whole data)).
  set (r2 := cbc_encrypt EVP_aes_256_cbc k0 (snd r1) [pb]).
  assert (Hle : inl <= Z.of_nat (length P)) by (apply to_int_nonneg_le; lia).
  assert (Hdata : length data = Z.to_nat inl)
    by (unfold data; rewrite List.length_firstn; lia).
  pose proof (whole_length_le (length data)) as Hw. fold whole in Hw.
  pose proof (whole_length_rest (length data)) as Hrest. fold whole in Hrest.
  destruct (whole_length_blocks (length data)) as [k Hk]. fold whole in Hk.
  assert (Hwl : length (firstn whole data) = (AES_BLOCK_SIZE * k)%nat)
    by (rewrite List.length_firstn; lia).
  destruct (blocks_of_spec k _ Hwl) as (Hall & _ & Hlen).
  assert (Hiv0 : length iv0 = AES_BLOCK_SIZE)
    by (unfold iv0; rewrite List.length_firstn; lia).
  destruct (cbc_encrypt_length _ aes_256_cbc_good k0 _ iv0 Hall Hiv0) as [Ho1 Hi1].
  fold r1 in Ho1, Hi1. rewrite Hlen, <- Hk in Ho1.
  assert (Hpb : length pb = AES_BLOCK_SIZE)
    by (apply padded_block_length; rewrite List.length_skipn; lia).
  destruct (cbc_encrypt_length _ aes_256_cbc_good k0 [pb] (snd r1)) as [Ho2 _];
    [repeat constructor; exact Hpb|exact Hi1|].
  fold r2 in Ho2. cbn [length] in Ho2. rewrite Nat.mul_1_r in Ho2.
  destruct (two_writes (length P + AES_BLOCK_SIZE) (fst r1) (fst r2)) as [W1 W2];
    [unfold AES_BLOCK_SIZE in *; lia|].
  rewrite (bind_returned _ _ _ _ _ (buffer_write_stored _ _ _ _ w W1)).
  step_ret. cbv beta iota zeta. change (1 =? 1) with true. cbn [negb].
  rewrite Nat2Z.id.
  rewrite (bind_returned _ _ _ _ _ (buffer_write_stored _ _ _ _ w W2)).
  rewrite (cbc_encrypt_app EVP_aes_256_cbc). cbn [fst].
  fold r1. fold r2. rewrite Ho1, Ho2, <- List.app_assoc.
  replace (length P + AES_BLOCK_SIZE - whole - AES_BLOCK_SIZE)%nat
    with (length P - whole)%nat by lia.
  reflexivity.
Qed.

Lemma encrypt_spec P key iv w :
  let inl := to_int (Z.of_nat (length P)) in
  0 <= inl ->
  Z.of_nat (whole_length (Z.to_nat inl)) + 16 <= INT_MAX ->
  (AES_BLOCK_SIZE <= length iv)%nat ->
  encryptDataWithIV P key iv w
  = (Returned (firstn AES_BLOCK_SIZE iv
               ++ cbc_pkcs7_encrypt key iv (firstn (Z.to_nat inl) P)), w).
Proof.
  intros inl H0 Hmax Hiv.
  rewrite (encrypt_reaches_add P key iv w H0 Hiv). fold inl.
  assert (Hle : inl <= Z.of_nat (length P)) by (apply to_int_nonneg_le; lia).
  assert (Hdata : length (firstn (Z.to_nat inl) P) = Z.to_nat inl)
    by (rewrite List.length_firstn; lia).
  rewrite Hdata.
  set (whole := whole_length (Z.to_nat inl)) in *.
  assert (Hadd : INT_MIN <= Z.of_nat whole + Z.of_nat AES_BLOCK_SIZE <= INT_MAX)
    by (unfold INT_MIN, INT_MAX, AES_BLOCK_SIZE in *; lia).
  rewrite (bind_returned _ _ _ _ _ (int_add_fits _ _ w Hadd)).
  rewrite to_size_t_small by (unfold INT_MAX, AES_BLOCK_SIZE in *; lia).
  rewrite <- Nat2Z.inj_add, Nat2Z.id.
  pose proof (cbc_pkcs7_encrypt_length key iv (firstn (Z.to_nat inl) P) Hiv) as Hct.
  rewrite Hdata in Hct. fold whole in Hct.
  rewrite <- Hct, resize_prefix.
  apply pack_spec. exact Hiv.
Qed.

(** The addition [ciphertext_len += len] overflows for a plaintext of
    2^31 - 16 bytes or more whose length still converts to a non-negative
    [int]. *)
Lemma encrypt_overflow P key iv w :
  let inl := to_int (Z.of_nat (length P)) in
  0 <= inl ->
  INT_MAX < Z.of_nat (whole_length (Z.to_nat inl)) + 16 ->
  (AES_BLOCK_SIZE <= length iv)%nat ->
  encryptDataWithIV P key iv w = (Undefined, w).
Proof.
  intros inl H0 Hmax Hiv.
  rewrite (encrypt_reaches_add P key iv w H0 Hiv). fold inl.
  assert (Hle : inl <= Z.of_nat (length P)) by (apply to_int_nonneg_le; lia).
  assert (Hdata : length (firstn (Z.to_nat inl) P) = Z.to_nat inl)
    by (rewrite List.length_firstn; lia).
  rewrite Hdata. unfold bind, int_add.
  replace (_ + _ <=? INT_MAX) with false
    by (symmetry; apply Z.leb_gt; unfold AES_BLOCK_SIZE; lia).
  now rewrite andb_false_r.
Qed.

(** A length that converts to a negative [int] is refused by
    [EVP_EncryptUpdate]; [handleErrors] prints the error queue and aborts. *)
Lemma encrypt_negative P key iv w :
  to_int (Z.of_nat (length P)) < 0 ->
  encryptDataWithIV P key iv w
  = (Aborted, set_err_queue [] (set_cerr (cerr w ++ map OpenSSLError (err_queue w)) w)).
Proof.
  intros H.
  unfold encryptDataWithIV, EVP_EncryptInit_ex, EVP_EncryptUpdate.
  step_ret. unfold cipher_init. cbv beta iota zeta.
  change (1 =? 1) with true. cbn [negb].
  step_ret. unfold cipher_update.
  apply Z.ltb_lt in H. rewrite H. reflexivity.
Qed.

(** *** Decryption *)

Lemma print_iv_spec label iv w :
  print_iv label iv w = (Returned tt, printed_iv label iv w).
Proof.
  unfold print_iv, bind, cout_put, printed_iv, set_cout.
  cbn [files writable cout cerr err_queue RAND posixly_correct]. reflexivity.
Qed.

Lemma firstn_add {A} (a b : nat) : forall l : list A,
  firstn (a + b) l = firstn a l ++ firstn b (skipn a l).
Proof.
  induction a as [|a IH]; intros l; [reflexivity|].
  destruct l as [|x l]; [cbn [skipn]; now rewrite !List.firstn_nil|].
  cbn [Nat.add firstn skipn app]. now rewrite IH.
Qed.

(** A container shorter than the IV: the copy of line 125 reads past the
    end of the vector. *)
Lemma decrypt_short ct key w :
  (length ct < AES_BLOCK_SIZE)%nat -> decryptDataWithIV ct key w = (Undefined, w).
Proof.
  intros H. unfold decryptDataWithIV, unpack, vector_read.
  cbn [Nat.add]. apply Nat.leb_gt in H. rewrite H. reflexivity.
Qed.

Lemma unpack_spec data w :
  (AES_BLOCK_SIZE <= length data)%nat ->
  unpack data w = (Returned (firstn AES_BLOCK_SIZE data, skipn AES_BLOCK_SIZE data), w).
Proof.
  intros H. unfold unpack, vector_read. cbn [Nat.add].
  apply Nat.leb_le in H. rewrite H. reflexivity.
Qed.

(** Decryption of a container whose cipher text is a positive number of
    whole blocks. *)
Lemma decrypt_spec ct key w k :
  length ct = (AES_BLOCK_SIZE + AES_BLOCK_SIZE * S k)%nat ->
  Z.of_nat (length ct) - 16 <= INT_MAX ->
  decryptDataWithIV ct key w
  = match padding_length (final_block key ct) with
    | Some n =>
        (Returned (firstn (length ct - AES_BLOCK_SIZE - n) (cbc_decrypted key ct)),
         printed_iv "Extracted IV: " (firstn AES_BLOCK_SIZE ct) w)
    | None =>
        (Aborted,
         reported EVP_R_BAD_DECRYPT
           (printed_iv "Extracted IV: " (firstn AES_BLOCK_SIZE ct) w))
    end.
Proof.
  intros Hlen Hmax.
  unfold decryptDataWithIV, EVP_DecryptInit_ex, EVP_DecryptUpdate.
  rewrite (bind_returned _ _ _ _ _ (unpack_spec ct w ltac:(lia))).
  rewrite (bind_returned _ _ _ _ _ (print_iv_spec _ _ w)).
  set (w1 := printed_iv _ _ w).
  step_ret. unfold cipher_init. cbv beta iota zeta.
  change (1 =? 1) with true. cbn [negb].
  step_ret.
  set (body := skipn AES_BLOCK_SIZE ct).
  set (size := (AES_BLOCK_SIZE * S k)%nat).
  assert (Hbody : length body = size)
    by (unfold body; rewrite List.length_skipn; lia).
  replace (Z.of_nat (length ct) - Z.of_nat AES_BLOCK_SIZE) with (Z.of_nat size)
    by (unfold AES_BLOCK_SIZE in *; lia).
  assert (Hsz : 0 <= Z.of_nat size <= INT_MAX)
    by (unfold AES_BLOCK_SIZE, INT_MAX in *; lia).
  rewrite (to_size_t_small _ Hsz), (to_int_small _ Hsz), Nat2Z.id.
  unfold decrypt_update.
  replace (Z.of_nat size <? 0) with false by (symmetry; apply Z.ltb_ge; lia).
  replace (Z.of_nat size =? 0) with false
    by (symmetry; apply Z.eqb_neq; unfold size, AES_BLOCK_SIZE; lia).
  cbv beta iota zeta. cbn [ctx_final_used].
  rewrite (cipher_update_fresh false _ _ _ _ _ (proj1 Hsz)).
  cbv beta iota zeta.
  assert (Hws : whole_length size = size) by apply whole_length_mul.
  rewrite Nat2Z.id, !(List.firstn_all2 body (n:=size)) by lia.
  rewrite !Hbody, !Hws.
  rewrite !(List.firstn_all2 body (n:=size)), !(List.skipn_all2 body (n:=size)) by lia.
  rewrite !List.firstn_firstn, !Nat.min_id.
  cbn [ctx_buf fst snd app].
  unfold final_block. change (fst (cbc_decrypt EVP_aes_256_cbc
    (firstn AES_KEY_LENGTH key) (firstn AES_BLOCK_SIZE ct) (blocks_of body)))
    with (cbc_decrypted key ct).
  set (dec := cbc_decrypted key ct).
  destruct (blocks_of_spec (S k) body Hbody) as (Hall & _ & Hnb).
  assert (Hdec : length dec = size).
  { unfold dec, cbc_decrypted. fold body.
    rewrite (cbc_decrypt_length _ aes_256_cbc_good _ _ _ Hall), Hnb; [reflexivity|].
    rewrite List.length_firstn. lia. }
  cbv beta iota zeta. change (1 =? 1) with true.
  cbn [negb ctx_cipher ctx_key ctx_iv ctx_buf ctx_encrypt ctx_final ctx_final_used].
  set (keep := (length dec - AES_BLOCK_SIZE)%nat).
  assert (Hkeep : keep = (AES_BLOCK_SIZE * k)%nat)
    by (unfold keep; rewrite Hdec; unfold size, AES_BLOCK_SIZE; lia).
  assert (Hout : length (firstn keep dec) = keep)
    by (rewrite List.length_firstn; lia).
  assert (Hfin : length (skipn keep dec) = AES_BLOCK_SIZE)
    by (rewrite List.length_skipn; unfold size in *; lia).
  unfold EVP_DecryptFinal_ex. cbn [ctx_buf ctx_final ctx_final_used].
  destruct (padding_length (skipn keep dec)) as [n|] eqn:Epad.
  - pose proof (padding_length_bound _ _ Epad) as Hn.
    set (out2 := firstn (AES_BLOCK_SIZE - n) (skipn keep dec)).
    assert (Hout2 : length out2 = (AES_BLOCK_SIZE - n)%nat)
      by (unfold out2; rewrite List.length_firstn; lia).
    destruct (two_writes size (firstn keep dec) out2) as [W1 W2];
      [unfold size in *; lia|].
    rewrite (bind_returned _ _ _ _ _ (buffer_write_stored _ _ _ _ w1 W1)).
    step_ret. cbv beta iota zeta. change (1 =? 1) with true. cbn [negb].
    rewrite Nat2Z.id.
    rewrite (bind_returned _ _ _ _ _ (buffer_write_stored _ _ _ _ w1 W2)).
    assert (Hadd : INT_MIN <= Z.of_nat (length (firstn keep dec))
                              + Z.of_nat (length out2) <= INT_MAX)
      by (unfold INT_MIN, INT_MAX, size, AES_BLOCK_SIZE in *; lia).
    rewrite (bind_returned _ _ _ _ _ (int_add_fits _ _ w1 Hadd)).
    rewrite to_size_t_small by (unfold INT_MAX, size, AES_BLOCK_SIZE in *; lia).
    rewrite <- Nat2Z.inj_add, Nat2Z.id, resize_written.
    unfold ret. do 2 f_equal. unfold out2.
    rewrite <- firstn_add. f_equal. unfold keep, size, AES_BLOCK_SIZE in *. lia.
  - destruct (two_writes size (firstn keep dec) []) as [W1 _];
      [cbn [length]; unfold size in *; lia|].
    rewrite (bind_returned _ _ _ _ _ (buffer_write_stored _ _ _ _ w1 W1)).
    unfold bind, ERR_put_error, ret, handleErrors, ERR_print_errors_fp, abort, reported.
    cbv beta iota zeta. change (0 =? 1) with false. cbn [negb].
    unfold set_err_queue, set_cerr.
    cbn [files writable cout cerr err_queue RAND posixly_correct].
    reflexivity.
Qed.

(** Decryption of a container whose cipher text is empty or not a whole
    number of blocks: [EVP_DecryptFinal_ex] finds no block held back, or
    bytes left in the buffer. *)
Lemma decrypt_misaligned ct key w :
  (AES_BLOCK_SIZE <= length ct)%nat ->
  Z.of_nat (length ct) - 16 <= INT_MAX ->
  (length ct = AES_BLOCK_SIZE \/ (length ct mod AES_BLOCK_SIZE <> 0)%nat) ->
  decryptDataWithIV ct key w
  = (Aborted,
     reported EVP_R_WRONG_FINAL_BLOCK_LENGTH
       (printed_iv "Extracted IV: " (firstn AES_BLOCK_SIZE ct) w)).
Proof.
  intros Hlen Hmax Hmis.
  unfold decryptDataWithIV, EVP_DecryptInit_ex, EVP_DecryptUpdate.
  rewrite (bind_returned _ _ _ _ _ (unpack_spec ct w Hlen)).
  rewrite (bind_returned _ _ _ _ _ (print_iv_spec _ _ w)).
  set (w1 := printed_iv _ _ w).
  step_ret. unfold cipher_init. cbv beta iota zeta.
  change (1 =? 1) with true. cbn [negb].
  step_ret.
  set (body := skipn AES_BLOCK_SIZE ct).
  set (size := (length ct - AES_BLOCK_SIZE)%nat).
  assert (Hbody : length body = size) by (unfold body; apply List.length_skipn).
  replace (Z.of_nat (length ct) - Z.of_nat AES_BLOCK_SIZE) with (Z.of_nat size)
    by (unfold size, AES_BLOCK_SIZE in *; lia).
  assert (Hsz : 0 <= Z.of_nat size <= INT_MAX)
    by (unfold size, AES_BLOCK_SIZE, INT_MAX in *; lia).
  rewrite (to_size_t_small _ Hsz), (to_int_small _ Hsz), Nat2Z.id.
  assert (Hfinal : forall out ctx,
             ctx_buf ctx <> [] \/ ctx_final_used ctx = false ->
             (length out <= size)%nat ->
             (plaintext <- buffer_write (zeros size) 0 out ;;
              r <- EVP_DecryptFinal_ex ctx ;;
              let '(ok, out0, _) := r in
              if negb (ok =? 1) then handleErrors else
              plaintext0 <- buffer_write plaintext (Z.to_nat (Z.of_nat (length out))) out0 ;;
              plaintext_len <- int_add (Z.of_nat (length out)) (Z.of_nat (length out0)) ;;
              ret (vector_resize plaintext0 (Z.to_nat (to_size_t plaintext_len)))) w1
             = (Aborted, reported EVP_R_WRONG_FINAL_BLOCK_LENGTH w1)).
  { intros out ctx Hctx Hout.
    destruct (two_writes size out []) as [W1 _]; [cbn [length]; lia|].
    rewrite (bind_returned _ _ _ _ _ (buffer_write_stored _ _ _ _ w1 W1)).
    unfold EVP_DecryptFinal_ex.
    assert (E : match ctx_buf ctx, ctx_final_used ctx with
                | [], true =>
                    match padding_length (ctx_final ctx) with
                    | Some n => ret (1, firstn (AES_BLOCK_SIZE - n) (ctx_final ctx), ctx)
                    | None => ERR_put_error EVP_R_BAD_DECRYPT ;; ret (0, [], ctx)
                    end
                | _, _ => ERR_put_error EVP_R_WRONG_FINAL_BLOCK_LENGTH ;; ret (0, [], ctx)
                end
                = (ERR_put_error EVP_R_WRONG_FINAL_BLOCK_LENGTH ;; ret (0, [], ctx))).
    { destruct (ctx_buf ctx), (ctx_final_used ctx); try reflexivity.
      destruct Hctx as [Hc|Hc]; [now contradiction Hc|discriminate Hc]. }
    rewrite E.
    unfold bind, ERR_put_error, ret, handleErrors, ERR_print_errors_fp, abort, reported.
    cbv beta iota zeta. change (0 =? 1) with false. cbn [negb].
    unfold set_err_queue, set_cerr.
    cbn [files writable cout cerr err_queue RAND posixly_correct].
    reflexivity. }
  unfold decrypt_update.
  destruct (Z.of_nat size =? 0) eqn:E0.
  - replace (Z.of_nat size <? 0) with false by (symmetry; apply Z.ltb_ge; lia).
    cbv beta iota zeta. change (1 =? 1) with true. cbn [negb].
    apply (Hfinal [] _); [right; reflexivity|cbn [length]; lia].
  - apply Z.eqb_neq in E0.
    replace (Z.of_nat size <? 0) with false by (symmetry; apply Z.ltb_ge; lia).
    cbv beta iota zeta. cbn [ctx_final_used].
    rewrite (cipher_update_fresh false _ _ _ _ _ (proj1 Hsz)).
    cbv beta iota zeta.
    rewrite Nat2Z.id, !(List.firstn_all2 body (n:=size)) by lia.
    rewrite !Hbody. cbn [ctx_buf fst snd].
    set (whole := whole_length size).
    pose proof (whole_length_le size) as Hw. fold whole in Hw.
    destruct (whole_length_blocks size) as [k Hk]. fold whole in Hk.
    assert (Hlt : (whole < size)%nat).
    { destruct Hmis as [Hm|Hm]; [unfold size in E0; lia|].
      assert (size mod AES_BLOCK_SIZE <> 0)%nat.
      { unfold size. intros Hz. apply Hm.
        replace (length ct) with (length ct - AES_BLOCK_SIZE + 1 * AES_BLOCK_SIZE)%nat by lia.
        now rewrite Nat.Div0.mod_add. }
      unfold whole, whole_length in *.
      pose proof (Nat.div_mod_eq size AES_BLOCK_SIZE). lia. }
    assert (Hwl : length (firstn whole body) = (AES_BLOCK_SIZE * k)%nat)
      by (rewrite List.length_firstn; lia).
    destruct (blocks_of_spec k _ Hwl) as (Hall & _ & Hnb).
    assert (Hout : length (fst (cbc_decrypt EVP_aes_256_cbc (firstn AES_KEY_LENGTH key)
                     (firstn AES_BLOCK_SIZE (firstn AES_BLOCK_SIZE ct))
                     (blocks_of (firstn whole body)))) = whole).
    { rewrite (cbc_decrypt_length _ aes_256_cbc_good _ _ _ Hall), Hnb; [lia|].
      rewrite List.firstn_firstn, List.length_firstn. lia. }
    destruct (skipn whole body) as [|b rest] eqn:Eb.
    { apply (f_equal (@length byte)) in Eb. rewrite List.length_skipn in Eb.
      cbn [length] in Eb. lia. }
    cbv beta iota zeta. change (1 =? 1) with true. cbn [negb app].
    apply Hfinal; [left; cbn [ctx_buf]; discriminate|lia].
Qed.

End ProgramFacts.

Module RoundTripFacts.
Import Bytes BytesFacts EVPFacts ProgramFacts.

Lemma concat_padded_blocks data :
  concat (padded_blocks data)
  = firstn (whole_length (length data)) data
      ++ padded_block (skipn (whole_length (length data)) data).
Proof.
  unfold padded_blocks.
  set (whole := whole_length (length data)).
  pose proof (whole_length_le (length data)) as Hw. fold whole in Hw.
  destruct (whole_length_blocks (length data)) as [k Hk]. fold whole in Hk.
  assert (Hwl : length (firstn whole data) = (AES_BLOCK_SIZE * k)%nat)
    by (rewrite List.length_firstn; lia).
  destruct (blocks_of_spec k _ Hwl) as (_ & Hcat & _).
  rewrite List.concat_app, Hcat. cbn [concat]. now rewrite List.app_nil_r.
Qed.

Lemma padded_blocks_all data : all_blocks (padded_blocks data).
Proof.
  unfold padded_blocks, all_blocks.
  set (whole := whole_length (length data)).
  pose proof (whole_length_le (length data)) as Hw. fold whole in Hw.
  pose proof (whole_length_rest (length data)) as Hrest. fold whole in Hrest.
  destruct (whole_length_blocks (length data)) as [k Hk]. fold whole in Hk.
  assert (Hwl : length (firstn whole data) = (AES_BLOCK_SIZE * k)%nat)
    by (rewrite List.length_firstn; lia).
  destruct (blocks_of_spec k _ Hwl) as (Hall & _ & _).
  apply List.Forall_app. split; [exact Hall|]. repeat constructor.
  apply padded_block_length. rewrite List.length_skipn. lia.
Qed.

(** What the container of [data] decrypts to: [data] and its padding. *)
Lemma decrypted_container key iv data :
  length iv = AES_BLOCK_SIZE ->
  cbc_decrypted key (iv ++ cbc_pkcs7_encrypt key iv data)
  = firstn (whole_length (length data)) data
      ++ padded_block (skipn (whole_length (length data)) data).
Proof.
  intros Hiv. unfold cbc_decrypted, cbc_pkcs7_encrypt.
  rewrite (take_app_length' iv _ _ (eq_sym Hiv)), (drop_app_length' iv _ _ (eq_sym Hiv)).
  rewrite <- Hiv at 1. rewrite List.firstn_all.
  rewrite (cbc_decrypt_encrypt _ aes_256_cbc_good _ _ _ (padded_blocks_all data) Hiv).
  apply concat_padded_blocks.
Qed.

(** Decryption of the container of [data] under the same key returns
    [data], provided the length of the container fits an [int]. *)
Lemma decrypt_container key iv data w :
  length iv = AES_BLOCK_SIZE ->
  Z.of_nat (whole_length (length data)) + 16 <= INT_MAX ->
  decryptDataWithIV (iv ++ cbc_pkcs7_encrypt key iv data) key w
  = (Returned data, printed_iv "Extracted IV: " iv w).
Proof.
  intros Hiv Hmax.
  set (whole := whole_length (length data)) in *.
  pose proof (whole_length_le (length data)) as Hw. fold whole in Hw.
  pose proof (whole_length_rest (length data)) as Hrest. fold whole in Hrest.
  destruct (whole_length_blocks (length data)) as [k Hk]. fold whole in Hk.
  pose proof (cbc_pkcs7_encrypt_length key iv data ltac:(lia)) as Hct. fold whole in Hct.
  assert (Hlen : length (iv ++ cbc_pkcs7_encrypt key iv data)
                 = (AES_BLOCK_SIZE + AES_BLOCK_SIZE * S k)%nat)
    by (rewrite List.length_app, Hct, Hiv; lia).
  rewrite (decrypt_spec _ key w k Hlen)
    by (rewrite Hlen; unfold AES_BLOCK_SIZE, INT_MAX in *; lia).
  unfold final_block.
  rewrite (decrypted_container key iv data Hiv). fold whole.
  assert (Hwl : length (firstn whole data) = whole)
    by (rewrite List.length_firstn; lia).
  assert (Hr : (length (skipn whole data) < AES_BLOCK_SIZE)%nat)
    by (rewrite List.length_skipn; lia).
  rewrite List.length_app, Hwl, (padded_block_length _ Hr).
  replace (whole + AES_BLOCK_SIZE - AES_BLOCK_SIZE)%nat with whole by lia.
  rewrite <- Hwl at 1. rewrite (drop_app_length (firstn whole data)).
  rewrite (padding_length_padded _ Hr).
  rewrite (take_app_length' iv _ _ (eq_sym Hiv)).
  do 2 f_equal.
  rewrite Hlen, List.length_skipn.
  replace (AES_BLOCK_SIZE + AES_BLOCK_SIZE * S k - AES_BLOCK_SIZE
           - (AES_BLOCK_SIZE - (length data - whole)))%nat
    with (whole + (length data - whole))%nat by lia.
  rewrite firstn_add.
  rewrite <- Hwl at 1. rewrite (take_app_length (firstn whole data)).
  rewrite (drop_app_length' (firstn whole data) _ whole (eq_sym Hwl)).
  unfold padded_block.
  rewrite (take_app_length' (skipn whole data) _ _
             (eq_sym (List.length_skipn whole data))).
  apply List.firstn_skipn.
Qed.

(** Encryption then decryption returns the bytes that the [int] length
    passed to [EVP_EncryptUpdate] covers. *)
Lemma roundtrip_spec P key iv w :
  let inl := to_int (Z.of_nat (length P)) in
  0 <= inl ->
  Z.of_nat (whole_length (Z.to_nat inl)) + 16 <= INT_MAX ->
  length iv = AES_BLOCK_SIZE ->
  roundtrip P key iv w
  = (Returned (firstn (Z.to_nat inl) P), printed_iv "Extracted IV: " iv w).
Proof.
  intros inl H0 Hmax Hiv. unfold roundtrip.
  rewrite (bind_returned _ _ _ _ _ (encrypt_spec P key iv w H0 Hmax ltac:(lia))).
  fold inl. rewrite <- Hiv at 1. rewrite List.firstn_all.
  apply decrypt_container; [exact Hiv|].
  assert (Hle : inl <= Z.of_nat (length P)) by (apply to_int_nonneg_le; lia).
  rewrite List.length_firstn.
  replace (Init.Nat.min (Z.to_nat inl) (length P)) with (Z.to_nat inl) by lia.
  exact Hmax.
Qed.

Lemma whole_length_bound n :
  Z.of_nat n < 2 ^ 31 - 16 -> Z.of_nat (whole_length n) + 16 <= INT_MAX.
Proof.
  intros H. pose proof (whole_length_le n). unfold INT_MAX. lia.
Qed.

End RoundTripFacts.

Module KeyFacts.
Import Bytes BytesFacts ProgramFacts.

Lemma hash_length msg : length (SHA1.hash msg) = SHA1.digest_length.
Proof. reflexivity. Qed.

Lemma hmac_length key msg : length (HMAC.hmac_sha1 key msg) = SHA1.digest_length.
Proof. apply hash_length. Qed.

Section PRF.
Variable prf : list byte -> list byte.
Variable hLen : nat.
Hypothesis prf_length : forall m, length (prf m) = hLen.

Lemma step_lengths ua :
  length (fst ua) = hLen /\ length (snd ua) = hLen ->
  length (fst (PBKDF2.step prf ua)) = hLen
  /\ length (snd (PBKDF2.step prf ua)) = hLen.
Proof.
  intros [H1 H2]. unfold PBKDF2.step. cbn [fst snd].
  rewrite xor_list_length, prf_length, H2. lia.
Qed.

Lemma F_length salt c i : length (PBKDF2.F prf salt c i) = hLen.
Proof.
  unfold PBKDF2.F.
  set (u1 := prf _).
  assert (H : length (fst (u1, u1)) = hLen /\ length (snd (u1, u1)) = hLen)
    by (cbn [fst snd]; split; apply prf_length).
  revert H. generalize (u1, u1). intros ua H.
  destruct (c - 1) as [|p|p]; cbn [Z.iter]; try apply H.
  apply (Pos.iter_invariant p _ (PBKDF2.step prf)
           (fun ua => length (fst ua) = hLen /\ length (snd ua) = hLen));
    [intros x Hx; now apply step_lengths|exact H].
Qed.
End PRF.

Lemma derived_key_length pw : length (derived_key pw) = AES_KEY_LENGTH.
Proof.
  unfold derived_key, PBKDF2.derive.
  change ((AES_KEY_LENGTH + SHA1.digest_length - 1) / SHA1.digest_length)%nat
    with 2%nat.
  cbn [seq map concat].
  rewrite List.length_firstn, !List.length_app.
  rewrite !(F_length _ _ (hmac_length _)). reflexivity.
Qed.

Lemma c_str_prefix pw :
  firstn (String.length pw) (c_str pw) = of_string pw.
Proof.
  unfold c_str. apply take_app_length'. symmetry. apply of_string_length.
Qed.

(** [generateKeyFromPassword] for a password whose length fits an [int]. *)
Lemma generateKey_spec pw w :
  Z.of_nat (String.length pw) <= INT_MAX ->
  generateKeyFromPassword pw w = (Returned (derived_key pw), w).
Proof.
  intros H. unfold generateKeyFromPassword, PKCS5_PBKDF2_HMAC_SHA1.
  rewrite to_int_small by lia.
  replace (Z.of_nat (String.length pw) =? -1) with false
    by (symmetry; apply Z.eqb_neq; lia).
  replace (Z.of_nat (String.length pw) <? 0) with false
    by (symmetry; apply Z.ltb_ge; lia).
  cbn [fst snd]. change (1 =? 1) with true. cbn [negb].
  rewrite Nat2Z.id, c_str_prefix.
  change (firstn (Z.to_nat 8) salt) with salt.
  unfold derived_key. reflexivity.
Qed.

(** The outcome of the derivation does not depend on the world. *)
Lemma generateKey_outcome pw w1 w2 :
  fst (generateKeyFromPassword pw w1) = fst (generateKeyFromPassword pw w2).
Proof.
  unfold generateKeyFromPassword.
  destruct (negb (fst (PKCS5_PBKDF2_HMAC_SHA1 _ _ _ _ _ _) =? 1)); reflexivity.
Qed.

(** Two keys with the same key block give the same HMAC, hence the same
    derived key. *)
Lemma same_key_block pw1 pw2 :
  HMAC.key_block (of_string pw1) = HMAC.key_block (of_string pw2) ->
  derived_key pw1 = derived_key pw2.
Proof.
  intros H. unfold derived_key, HMAC.hmac_sha1. now rewrite H.
Qed.

Lemma colliding_key_blocks :
  HMAC.key_block (of_string long_password) = HMAC.key_block (of_string short_password).
Proof. vm_compute. reflexivity. Qed.

End KeyFacts.

(** ** Test vectors of the standards *)

Module Vectors.
Import Bytes.

(** SHA-1 of "abc" (FIPS 180-4, the one-block example). *)
Example sha1_abc :
  map Bytes.to_Z
    (SHA1.hash (Bytes.of_string "abc"))
  = [0xa9; 0x99; 0x3e; 0x36; 0x47; 0x06; 0x81; 0x6a; 0xba; 0x3e; 0x25; 0x71;
     0x78; 0x50; 0xc2; 0x6c; 0x9c; 0xd0; 0xd8; 0x9d].
Proof. vm_compute. reflexivity. Qed.

(** SHA-1 of the 56-byte message of FIPS 180-4 (two blocks). *)
Example sha1_two_blocks :
  map Bytes.to_Z
    (SHA1.hash (Bytes.of_string "abcdbcdecdefdefgefghfghighijhijkijkljklmklmnlmnomnopnopq"))
  = [0x84; 0x98; 0x3e; 0x44; 0x1c; 0x3b; 0xd2; 0x6e; 0xba; 0xae; 0x4a; 0xa1;
     0xf9; 0x51; 0x29; 0xe5; 0xe5; 0x46; 0x70; 0xf1].
Proof. vm_compute. reflexivity. Qed.

(** HMAC-SHA1, test case 2 of RFC 2202. *)
Example hmac_sha1_jefe :
  map Bytes.to_Z
    (HMAC.hmac_sha1 (Bytes.of_string "Jefe")
       (Bytes.of_string "what do ya want for nothing?"))
  = [0xef; 0xfc; 0xdf; 0x6a; 0xe5; 0xeb; 0x2f; 0xa2; 0xd2; 0x74; 0x16; 0xd5;
     0xf1; 0x84; 0xdf; 0x9c; 0x25; 0x9a; 0x7c; 0x79].
Proof. vm_compute. reflexivity. Qed.

(** PBKDF2-HMAC-SHA1 of "password" with the salt "salt", 1 iteration, 20 bytes
    (RFC 6070). *)
Example pbkdf2_password_salt_1 :
  map Bytes.to_Z
    (PBKDF2.derive (HMAC.hmac_sha1 (Bytes.of_string "password")) SHA1.digest_length
       (Bytes.of_string "salt") 1 20)
  = [0x0c; 0x60; 0xc8; 0x0f; 0x96; 0x1f; 0x0e; 0x71; 0xf3; 0xa9; 0xb5; 0x24;
     0xaf; 0x60; 0x12; 0x06; 0x2f; 0xe0; 0x37; 0xa6].
Proof. vm_compute. reflexivity. Qed.

(** PBKDF2-HMAC-SHA1 of "password" with the salt "salt", 2 iterations, 20
    bytes (RFC 6070). *)
Example pbkdf2_password_salt_2 :
  map Bytes.to_Z
    (PBKDF2.derive (HMAC.hmac_sha1 (Bytes.of_string "password")) SHA1.digest_length
       (Bytes.of_string "salt") 2 20)
  = [0xea; 0x6c; 0x01; 0x4d; 0xc7; 0x2d; 0x6f; 0x8c; 0xcd; 0x1e; 0xd9; 0x2a;
     0xce; 0x1d; 0x41; 0xf0; 0xd8; 0xde; 0x89; 0x57].
Proof. vm_compute. reflexivity. Qed.

(** PBKDF2-HMAC-SHA1 deriving 32 bytes, more than one digest: the salt of the
    program, 3 iterations. *)
Example pbkdf2_two_blocks :
  map Bytes.to_Z
    (PBKDF2.derive (HMAC.hmac_sha1 (Bytes.of_string "secret")) SHA1.digest_length
       salt 3 AES_KEY_LENGTH)
  = [0x17; 0x2e; 0xb7; 0x22; 0x76; 0x66; 0x10; 0xcb; 0x5c; 0x58; 0xbb; 0x0a;
     0x46; 0xd5; 0x53; 0x3d; 0xfe; 0x53; 0xff; 0x59; 0x00; 0x83; 0xfd; 0x13;
     0x62; 0xb5; 0x5e; 0xd8; 0xbe; 0x28; 0x18; 0x83].
Proof. vm_compute. reflexivity. Qed.

(** AES-256, the example of FIPS 197, appendix C.3: the key is the bytes
    0x00 .. 0x1f. *)
Example aes_256_fips197 :
  map Bytes.to_Z
    (AES.cipher (map (fun n => Bytes.of_Z (Z.of_nat n)) (seq 0 32))
       (map Bytes.of_Z
          [0x00; 0x11; 0x22; 0x33; 0x44; 0x55; 0x66; 0x77; 0x88; 0x99; 0xaa; 0xbb;
           0xcc; 0xdd; 0xee; 0xff]))
  = [0x8e; 0xa2; 0xb7; 0xca; 0x51; 0x67; 0x45; 0xbf; 0xea; 0xfc; 0x49; 0x90;
     0x4b; 0x49; 0x60; 0x89].
Proof. vm_compute. reflexivity. Qed.

Example aes_256_fips197_inverse :
  map Bytes.to_Z
    (AES.inv_cipher (map (fun n => Bytes.of_Z (Z.of_nat n)) (seq 0 32))
       (map Bytes.of_Z
          [0x8e; 0xa2; 0xb7; 0xca; 0x51; 0x67; 0x45; 0xbf; 0xea; 0xfc; 0x49; 0x90;
           0x4b; 0x49; 0x60; 0x89]))
  = [0x00; 0x11; 0x22; 0x33; 0x44; 0x55; 0x66; 0x77; 0x88; 0x99; 0xaa; 0xbb;
     0xcc; 0xdd; 0xee; 0xff].
Proof. vm_compute. reflexivity. Qed.

End Vectors.

Module FrameFacts.
Import Bytes BytesFacts ProgramFacts.

Section Frame.
Context {X : Type} (obs : world -> X).
Hypothesis obs_cerr : forall l w, obs (set_cerr l w) = obs w.
Hypothesis obs_queue : forall q w, obs (set_err_queue q w) = obs w.

Lemma preserves_ret {A} (a : A) : preserves obs (ret a).
Proof. intros w. reflexivity. Qed.

Lemma preserves_exit {A} s : preserves obs (@exit A s).
Proof. intros w. reflexivity. Qed.

Lemma preserves_abort {A} : preserves obs (@abort A).
Proof. intros w. reflexivity. Qed.

Lemma preserves_undefined {A} : preserves obs (@undefined A).
Proof. intros w. reflexivity. Qed.

Lemma preserves_bind {A B} (m : M A) (k : A -> M B) :
  preserves obs m -> (forall a, preserves obs (k a)) -> preserves obs (bind m k).
Proof.
  intros Hm Hk w. unfold bind. specialize (Hm w).
  destruct (m w) as [[a| | |] w']; cbn [snd] in *; try exact Hm.
  now rewrite Hk.
Qed.

Lemma preserves_cerr_put s : preserves obs (cerr_put s).
Proof. intros w. apply obs_cerr. Qed.

Lemma preserves_put_error e : preserves obs (ERR_put_error e).
Proof. intros w. apply obs_queue. Qed.

Lemma preserves_print_errors : preserves obs ERR_print_errors_fp.
Proof. intros w. unfold ERR_print_errors_fp. cbn [snd]. now rewrite obs_queue, obs_cerr. Qed.

Lemma preserves_handleErrors {A} : preserves obs (@handleErrors A).
Proof.
  unfold handleErrors. apply preserves_bind;
    [apply preserves_print_errors|intros; apply preserves_abort].
Qed.

Lemma preserves_buffer_write buf off data : preserves obs (buffer_write buf off data).
Proof. intros w. unfold buffer_write. now destruct (store buf off data). Qed.

Lemma preserves_vector_read v off n : preserves obs (vector_read v off n).
Proof. intros w. unfold vector_read. now destruct (_ <=? _)%nat. Qed.

Lemma preserves_int_add a b : preserves obs (int_add a b).
Proof. intros w. unfold int_add. now destruct (_ && _). Qed.

Lemma preserves_RAND_bytes n : preserves obs (RAND_bytes n).
Proof. intros w. reflexivity. Qed.

Lemma preserves_DecryptFinal ctx : preserves obs (EVP_DecryptFinal_ex ctx).
Proof.
  unfold EVP_DecryptFinal_ex.
  destruct (ctx_buf ctx), (ctx_final_used ctx);
    try destruct (padding_length _);
    first [apply preserves_ret
          |apply preserves_bind; [apply preserves_put_error|intros; apply preserves_ret]].
Qed.

Lemma preserves_pack iv ct : preserves obs (pack iv ct).
Proof.
  unfold pack.
  repeat (apply preserves_bind; [apply preserves_buffer_write|intros ?]).
  apply preserves_ret.
Qed.

Lemma preserves_unpack data : preserves obs (unpack data).
Proof.
  unfold unpack. apply preserves_bind; [apply preserves_vector_read|intros ?].
  apply preserves_ret.
Qed.

Lemma preserves_generateKey pw : preserves obs (generateKeyFromPassword pw).
Proof.
  unfold generateKeyFromPassword.
  destruct (negb _); [apply preserves_handleErrors|apply preserves_ret].
Qed.

Lemma preserves_encrypt P key iv : preserves obs (encryptDataWithIV P key iv).
Proof.
  unfold encryptDataWithIV, EVP_EncryptInit_ex, EVP_EncryptUpdate, EVP_EncryptFinal_ex.
  apply preserves_bind; [apply preserves_ret|intros [ok ctx]].
  destruct (negb _); [apply preserves_handleErrors|].
  apply preserves_bind; [apply preserves_ret|intros [[ok1 out1] ctx1]].
  destruct (negb _); [apply preserves_handleErrors|].
  apply preserves_bind; [apply preserves_buffer_write|intros buf1].
  apply preserves_bind; [apply preserves_ret|intros [[ok2 out2] ctx2]].
  destruct (negb _); [apply preserves_handleErrors|].
  apply preserves_bind; [apply preserves_buffer_write|intros buf2].
  apply preserves_bind; [apply preserves_int_add|intros len].
  apply preserves_pack.
Qed.

(** What [decryptDataWithIV] does after printing the IV. *)
Lemma preserves_decrypt_rest (ct key iv body : list byte) :
  preserves obs
    (r <- EVP_DecryptInit_ex EVP_CIPHER_CTX_new EVP_aes_256_cbc key iv ;;
     let '(ok, ctx) := r in
     if negb (ok =? 1) then handleErrors else
     let size := to_size_t (Z.of_nat (length ct) - Z.of_nat AES_BLOCK_SIZE) in
     let plaintext := Bytes.zeros (Z.to_nat size) in
     r <- EVP_DecryptUpdate ctx body (to_int size) ;;
     let '(ok, out, ctx) := r in
     if negb (ok =? 1) then handleErrors else
     plaintext <- buffer_write plaintext 0 out ;;
     let len := Z.of_nat (length out) in
     let plaintext_len := len in
     r <- EVP_DecryptFinal_ex ctx ;;
     let '(ok, out, ctx) := r in
     if negb (ok =? 1) then handleErrors else
     plaintext <- buffer_write plaintext (Z.to_nat len) out ;;
     plaintext_len <- int_add plaintext_len (Z.of_nat (length out)) ;;
     let plaintext := vector_resize plaintext (Z.to_nat (to_size_t plaintext_len)) in
     ret plaintext).
Proof.
  unfold EVP_DecryptInit_ex, EVP_DecryptUpdate.
  apply preserves_bind; [apply preserves_ret|intros [ok ctx]].
  destruct (negb _); [apply preserves_handleErrors|].
  cbv zeta.
  apply preserves_bind; [apply preserves_ret|intros [[ok1 out1] ctx1]].
  destruct (negb _); [apply preserves_handleErrors|].
  apply preserves_bind; [apply preserves_buffer_write|intros buf1].
  apply preserves_bind; [apply preserves_DecryptFinal|intros [[ok2 out2] ctx2]].
  destruct (negb _); [apply preserves_handleErrors|].
  apply preserves_bind; [apply preserves_buffer_write|intros buf2].
  apply preserves_bind; [apply preserves_int_add|intros len].
  apply preserves_ret.
Qed.

End Frame.

Section FrameOutput.
Context {X : Type} (obs : world -> X).
Hypothesis obs_cerr : forall l w, obs (set_cerr l w) = obs w.
Hypothesis obs_queue : forall q w, obs (set_err_queue q w) = obs w.
Hypothesis obs_cout : forall s w, obs (set_cout s w) = obs w.

Lemma preserves_cout_put s : preserves obs (cout_put s).
Proof. intros w. apply obs_cout. Qed.

Lemma preserves_print_iv label iv : preserves obs (print_iv label iv).
Proof.
  unfold print_iv.
  repeat (apply preserves_bind; [apply preserves_cout_put|intros ?]).
  apply preserves_cout_put.
Qed.

Lemma preserves_readFile name : preserves obs (readFile name).
Proof.
  intros w. unfold readFile. destruct (files w !! name); [reflexivity|].
  cbn. apply obs_cerr.
Qed.

Lemma preserves_decrypt ct key : preserves obs (decryptDataWithIV ct key).
Proof.
  unfold decryptDataWithIV.
  apply preserves_bind; [apply preserves_unpack|intros [iv body]].
  apply preserves_bind; [apply preserves_print_iv|intros _].
  apply preserves_decrypt_rest; assumption.
Qed.

Lemma preserves_transform o : preserves obs (transform o).
Proof.
  unfold transform.
  apply preserves_bind; [apply preserves_generateKey; assumption|intros key].
  apply preserves_bind; [apply preserves_readFile|intros data].
  destruct (encrypt o).
  - apply preserves_bind; [apply preserves_RAND_bytes|intros [ok iv]].
    destruct (ok =? 0); [apply preserves_handleErrors; assumption|].
    apply preserves_bind; [apply preserves_print_iv|intros _].
    apply preserves_encrypt; assumption.
  - destruct (decrypt o); [apply preserves_decrypt|apply preserves_ret].
Qed.

End FrameOutput.

Lemma cout_cerr l w : cout (set_cerr l w) = cout w.
Proof. reflexivity. Qed.
Lemma cout_queue q w : cout (set_err_queue q w) = cout w.
Proof. reflexivity. Qed.

(** The transformation in memory leaves the file system as it was. *)
Lemma files_transform o : preserves files (transform o).
Proof. apply preserves_transform; reflexivity. Qed.

(** A run of [process] does not change which paths can be written. *)
Lemma writable_process o : preserves writable (process o).
Proof.
  unfold process.
  apply preserves_bind; [apply preserves_transform; reflexivity|intros data].
  apply preserves_bind.
  - intros w. unfold writeFile. destruct (writable w (outputFile o)); reflexivity.
  - intros _. apply preserves_bind; [intros w; reflexivity|intros _].
    apply preserves_ret.
Qed.

(** After the IV is printed, decryption writes nothing more to standard
    output. *)
Lemma decrypt_cout ct key w :
  (AES_BLOCK_SIZE <= length ct)%nat ->
  cout (snd (decryptDataWithIV ct key w))
  = cout (printed_iv "Extracted IV: " (firstn AES_BLOCK_SIZE ct) w).
Proof.
  intros H. unfold decryptDataWithIV.
  rewrite (bind_returned _ _ _ _ _ (unpack_spec ct w H)).
  rewrite (bind_returned _ _ _ _ _ (print_iv_spec _ _ w)).
  apply (preserves_decrypt_rest cout); [exact cout_cerr|exact cout_queue].
Qed.

End FrameFacts.

Module MainFacts.
Import Bytes BytesFacts ProgramFacts RoundTripFacts KeyFacts FrameFacts.

Lemma takes_argument_in os c b :
  takes_argument os c = Some b -> In c os /\ c <> ":"%char.
Proof.
  induction os as [|o os IH]; cbn [takes_argument]; [discriminate|].
  destruct (Ascii.eqb_spec o c) as [->|Hne]; cbn [andb].
  - destruct (Ascii.eqb_spec c ":") as [->|Hc]; cbn [negb].
    + intros H. destruct (IH H) as [_ Hc]. now contradiction Hc.
    + intros _. split; [now left|exact Hc].
  - intros H. destruct (IH H) as [Hin Hc]. split; [now right|exact Hc].
Qed.

Lemma takes_argument_known c b : takes_argument optstring c = Some b -> known c.
Proof.
  intros H. apply takes_argument_in in H. destruct H as [Hin Hc].
  unfold optstring in Hin. cbn [list_ascii_of_string In] in Hin. unfold known.
  intuition congruence.
Qed.

Lemma cluster_well_formed prog cs : forall next,
  well_formed (fst (getopt_cluster optstring prog cs next)).
Proof.
  unfold well_formed.
  induction cs as [|c cs IH]; intros next; cbn [getopt_cluster fst]; [constructor|].
  destruct (takes_argument optstring c) as [[|]|] eqn:E.
  - destruct cs, next; cbn [fst];
      (constructor; [first [exact I|eapply takes_argument_known; exact E]|constructor]).
  - cbn [fst]. constructor; [eapply takes_argument_known; exact E|apply IH].
  - cbn [fst]. constructor; [exact I|apply IH].
Qed.

Lemma scan_well_formed posix prog : forall n args,
  (length args <= n)%nat -> well_formed (getopt_scan posix optstring prog args).
Proof.
  unfold well_formed.
  induction n as [|n IH]; intros args Hn.
  - destruct args; [constructor|cbn [length] in Hn; lia].
  - destruct args as [|a rest]; [constructor|]. cbn [getopt_scan].
    cbn [length] in Hn.
    destruct (String.eqb a "--"); [constructor|].
    destruct (option_chars a) as [cs|].
    + destruct rest as [|b rest'].
      * apply cluster_well_formed.
      * apply List.Forall_app. split; [apply cluster_well_formed|].
        destruct (snd _); apply IH; cbn [length] in *; lia.
    + destruct posix; [constructor|]. apply IH. lia.
Qed.

Lemma returns_well_formed argv w : well_formed (getopt_returns argv w).
Proof. unfold getopt_returns. eapply scan_well_formed. reflexivity. Qed.

(** *** The option loop *)

Lemma last_argument_fold c rs : last_argument c rs = fold_left (assign c) rs EmptyString.
Proof. reflexivity. Qed.

Lemma given_cons c r rs : given c (r :: rs) = is_option c r || given c rs.
Proof. reflexivity. Qed.

(** Without an error return, the loop assigns each variable from the last
    occurrence of its flag. *)
Lemma option_loop_assigns rs : forall o,
  well_formed rs -> getopt_failed rs = false ->
  option_loop rs o
  = inl (Options (fold_left (assign "i") rs (inputFile o))
                 (fold_left (assign "o") rs (outputFile o))
                 (fold_left (assign "p") rs (password o))
                 (encrypt o || given "e" rs) (decrypt o || given "d" rs)).
Proof.
  unfold well_formed, getopt_failed.
  induction rs as [|r rs IH]; intros o Hwf Hok.
  - cbn. rewrite !orb_false_r. now destruct o.
  - apply List.Forall_cons_iff in Hwf. destruct Hwf as [Hr Hwf].
    cbn [existsb] in Hok. apply orb_false_iff in Hok. destruct Hok as [Hr' Hok].
    destruct r as [c a|d]; [|discriminate Hr'].
    cbn [option_loop fold_left]. rewrite !given_cons.
    destruct Hr as [-> | [-> | [-> | [-> | ->]]]]; cbn [switch_opt Ascii.eqb Bool.eqb];
      rewrite (IH _ Hwf Hok); cbn [inputFile outputFile password encrypt decrypt];
      cbn [assign is_option Ascii.eqb Bool.eqb orb];
      rewrite ?orb_true_r, ?orb_false_r; reflexivity.
Qed.

Lemma option_loop_accepts rs :
  well_formed rs -> getopt_failed rs = false ->
  option_loop rs no_options = inl (options_of rs).
Proof.
  intros Hwf Hok. rewrite (option_loop_assigns rs _ Hwf Hok). reflexivity.
Qed.

(** An error return ends the loop in the [default] case. *)
Lemma option_loop_fails rs : forall o,
  well_formed rs -> getopt_failed rs = true ->
  exists d, option_loop rs o = inr (Some d).
Proof.
  unfold well_formed, getopt_failed.
  induction rs as [|r rs IH]; intros o Hwf Hko; [discriminate|].
  apply List.Forall_cons_iff in Hwf. destruct Hwf as [Hr Hwf].
  destruct r as [c a|d]; [|exists d; reflexivity].
  cbn [existsb is_error orb] in Hko. cbn [option_loop].
  destruct Hr as [-> | [-> | [-> | [-> | ->]]]]; cbn [switch_opt Ascii.eqb Bool.eqb];
    apply IH; assumption.
Qed.

(** *** [main] *)

Lemma main_getopt_failed argv w :
  getopt_failed (getopt_returns argv w) = true ->
  exists d,
    main argv w
    = (Returned 1,
       set_cout (cout w ++ usage_text (hd EmptyString argv))
         (set_cerr (cerr w ++ [Message d]) w)).
Proof.
  intros H.
  destruct (option_loop_fails _ no_options (returns_well_formed argv w) H) as [d Hd].
  exists d. unfold main. rewrite Hd. reflexivity.
Qed.

Lemma main_refused argv w :
  getopt_failed (getopt_returns argv w) = false ->
  flags_refused (getopt_returns argv w) = true ->
  main argv w
  = (Returned 1, set_cout (cout w ++ usage_text (hd EmptyString argv)) w).
Proof.
  intros H1 H2. unfold main.
  rewrite (option_loop_accepts _ (returns_well_formed argv w) H1).
  unfold flags_refused in H2. rewrite H2. reflexivity.
Qed.

Lemma main_accepted argv w :
  getopt_failed (getopt_returns argv w) = false ->
  flags_refused (getopt_returns argv w) = false ->
  main argv w = process (options_of (getopt_returns argv w)) w.
Proof.
  intros H1 H2. unfold main.
  rewrite (option_loop_accepts _ (returns_well_formed argv w) H1).
  unfold flags_refused in H2. rewrite H2. reflexivity.
Qed.

(** *** [process]: the output file is written last *)

Lemma writeFile_spec name data w :
  writeFile name data w
  = if writable w name
    then (Returned tt, set_files (<[name := data]> (files w)) w)
    else (Exited 1, set_cerr (cerr w ++ [Message ("Cannot open file: " ++ name ++ endl)]) w).
Proof. unfold writeFile. destruct (writable w name); reflexivity. Qed.

Lemma process_written o w data w1 :
  transform o w = (Returned data, w1) ->
  process o w
  = if writable w1 (outputFile o)
    then (Returned 0,
          set_cout (cout w1 ++ completed o)
            (set_files (<[outputFile o := data]> (files w1)) w1))
    else (Exited 1,
          set_cerr (cerr w1 ++ [Message ("Cannot open file: " ++ outputFile o ++ endl)]) w1).
Proof.
  intros E. unfold process. rewrite (bind_returned _ _ _ _ _ E).
  unfold bind. rewrite writeFile_spec.
  destruct (writable w1 (outputFile o)); reflexivity.
Qed.

Lemma process_stopped o w :
  (forall data, fst (transform o w) <> Returned data) ->
  process o w = (match fst (transform o w) with
                 | Returned _ => Returned 0
                 | Exited s => Exited s
                 | Aborted => Aborted
                 | Undefined => Undefined
                 end, snd (transform o w)).
Proof.
  intros H. unfold process, bind.
  destruct (transform o w) as [[data| | |] w1]; cbn [fst snd] in *;
    [now contradiction (H data)|reflexivity..].
Qed.

Lemma process_cases o w :
  (exists data w1,
      transform o w = (Returned data, w1)
      /\ fst (process o w) = Returned 0
      /\ files (snd (process o w)) = <[outputFile o := data]> (files w))
  \/ (fst (process o w) <> Returned 0 /\ files (snd (process o w)) = files w).
Proof.
  pose proof (files_transform o w) as Hf.
  destruct (transform o w) as [r w1] eqn:E. cbn [snd] in Hf.
  destruct r as [data|s| |].
  - rewrite (process_written o w data w1 E).
    destruct (writable w1 (outputFile o)).
    + left. exists data, w1. cbn [fst snd]. repeat split.
      cbn. now rewrite Hf.
    + right. cbn [fst snd]. split; [discriminate|exact Hf].
  - right. rewrite process_stopped by (rewrite E; discriminate).
    rewrite E. cbn [fst snd]. split; [discriminate|exact Hf].
  - right. rewrite process_stopped by (rewrite E; discriminate).
    rewrite E. cbn [fst snd]. split; [discriminate|exact Hf].
  - right. rewrite process_stopped by (rewrite E; discriminate).
    rewrite E. cbn [fst snd]. split; [discriminate|exact Hf].
Qed.

(** A run of [process] in encryption mode that succeeds. *)
Lemma process_encrypts o w P :
  encrypt o = true ->
  Z.of_nat (String.length (password o)) <= INT_MAX ->
  files w !! inputFile o = Some P ->
  Z.of_nat (length P) < 2 ^ 31 - 16 ->
  fst (RAND w) <> 0 ->
  writable w (outputFile o) = true ->
  let iv := vector_resize (snd (RAND w)) AES_BLOCK_SIZE in
  fst (process o w) = Returned 0
  /\ files (snd (process o w))
     = <[outputFile o := iv ++ cbc_pkcs7_encrypt (derived_key (password o)) iv P]>
         (files w).
Proof.
  intros He Hpw Hin HP Hrand Hout iv.
  assert (Hiv : length iv = AES_BLOCK_SIZE).
  { unfold iv, vector_resize. rewrite List.length_app, List.length_firstn, zeros_length. lia. }
  assert (HT : transform o w
               = (Returned (iv ++ cbc_pkcs7_encrypt (derived_key (password o)) iv P),
                  printed_iv "Generated IV: " iv w)).
  { unfold transform.
    rewrite (bind_returned _ _ _ _ _ (generateKey_spec _ w Hpw)).
    assert (Hr : readFile (inputFile o) w = (Returned P, w))
      by (unfold readFile; now rewrite Hin).
    rewrite (bind_returned _ _ _ _ _ Hr), He.
    unfold RAND_bytes at 1. unfold bind at 1. fold iv.
    apply Z.eqb_neq in Hrand. rewrite Hrand.
    rewrite (bind_returned _ _ _ _ _ (print_iv_spec _ _ w)).
    assert (Hn : to_int (Z.of_nat (length P)) = Z.of_nat (length P))
      by (apply to_int_small; unfold INT_MAX; lia).
    rewrite encrypt_spec; rewrite ?Hn, ?Nat2Z.id; try lia.
    - rewrite List.firstn_all. rewrite <- Hiv at 1. now rewrite List.firstn_all.
    - now apply whole_length_bound. }
  destruct (process_cases o w) as [(data & w1 & E & H1 & H2)|[H1 H2]].
  - rewrite HT in E. injection E as <- <-. split; assumption.
  - exfalso. apply H1. unfold process.
    rewrite (bind_returned _ _ _ _ _ HT). unfold bind. rewrite writeFile_spec.
    change (writable (printed_iv _ _ w)) with (writable w). now rewrite Hout.
Qed.

(** A run of [process] in decryption mode on the container of [P] under
    the key of the same password. *)
Lemma process_decrypts o w iv P :
  encrypt o = false -> decrypt o = true ->
  Z.of_nat (String.length (password o)) <= INT_MAX ->
  length iv = AES_BLOCK_SIZE ->
  Z.of_nat (length P) < 2 ^ 31 - 16 ->
  files w !! inputFile o
  = Some (iv ++ cbc_pkcs7_encrypt (derived_key (password o)) iv P) ->
  writable w (outputFile o) = true ->
  fst (process o w) = Returned 0
  /\ files (snd (process o w)) = <[outputFile o := P]> (files w).
Proof.
  intros He Hd Hpw Hiv HP Hin Hout.
  assert (HT : transform o w = (Returned P, printed_iv "Extracted IV: " iv w)).
  { unfold transform.
    rewrite (bind_returned _ _ _ _ _ (generateKey_spec _ w Hpw)).
    assert (Hr : readFile (inputFile o) w
                 = (Returned (iv ++ cbc_pkcs7_encrypt (derived_key (password o)) iv P), w))
      by (unfold readFile; now rewrite Hin).
    rewrite (bind_returned _ _ _ _ _ Hr), He, Hd.
    apply decrypt_container; [exact Hiv|now apply whole_length_bound]. }
  rewrite (process_written _ _ _ _ HT).
  change (writable (printed_iv _ _ w)) with (writable w). rewrite Hout.
  split; reflexivity.
Qed.

End MainFacts.

Module Claims.
Import Bytes BytesFacts EVPFacts ProgramFacts RoundTripFacts KeyFacts FrameFacts MainFacts.

Lemma four_gigabytes_length : Z.of_nat (length four_gigabytes) = 4294967296.
Proof. unfold four_gigabytes. rewrite repeat_length. apply Z2Nat.id. lia. Qed.

Lemma four_gigabytes_int : to_int (Z.of_nat (length four_gigabytes)) = 0.
Proof. rewrite four_gigabytes_length. reflexivity. Qed.

Lemma small_length_int (P : list byte) :
  Z.of_nat (length P) < 2 ^ 31 - 16 ->
  to_int (Z.of_nat (length P)) = Z.of_nat (length P).
Proof. intros H. apply to_int_small. unfold INT_MAX. lia. Qed.

(** A container that [encryptDataWithIV] returns starts with the IV. *)
Lemma encrypt_returns_iv P K iv w c w' :
  (AES_BLOCK_SIZE <= length iv)%nat ->
  encryptDataWithIV P K iv w = (Returned c, w') ->
  firstn AES_BLOCK_SIZE c = firstn AES_BLOCK_SIZE iv.
Proof.
  intros Hiv H.
  destruct (Z_lt_dec (to_int (Z.of_nat (length P))) 0) as [Hneg|Hpos].
  - rewrite (encrypt_negative P K iv w Hneg) in H. discriminate H.
  - destruct (Z_le_dec (Z.of_nat (whole_length (Z.to_nat (to_int (Z.of_nat (length P))))) + 16)
                INT_MAX) as [Hfit|Hover].
    + rewrite (encrypt_spec P K iv w ltac:(lia) Hfit Hiv) in H.
      injection H as <- _.
      apply take_app_length'. rewrite List.length_firstn. lia.
    + rewrite (encrypt_overflow P K iv w ltac:(lia) ltac:(lia) Hiv) in H.
      discriminate H.
Qed.

(** Encryption of a plaintext shorter than 2^31 - 16 bytes. *)
Lemma encrypt_small P K iv w :
  length iv = AES_BLOCK_SIZE ->
  Z.of_nat (length P) < 2 ^ 31 - 16 ->
  encryptDataWithIV P K iv w = (Returned (iv ++ cbc_pkcs7_encrypt K iv P), w).
Proof.
  intros Hiv HP.
  rewrite encrypt_spec; rewrite ?(small_length_int P HP), ?Nat2Z.id; try lia.
  - rewrite List.firstn_all. rewrite <- Hiv at 1. now rewrite List.firstn_all.
  - now apply whole_length_bound.
Qed.

(** X21. Within the range of [int] the round trip holds: for every
    plaintext P shorter than 2^31 - 16 bytes, every 32-byte key K and every
    16-byte IV, encryption returns a container, and decrypting that
    container with the same key returns P. *)
Theorem roundtrip_recovers_plaintext (P K iv : list byte) (w : world) :
  length K = AES_KEY_LENGTH ->
  length iv = AES_BLOCK_SIZE ->
  Z.of_nat (length P) < 2 ^ 31 - 16 ->
  exists c,
    encryptDataWithIV P K iv w = (Returned c, w)
    /\ (forall w', fst (decryptDataWithIV c K w') = Returned P)
    /\ fst (roundtrip P K iv w) = Returned P.
Proof.
  intros _ Hiv HP.
  exists (iv ++ cbc_pkcs7_encrypt K iv P). split; [|split].
  - now apply encrypt_small.
  - intros w'. rewrite decrypt_container; [reflexivity|exact Hiv|].
    now apply whole_length_bound.
  - rewrite roundtrip_spec; rewrite ?(small_length_int P HP), ?Nat2Z.id; try lia.
    + cbn [fst]. now rewrite List.firstn_all.
    + now apply whole_length_bound.
Qed.

Lemma roundtrip_recovers_hello_world :
  exists c,
    encryptDataWithIV hello_world sample_key sample_iv sample_world
    = (Returned c, sample_world)
    /\ (forall w', fst (decryptDataWithIV c sample_key w') = Returned hello_world)
    /\ fst (roundtrip hello_world sample_key sample_iv sample_world)
       = Returned hello_world.
Proof.
  apply (roundtrip_recovers_plaintext hello_world sample_key sample_iv sample_world).
  - reflexivity.
  - reflexivity.
  - vm_compute. reflexivity.
Defined.

(** C1 fails on the code: line 92 passes [plaintext.size()] as the [int]
    length of [EVP_EncryptUpdate] without a check. The size of a plaintext
    of 2^32 bytes converts to 0, nothing but the padding block is
    encrypted, no error is reported, and the round trip returns the empty
    sequence instead of the plaintext. *)
Lemma roundtrip_loses_four_gigabytes :
  fst (roundtrip four_gigabytes sample_key sample_iv sample_world) = Returned []
  /\ four_gigabytes <> [].
Proof.
  split.
  - rewrite roundtrip_spec; rewrite ?four_gigabytes_int.
    + reflexivity.
    + lia.
    + vm_compute. discriminate.
    + reflexivity.
  - intros H. pose proof four_gigabytes_length as HL. rewrite H in HL.
    discriminate HL.
Qed.

(** X22. Within the range of [int] the length formula holds: for every
    plaintext of n < 2^31 - 16 bytes the container is the IV followed by a
    cipher text body of (n / 16 + 1) * 16 bytes (integer division): n
    rounded up to the next multiple of 16, and one more block when n is
    already a multiple of 16. *)
Theorem ciphertext_body_length (P K iv : list byte) (w : world) :
  length iv = AES_BLOCK_SIZE ->
  Z.of_nat (length P) < 2 ^ 31 - 16 ->
  exists body,
    encryptDataWithIV P K iv w = (Returned (iv ++ body), w)
    /\ length body = ((length P / 16 + 1) * 16)%nat
    /\ length (iv ++ body) = (16 + (length P / 16 + 1) * 16)%nat.
Proof.
  intros Hiv HP. exists (cbc_pkcs7_encrypt K iv P).
  assert (Hb : length (cbc_pkcs7_encrypt K iv P) = ((length P / 16 + 1) * 16)%nat).
  { rewrite cbc_pkcs7_encrypt_length by lia. unfold whole_length, AES_BLOCK_SIZE. lia. }
  split; [now apply encrypt_small|]. split; [exact Hb|].
  rewrite List.length_app, Hb, Hiv. reflexivity.
Qed.

(** The container of the 11-byte text has 32 bytes; the body for a 16-byte
    plaintext has 32 bytes. *)
Lemma ciphertext_body_length_examples :
  (exists body,
      encryptDataWithIV hello_world sample_key sample_iv sample_world
      = (Returned (sample_iv ++ body), sample_world)
      /\ length body = 16%nat /\ length (sample_iv ++ body) = 32%nat)
  /\ (exists body,
        encryptDataWithIV one_block sample_key sample_iv sample_world
        = (Returned (sample_iv ++ body), sample_world)
        /\ length body = 32%nat /\ length (sample_iv ++ body) = 48%nat).
Proof.
  split.
  - apply (ciphertext_body_length hello_world sample_key sample_iv sample_world).
    + reflexivity.
    + vm_compute. reflexivity.
  - apply (ciphertext_body_length one_block sample_key sample_iv sample_world).
    + reflexivity.
    + vm_compute. reflexivity.
Defined.

(** C3 fails on the code: the length of the plaintext reaches
    [EVP_EncryptUpdate] as an [int] without a check. For a plaintext of
    2^32 bytes the call returns a container whose body is a single
    block of 16 bytes, where the formula gives 2^32 + 16. *)
Lemma four_gigabytes_body_is_one_block :
  exists body,
    encryptDataWithIV four_gigabytes sample_key sample_iv sample_world
    = (Returned (sample_iv ++ body), sample_world)
    /\ length body = 16%nat
    /\ Z.of_nat (length body) <> (Z.of_nat (length four_gigabytes) / 16 + 1) * 16.
Proof.
  exists (cbc_pkcs7_encrypt sample_key sample_iv []).
  assert (Hb : length (cbc_pkcs7_encrypt sample_key sample_iv []) = 16%nat)
    by (rewrite cbc_pkcs7_encrypt_length; reflexivity).
  split; [|split].
  - rewrite encrypt_spec; rewrite ?four_gigabytes_int.
    + reflexivity.
    + lia.
    + vm_compute. discriminate.
    + reflexivity.
  - exact Hb.
  - rewrite Hb, four_gigabytes_length. vm_compute. discriminate.
Qed.

(** C10. Encrypting the empty plaintext succeeds and gives a container of
    32 bytes, the IV and one block of padding; decrypting that container
    returns the empty sequence. *)
Theorem empty_plaintext_supported (K iv : list byte) (w : world) :
  length iv = AES_BLOCK_SIZE ->
  exists c,
    encryptDataWithIV [] K iv w = (Returned c, w)
    /\ length c = 32%nat
    /\ firstn AES_BLOCK_SIZE c = iv
    /\ forall w', fst (decryptDataWithIV c K w') = Returned [].
Proof.
  intros Hiv. exists (iv ++ cbc_pkcs7_encrypt K iv []).
  split; [|split; [|split]].
  - apply (encrypt_small [] K iv w Hiv). vm_compute. reflexivity.
  - rewrite List.length_app, cbc_pkcs7_encrypt_length, Hiv by lia. reflexivity.
  - now apply take_app_length'.
  - intros w'. rewrite decrypt_container; [reflexivity|exact Hiv|].
    vm_compute. discriminate.
Qed.

Lemma empty_plaintext_sample :
  exists c,
    encryptDataWithIV [] sample_key sample_iv sample_world = (Returned c, sample_world)
    /\ length c = 32%nat
    /\ firstn AES_BLOCK_SIZE c = sample_iv
    /\ forall w', fst (decryptDataWithIV c sample_key w') = Returned [].
Proof.
  apply (empty_plaintext_supported sample_key sample_iv sample_world). reflexivity.
Defined.

(** C9. Two encryptions of the same plaintext with the same key and
    distinct 16-byte IVs never return the same container, because each
    container begins with its IV; for a plaintext shorter than 2^31 - 16
    bytes both encryptions do return containers. *)
Theorem distinct_ivs_distinct_containers (P K iv1 iv2 : list byte) (w : world) :
  length iv1 = AES_BLOCK_SIZE -> length iv2 = AES_BLOCK_SIZE -> iv1 <> iv2 ->
  (forall c1 c2 w1 w2,
      encryptDataWithIV P K iv1 w = (Returned c1, w1) ->
      encryptDataWithIV P K iv2 w = (Returned c2, w2) ->
      firstn AES_BLOCK_SIZE c1 = iv1 /\ firstn AES_BLOCK_SIZE c2 = iv2 /\ c1 <> c2)
  /\ (Z.of_nat (length P) < 2 ^ 31 - 16 ->
      exists c1 c2,
        encryptDataWithIV P K iv1 w = (Returned c1, w)
        /\ encryptDataWithIV P K iv2 w = (Returned c2, w)
        /\ c1 <> c2).
Proof.
  intros H1 H2 Hne.
  assert (Hdiff : forall c1 c2 w1 w2,
             encryptDataWithIV P K iv1 w = (Returned c1, w1) ->
             encryptDataWithIV P K iv2 w = (Returned c2, w2) ->
             firstn AES_BLOCK_SIZE c1 = iv1 /\ firstn AES_BLOCK_SIZE c2 = iv2 /\ c1 <> c2).
  { intros c1 c2 w1 w2 E1 E2.
    apply encrypt_returns_iv in E1; [|lia]. apply encrypt_returns_iv in E2; [|lia].
    rewrite <- H1 in E1 at 2. rewrite List.firstn_all in E1.
    rewrite <- H2 in E2 at 2. rewrite List.firstn_all in E2.
    split; [exact E1|]. split; [exact E2|].
    intros ->. apply Hne. now rewrite <- E1, <- E2. }
  split; [exact Hdiff|].
  intros HP.
  exists (iv1 ++ cbc_pkcs7_encrypt K iv1 P), (iv2 ++ cbc_pkcs7_encrypt K iv2 P).
  pose proof (encrypt_small P K iv1 w H1 HP) as E1.
  pose proof (encrypt_small P K iv2 w H2 HP) as E2.
  split; [exact E1|]. split; [exact E2|].
  apply (Hdiff _ _ _ _ E1 E2).
Qed.

Lemma distinct_ivs_sample :
  (forall c1 c2 w1 w2,
      encryptDataWithIV hello_world sample_key sample_iv sample_world = (Returned c1, w1) ->
      encryptDataWithIV hello_world sample_key other_iv sample_world = (Returned c2, w2) ->
      firstn AES_BLOCK_SIZE c1 = sample_iv /\ firstn AES_BLOCK_SIZE c2 = other_iv
      /\ c1 <> c2)
  /\ (Z.of_nat (length hello_world) < 2 ^ 31 - 16 ->
      exists c1 c2,
        encryptDataWithIV hello_world sample_key sample_iv sample_world
        = (Returned c1, sample_world)
        /\ encryptDataWithIV hello_world sample_key other_iv sample_world
           = (Returned c2, sample_world)
        /\ c1 <> c2).
Proof.
  apply (distinct_ivs_distinct_containers hello_world sample_key sample_iv other_iv
           sample_world).
  - reflexivity.
  - reflexivity.
  - discriminate.
Defined.

(** C5. The container is the concatenation of the IV and the cipher text:
    packing a 16-byte IV and a cipher text and unpacking the result gives
    the two back; the first 16 bytes of what [encryptDataWithIV] returns are
    the IV it was given; and [decryptDataWithIV] takes its IV from the first
    16 bytes of its input, which are the bytes it prints. *)
Theorem container_layout (iv ct : list byte) (w : world) :
  length iv = AES_BLOCK_SIZE ->
  pack iv ct w = (Returned (iv ++ ct), w)
  /\ unpack (iv ++ ct) w = (Returned (iv, ct), w)
  /\ (forall P K c w',
        encryptDataWithIV P K iv w = (Returned c, w') -> firstn AES_BLOCK_SIZE c = iv)
  /\ (forall data : list byte,
        (AES_BLOCK_SIZE <= length data)%nat ->
        unpack data w
        = (Returned (firstn AES_BLOCK_SIZE data, skipn AES_BLOCK_SIZE data), w))
  /\ (forall K,
        cout (snd (decryptDataWithIV (iv ++ ct) K w))
        = (((cout w ++ "Extracted IV: ") ++ hex_dump iv) ++ endl)%string).
Proof.
  intros Hiv.
  assert (Hl : (AES_BLOCK_SIZE <= length (iv ++ ct))%nat)
    by (rewrite List.length_app; lia).
  split; [|split; [|split; [|split]]].
  - rewrite pack_spec by lia. rewrite <- Hiv at 1. now rewrite List.firstn_all.
  - rewrite (unpack_spec _ w Hl).
    now rewrite (take_app_length' iv ct _ (eq_sym Hiv)),
      (drop_app_length' iv ct _ (eq_sym Hiv)).
  - intros P K c w' E. apply encrypt_returns_iv in E; [|lia].
    rewrite E. rewrite <- Hiv at 1. apply List.firstn_all.
  - intros data Hd. now apply unpack_spec.
  - intros K. rewrite (decrypt_cout _ K w Hl).
    now rewrite (take_app_length' iv ct _ (eq_sym Hiv)).
Qed.

Lemma container_layout_sample :
  pack sample_iv hello_world sample_world
  = (Returned (sample_iv ++ hello_world), sample_world)
  /\ unpack (sample_iv ++ hello_world) sample_world
     = (Returned (sample_iv, hello_world), sample_world)
  /\ (forall P K c w',
        encryptDataWithIV P K sample_iv sample_world = (Returned c, w') ->
        firstn AES_BLOCK_SIZE c = sample_iv)
  /\ (forall data : list byte,
        (AES_BLOCK_SIZE <= length data)%nat ->
        unpack data sample_world
        = (Returned (firstn AES_BLOCK_SIZE data, skipn AES_BLOCK_SIZE data),
           sample_world))
  /\ (forall K,
        cout (snd (decryptDataWithIV (sample_iv ++ hello_world) K sample_world))
        = (((cout sample_world ++ "Extracted IV: ") ++ hex_dump sample_iv) ++ endl)%string).
Proof.
  apply (container_layout sample_iv hello_world sample_world). reflexivity.
Defined.



(** C2 fails on the code: a container of 10 bytes makes the copy of line
    125 read past the end of the vector. There is no length check and no
    error for a malformed container. *)
Theorem short_container_read_out_of_range :
  decryptDataWithIV ten_bytes sample_key sample_world = (Undefined, sample_world)
  /\ (length ten_bytes < AES_BLOCK_SIZE)%nat.
Proof.
  split; [apply decrypt_short|]; vm_compute; lia.
Qed.

(** C4 (as amended). Key derivation is a deterministic function of the
    password alone: the outcome of [generateKeyFromPassword] does not depend
    on the state of the process, and for every password of at most INT_MAX
    bytes it is the 32-byte key PBKDF2-HMAC-SHA1 derives with the salt
    "12345678" and 10000 iterations. Nothing is said of distinct passwords. *)
Theorem key_derivation_deterministic (W : string) :
  (forall w1 w2,
      fst (generateKeyFromPassword W w1) = fst (generateKeyFromPassword W w2))
  /\ (Z.of_nat (String.length W) <= INT_MAX ->
      forall w, generateKeyFromPassword W w = (Returned (derived_key W), w))
  /\ length (derived_key W) = AES_KEY_LENGTH
  /\ derived_key W
     = PBKDF2.derive (HMAC.hmac_sha1 (Bytes.of_string W)) 20
         (Bytes.of_string "12345678") 10000 32.
Proof.
  split; [|split; [|split]].
  - apply generateKey_outcome.
  - intros H w. now apply generateKey_spec.
  - apply derived_key_length.
  - reflexivity.
Qed.

(** C4 as stated fails: a password of 65 bytes and the 20 bytes of its
    SHA-1 digest are distinct and derive the same key, because HMAC replaces
    a key longer than 64 bytes by its digest. *)
Lemma distinct_passwords_same_key :
  long_password <> short_password
  /\ generateKeyFromPassword long_password sample_world
     = generateKeyFromPassword short_password sample_world
  /\ generateKeyFromPassword long_password sample_world
     = (Returned (derived_key long_password), sample_world).
Proof.
  split; [discriminate|].
  rewrite !generateKey_spec by (vm_compute; discriminate).
  rewrite (same_key_block _ _ colliding_key_blocks). split; reflexivity.
Qed.

Lemma flags_refused_iff rs :
  flags_refused rs = true
  <-> (given "e" rs = given "d" rs
       \/ last_argument "i" rs = EmptyString
       \/ last_argument "o" rs = EmptyString
       \/ last_argument "p" rs = EmptyString).
Proof.
  unfold flags_refused, refused, options_of, string_empty.
  cbn [encrypt decrypt inputFile outputFile password].
  rewrite !orb_true_iff, !andb_true_iff, !negb_true_iff, !String.eqb_eq.
  destruct (given "e" rs), (given "d" rs); intuition congruence.
Qed.

(** C7 (as amended). The program prints the usage text to standard output
    and returns 1, leaving the files alone, whenever [getopt] reports an
    unknown option or a missing option argument, or both or neither of -e
    and -d are given, or the last value given for one of -i, -o, -p is
    missing or empty. In every other case, a repeated flag included, the
    arguments are accepted and the file is processed, with the last value of
    each flag. *)
Theorem usage_on_bad_arguments (argv : list string) (w : world) :
  (getopt_failed (getopt_returns argv w) = true
   \/ given "e" (getopt_returns argv w) = given "d" (getopt_returns argv w)
   \/ last_argument "i" (getopt_returns argv w) = EmptyString
   \/ last_argument "o" (getopt_returns argv w) = EmptyString
   \/ last_argument "p" (getopt_returns argv w) = EmptyString ->
   fst (main argv w) = Returned 1
   /\ cout (snd (main argv w)) = (cout w ++ usage_text (hd EmptyString argv))%string
   /\ files (snd (main argv w)) = files w)
  /\ (getopt_failed (getopt_returns argv w) = false ->
      given "e" (getopt_returns argv w) <> given "d" (getopt_returns argv w) ->
      last_argument "i" (getopt_returns argv w) <> EmptyString ->
      last_argument "o" (getopt_returns argv w) <> EmptyString ->
      last_argument "p" (getopt_returns argv w) <> EmptyString ->
      main argv w = process (options_of (getopt_returns argv w)) w).
Proof.
  split.
  - intros H.
    destruct (getopt_failed (getopt_returns argv w)) eqn:E.
    + destruct (main_getopt_failed argv w E) as [d ->]. repeat split.
    + destruct H as [H|H]; [discriminate H|].
      apply flags_refused_iff in H.
      rewrite (main_refused argv w E H). repeat split.
  - intros E He Hi Ho Hp. apply main_accepted; [exact E|].
    destruct (flags_refused (getopt_returns argv w)) eqn:F; [|reflexivity].
    apply flags_refused_iff in F. intuition congruence.
Qed.

Lemma usage_without_flags :
  fst (main no_flags sample_world) = Returned 1
  /\ cout (snd (main no_flags sample_world))
     = (cout sample_world ++ usage_text (hd EmptyString no_flags))%string
  /\ files (snd (main no_flags sample_world)) = files sample_world.
Proof.
  apply (proj1 (usage_on_bad_arguments no_flags sample_world)).
  right. left. reflexivity.
Defined.

(** C7 as stated fails: a command line that gives -e twice is accepted and
    the file is encrypted. *)
Lemma repeated_flag_accepted :
  length (filter (String.eqb "-e") twice_e) = 2%nat
  /\ fst (main twice_e sample_world) = Returned 0
  /\ cout (snd (main twice_e sample_world))
     <> (cout sample_world ++ usage_text (hd EmptyString twice_e))%string.
Proof.
  assert (Hrs : getopt_returns twice_e sample_world
                = [GetoptOption "e" EmptyString; GetoptOption "e" EmptyString;
                   GetoptOption "i" "in.bin"; GetoptOption "o" "out.bin";
                   GetoptOption "p" "secret"])
    by (vm_compute; reflexivity).
  assert (HM : main twice_e sample_world
               = process (Options "in.bin" "out.bin" "secret" true false) sample_world).
  { rewrite main_accepted; rewrite Hrs; reflexivity. }
  split; [reflexivity|].
  rewrite HM.
  assert (HT : exists c,
             transform (Options "in.bin" "out.bin" "secret" true false) sample_world
             = (Returned c, printed_iv "Generated IV: " sample_iv sample_world)).
  { unfold transform. cbn [password inputFile encrypt].
    rewrite (bind_returned _ _ _ _ _
               (generateKey_spec "secret" sample_world ltac:(vm_compute; discriminate))).
    assert (Hr : readFile "in.bin" sample_world = (Returned hello_world, sample_world))
      by (vm_compute; reflexivity).
    rewrite (bind_returned _ _ _ _ _ Hr).
    assert (HR : RAND_bytes AES_BLOCK_SIZE sample_world
                 = (Returned (1, sample_iv), sample_world)) by reflexivity.
    rewrite (bind_returned _ _ _ _ _ HR). cbv beta iota. change (1 =? 0) with false.
    cbv iota.
    rewrite (bind_returned _ _ _ _ _ (print_iv_spec _ _ sample_world)).
    eexists. apply encrypt_small; [reflexivity|vm_compute; reflexivity]. }
  destruct HT as [c HT].
  rewrite (process_written _ _ _ _ HT).
  change (writable (printed_iv _ _ sample_world) _) with true. cbv iota.
  split; [reflexivity|].
  cbn [snd]. unfold set_cout, set_files, printed_iv.
  cbn [cout]. vm_compute. discriminate.
Qed.

(** C8. The output file is written last: a run of [main] that ends with a
    non-zero status leaves the file system as it was, and a run that
    changes the file system has completed the whole transformation in
    memory, returns 0, and has written exactly the result to the output
    file. *)
Theorem output_written_last (argv : list string) (w : world) :
  (forall s, exit_status (fst (main argv w)) = Some s -> s <> 0 ->
             files (snd (main argv w)) = files w)
  /\ (files (snd (main argv w)) <> files w ->
      exists o data w1,
        transform o w = (Returned data, w1)
        /\ fst (main argv w) = Returned 0
        /\ files (snd (main argv w)) = <[outputFile o := data]> (files w)).
Proof.
  assert (H : (exists o data w1,
                  transform o w = (Returned data, w1)
                  /\ fst (main argv w) = Returned 0
                  /\ files (snd (main argv w)) = <[outputFile o := data]> (files w))
              \/ (fst (main argv w) <> Returned 0
                  /\ files (snd (main argv w)) = files w)).
  { destruct (getopt_failed (getopt_returns argv w)) eqn:E.
    - right. destruct (main_getopt_failed argv w E) as [d ->].
      split; [discriminate|reflexivity].
    - destruct (flags_refused (getopt_returns argv w)) eqn:F.
      + right. rewrite (main_refused argv w E F).
        split; [discriminate|reflexivity].
      + rewrite (main_accepted argv w E F).
        destruct (process_cases (options_of (getopt_returns argv w)) w)
          as [(data & w1 & H1 & H2 & H3)|H]; [left|right; exact H].
        exists (options_of (getopt_returns argv w)), data, w1. auto. }
  split.
  - intros s Hs Hne. destruct H as [(o & data & w1 & _ & H0 & _)|[_ H]]; [|exact H].
    rewrite H0 in Hs. cbn in Hs. congruence.
  - intros Hch. destruct H as [H|[_ H]]; [exact H|contradiction].
Qed.

Lemma missing_input_writes_nothing :
  exit_status (fst (main missing_input sample_world)) = Some 1
  /\ files (snd (main missing_input sample_world)) = files sample_world.
Proof.
  assert (Hrs : getopt_returns missing_input sample_world
                = [GetoptOption "d" EmptyString; GetoptOption "i" "absent.bin";
                   GetoptOption "o" "out.bin"; GetoptOption "p" "secret"])
    by (vm_compute; reflexivity).
  assert (HM : main missing_input sample_world
               = process (Options "absent.bin" "out.bin" "secret" false true) sample_world).
  { rewrite main_accepted; rewrite Hrs; reflexivity. }
  assert (HT : fst (transform (Options "absent.bin" "out.bin" "secret" false true)
                      sample_world) = Exited 1).
  { unfold transform. cbn [password inputFile encrypt].
    rewrite (bind_returned _ _ _ _ _
               (generateKey_spec "secret" sample_world ltac:(vm_compute; discriminate))).
    unfold bind at 1. unfold readFile.
    change (files sample_world !! "absent.bin"%string) with (@None (list byte)).
    reflexivity. }
  assert (HS : exit_status (fst (main missing_input sample_world)) = Some 1).
  { rewrite HM, process_stopped by (rewrite HT; discriminate). now rewrite HT. }
  split; [exact HS|].
  apply (proj1 (output_written_last missing_input sample_world) 1 HS). discriminate.
Defined.

(** ** Further properties of the program *)

(** X1. A run with [-e] followed by a run with [-d] and the same password
    restores the file: for an input file of fewer than 2^31 - 16 bytes,
    [RAND_bytes] succeeding and both output files writable, the first run
    returns 0 and writes the container, and the second run, started in the
    state the first one left, returns 0 and writes the original content. *)
Theorem encrypt_then_decrypt_restores_file
    (input container output pw : string) (P : list byte) (w : world) :
  Z.of_nat (String.length pw) <= INT_MAX ->
  files w !! input = Some P ->
  Z.of_nat (length P) < 2 ^ 31 - 16 ->
  fst (RAND w) <> 0 ->
  writable w container = true ->
  writable w output = true ->
  let first := process (Options input container pw true false) w in
  let second := process (Options container output pw false true) (snd first) in
  fst first = Returned 0
  /\ fst second = Returned 0
  /\ files (snd second) = <[output := P]> (files (snd first))
  /\ files (snd second) !! output = Some P.
Proof.
  intros Hpw Hin HP Hrand Hc Ho first second.
  destruct (process_encrypts (Options input container pw true false) w P
              eq_refl Hpw Hin HP Hrand Hc) as [R1 F1].
  fold first in R1, F1. cbn [outputFile password] in F1.
  set (iv := vector_resize (snd (RAND w)) AES_BLOCK_SIZE) in F1.
  assert (Hiv : length iv = AES_BLOCK_SIZE).
  { unfold iv, vector_resize.
    rewrite List.length_app, List.length_firstn, zeros_length. lia. }
  assert (Hw : writable (snd first) output = true).
  { unfold first. rewrite (writable_process _ w). exact Ho. }
  assert (Hf : files (snd first) !! container
               = Some (iv ++ cbc_pkcs7_encrypt (derived_key pw) iv P)).
  { rewrite F1. apply lookup_insert_eq. }
  destruct (process_decrypts (Options container output pw false true)
              (snd first) iv P eq_refl eq_refl Hpw Hiv HP Hf Hw) as [R2 F2].
  fold second in R2, F2. cbn [outputFile] in F2.
  split; [exact R1|split; [exact R2|split; [exact F2|]]].
  rewrite F2. apply lookup_insert_eq.
Qed.

Lemma hello_world_restored :
  let first := process (Options "in.bin" "out.bin" "secret" true false) sample_world in
  let second := process (Options "out.bin" "back.bin" "secret" false true) (snd first) in
  fst first = Returned 0
  /\ fst second = Returned 0
  /\ files (snd second) = <[("back.bin" : string) := hello_world]> (files (snd first))
  /\ files (snd second) !! ("back.bin" : string) = Some hello_world.
Proof.
  apply (encrypt_then_decrypt_restores_file
           "in.bin" "out.bin" "back.bin" "secret" hello_world sample_world);
    try reflexivity; vm_compute; try reflexivity; discriminate.
Defined.



End Claims.

(** ** The cipher undoes the inverse cipher *)

Module CipherFacts.
Import AES Bytes BytesFacts AESFacts EVPFacts.

Lemma sbox_inv_sbox b : sbox (inv_sbox b) = b.
Proof.
  apply Byte.byte_dec_bl. revert b. apply forall_bytes. vm_compute. reflexivity.
Qed.

Lemma m2_additive : additive m2.
Proof. apply additive_check. vm_compute. reflexivity. Qed.
Lemma m3_additive : additive m3.
Proof. apply additive_check. vm_compute. reflexivity. Qed.

(** The products of the rows of the MixColumns matrix with the columns of
    its inverse, on one byte. *)
Ltac by_table :=
  intros; apply Byte.byte_dec_bl;
  match goal with x : byte |- _ => revert x end;
  apply forall_bytes; vm_compute; reflexivity.

Lemma coproduct_0_0 x : xor4 (m2 (m14 x)) (m3 (m9 x)) (m13 x) (m11 x) = x.
Proof. by_table. Qed.
Lemma coproduct_0_1 x : xor4 (m2 (m11 x)) (m3 (m14 x)) (m9 x) (m13 x) = x00.
Proof. by_table. Qed.
Lemma coproduct_0_2 x : xor4 (m2 (m13 x)) (m3 (m11 x)) (m14 x) (m9 x) = x00.
Proof. by_table. Qed.
Lemma coproduct_0_3 x : xor4 (m2 (m9 x)) (m3 (m13 x)) (m11 x) (m14 x) = x00.
Proof. by_table. Qed.
Lemma coproduct_1_0 x : xor4 (m14 x) (m2 (m9 x)) (m3 (m13 x)) (m11 x) = x00.
Proof. by_table. Qed.
Lemma coproduct_1_1 x : xor4 (m11 x) (m2 (m14 x)) (m3 (m9 x)) (m13 x) = x.
Proof. by_table. Qed.
Lemma coproduct_1_2 x : xor4 (m13 x) (m2 (m11 x)) (m3 (m14 x)) (m9 x) = x00.
Proof. by_table. Qed.
Lemma coproduct_1_3 x : xor4 (m9 x) (m2 (m13 x)) (m3 (m11 x)) (m14 x) = x00.
Proof. by_table. Qed.
Lemma coproduct_2_0 x : xor4 (m14 x) (m9 x) (m2 (m13 x)) (m3 (m11 x)) = x00.
Proof. by_table. Qed.
Lemma coproduct_2_1 x : xor4 (m11 x) (m14 x) (m2 (m9 x)) (m3 (m13 x)) = x00.
Proof. by_table. Qed.
Lemma coproduct_2_2 x : xor4 (m13 x) (m11 x) (m2 (m14 x)) (m3 (m9 x)) = x.
Proof. by_table. Qed.
Lemma coproduct_2_3 x : xor4 (m9 x) (m13 x) (m2 (m11 x)) (m3 (m14 x)) = x00.
Proof. by_table. Qed.
Lemma coproduct_3_0 x : xor4 (m3 (m14 x)) (m9 x) (m13 x) (m2 (m11 x)) = x00.
Proof. by_table. Qed.
Lemma coproduct_3_1 x : xor4 (m3 (m11 x)) (m14 x) (m9 x) (m2 (m13 x)) = x00.
Proof. by_table. Qed.
Lemma coproduct_3_2 x : xor4 (m3 (m13 x)) (m11 x) (m14 x) (m2 (m9 x)) = x00.
Proof. by_table. Qed.
Lemma coproduct_3_3 x : xor4 (m3 (m9 x)) (m13 x) (m11 x) (m2 (m14 x)) = x.
Proof. by_table. Qed.

Ltac cocolumns_cancel :=
  intros;
  rewrite ?(additive_xor4 _ m2_additive), ?(additive_xor4 _ m3_additive);
  rewrite xor4_transpose;
  rewrite ?coproduct_0_0, ?coproduct_0_1, ?coproduct_0_2, ?coproduct_0_3, ?coproduct_1_0, ?coproduct_1_1, ?coproduct_1_2, ?coproduct_1_3, ?coproduct_2_0, ?coproduct_2_1, ?coproduct_2_2, ?coproduct_2_3, ?coproduct_3_0, ?coproduct_3_1, ?coproduct_3_2, ?coproduct_3_3;
  first [apply xor4_1 | apply xor4_2 | apply xor4_3 | apply xor4_4].

Lemma mix_col0 a b c d :
  xor4 (m2 (xor4 (m14 a) (m11 b) (m13 c) (m9 d)))
       (m3 (xor4 (m9 a) (m14 b) (m11 c) (m13 d)))
       (xor4 (m13 a) (m9 b) (m14 c) (m11 d))
       (xor4 (m11 a) (m13 b) (m9 c) (m14 d)) = a.
Proof. cocolumns_cancel. Qed.

Lemma mix_col1 a b c d :
  xor4 (xor4 (m14 a) (m11 b) (m13 c) (m9 d))
       (m2 (xor4 (m9 a) (m14 b) (m11 c) (m13 d)))
       (m3 (xor4 (m13 a) (m9 b) (m14 c) (m11 d)))
       (xor4 (m11 a) (m13 b) (m9 c) (m14 d)) = b.
Proof. cocolumns_cancel. Qed.

Lemma mix_col2 a b c d :
  xor4 (xor4 (m14 a) (m11 b) (m13 c) (m9 d))
       (xor4 (m9 a) (m14 b) (m11 c) (m13 d))
       (m2 (xor4 (m13 a) (m9 b) (m14 c) (m11 d)))
       (m3 (xor4 (m11 a) (m13 b) (m9 c) (m14 d))) = c.
Proof. cocolumns_cancel. Qed.

Lemma mix_col3 a b c d :
  xor4 (m3 (xor4 (m14 a) (m11 b) (m13 c) (m9 d)))
       (xor4 (m9 a) (m14 b) (m11 c) (m13 d))
       (xor4 (m13 a) (m9 b) (m14 c) (m11 d))
       (m2 (xor4 (m11 a) (m13 b) (m9 c) (m14 d))) = d.
Proof. cocolumns_cancel. Qed.

Lemma mix_inv_mix_columns s :
  length s = 16%nat -> mix_columns (inv_mix_columns s) = s.
Proof.
  intros H.
  do 16 (destruct s as [|? s]; [discriminate H|]).
  destruct s; [|discriminate H].
  cbv [mix_columns inv_mix_columns columns mix_column inv_mix_column app].
  now rewrite !mix_col0, !mix_col1, !mix_col2, !mix_col3.
Qed.

Lemma sub_inv_sub_bytes s : sub_bytes (inv_sub_bytes s) = s.
Proof.
  unfold inv_sub_bytes, sub_bytes. induction s as [|b s IH]; simpl; [reflexivity|].
  now rewrite sbox_inv_sbox, IH.
Qed.

Lemma shift_inv_shift_rows s :
  length s = 16%nat -> shift_rows (inv_shift_rows s) = s.
Proof.
  intros H.
  do 16 (destruct s as [|? s]; [discriminate H|]).
  destruct s; [|discriminate H]. reflexivity.
Qed.

Lemma round_inv_round s k :
  length s = 16%nat -> length k = 16%nat -> round (inv_round s k) k = s.
Proof.
  intros Hs Hk. unfold inv_round, round.
  assert (Ha : length (add_round_key s k) = 16%nat)
    by now apply add_round_key_length.
  rewrite sub_inv_sub_bytes.
  rewrite shift_inv_shift_rows by now apply inv_mix_columns_length.
  rewrite mix_inv_mix_columns by exact Ha.
  now apply add_round_key_cancel.
Qed.

Lemma inv_rounds_length ks : forall s,
  List.Forall (fun k => length k = 16%nat) ks ->
  length s = 16%nat -> length (fold_left inv_round ks s) = 16%nat.
Proof.
  induction ks as [|k ks IH]; intros s Hks Hs; simpl; [exact Hs|].
  apply List.Forall_cons_iff in Hks. destruct Hks as [Hk Hks].
  apply IH; [exact Hks|]. now apply inv_round_length.
Qed.

Lemma rounds_inv_rounds ks : forall s,
  List.Forall (fun k => length k = 16%nat) ks ->
  length s = 16%nat ->
  fold_left round ks (fold_left inv_round (rev ks) s) = s.
Proof.
  induction ks as [|k ks IH]; intros s Hks Hs; simpl; [reflexivity|].
  apply List.Forall_cons_iff in Hks. destruct Hks as [Hk Hks].
  rewrite fold_left_app. simpl.
  rewrite round_inv_round;
    [now apply IH|apply inv_rounds_length; [now apply List.Forall_rev|exact Hs]|exact Hk].
Qed.

(** The cipher undoes the inverse cipher: with [inv_cipher_cipher], the two
    are inverse bijections of the 16-byte blocks. *)
Lemma cipher_inv_cipher key block :
  length block = 16%nat -> cipher key (inv_cipher key block) = block.
Proof.
  intros H. unfold inv_cipher, cipher.
  set (ws := key_schedule key).
  assert (H14 : length (add_round_key block (round_key ws 14)) = 16%nat)
    by (apply add_round_key_length; [exact H|apply round_key_length]).
  assert (H0 : length (inv_sub_bytes (inv_shift_rows
                         (add_round_key block (round_key ws 14)))) = 16%nat)
    by (rewrite inv_sub_bytes_length; now apply inv_shift_rows_length).
  rewrite add_round_key_cancel;
    [|apply inv_rounds_length; [apply List.Forall_rev, middle_keys_length|exact H0]
     |apply round_key_length].
  rewrite rounds_inv_rounds by (try apply middle_keys_length; assumption).
  rewrite sub_inv_sub_bytes, shift_inv_shift_rows by exact H14.
  apply add_round_key_cancel; [exact H|apply round_key_length].
Qed.

(** CBC encryption of a CBC decryption gives the cipher text back. *)
Lemma cbc_encrypt_decrypt key bs : forall iv,
  all_blocks bs -> length iv = AES_BLOCK_SIZE ->
  fst (cbc_encrypt EVP_aes_256_cbc key iv
         (blocks_of (fst (cbc_decrypt EVP_aes_256_cbc key iv bs))))
  = concat bs.
Proof.
  unfold all_blocks.
  induction bs as [|b bs IH]; intros iv Hbs Hiv.
  - reflexivity.
  - apply List.Forall_cons_iff in Hbs. destruct Hbs as [Hb Hbs].
    cbn [cbc_decrypt fst snd concat].
    assert (Hd : length (block_decrypt EVP_aes_256_cbc key b) = AES_BLOCK_SIZE)
      by (apply inv_cipher_length; exact Hb).
    rewrite blocks_of_app by (rewrite xor_list_length; lia).
    cbn [cbc_encrypt fst snd].
    rewrite xor_list_cancel by lia.
    change (block_encrypt EVP_aes_256_cbc key (block_decrypt EVP_aes_256_cbc key b))
      with (cipher key (inv_cipher key b)).
    rewrite cipher_inv_cipher by exact Hb.
    now rewrite (IH _ Hbs Hb).
Qed.

End CipherFacts.

(** ** Decryption of an arbitrary container *)

Module DecryptFacts.
Import Bytes BytesFacts EVPFacts ProgramFacts RoundTripFacts CipherFacts.

Lemma blocks_of_whole_app k : forall a b,
  length a = (AES_BLOCK_SIZE * k)%nat ->
  blocks_of (a ++ b) = blocks_of a ++ blocks_of b.
Proof.
  induction k as [|k IH]; intros a b Ha.
  - destruct a; [reflexivity|simpl in Ha; unfold AES_BLOCK_SIZE in Ha; lia].
  - rewrite <- (List.firstn_skipn AES_BLOCK_SIZE a).
    assert (Hf : length (firstn AES_BLOCK_SIZE a) = AES_BLOCK_SIZE)
      by (rewrite List.length_firstn; unfold AES_BLOCK_SIZE in *; lia).
    rewrite <- List.app_assoc.
    rewrite (blocks_of_app _ (skipn AES_BLOCK_SIZE a ++ b) Hf),
      (blocks_of_app _ (skipn AES_BLOCK_SIZE a) Hf).
    rewrite IH by (rewrite List.length_skipn; unfold AES_BLOCK_SIZE in *; lia).
    reflexivity.
Qed.

Lemma blocks_of_one b : length b = AES_BLOCK_SIZE -> blocks_of b = [b].
Proof.
  intros H. rewrite <- (List.app_nil_r b) at 1.
  now rewrite blocks_of_app.
Qed.

Lemma cbc_decrypted_length key ct k :
  length ct = (AES_BLOCK_SIZE + AES_BLOCK_SIZE * k)%nat ->
  length (cbc_decrypted key ct) = (AES_BLOCK_SIZE * k)%nat.
Proof.
  intros H. unfold cbc_decrypted.
  assert (Hb : length (skipn AES_BLOCK_SIZE ct) = (AES_BLOCK_SIZE * k)%nat)
    by (rewrite List.length_skipn; lia).
  destruct (blocks_of_spec k _ Hb) as (Hall & _ & Hn).
  rewrite (cbc_decrypt_length _ aes_256_cbc_good _ _ _ Hall), Hn; [reflexivity|].
  rewrite List.length_firstn. unfold AES_BLOCK_SIZE in *. lia.
Qed.

Lemma all_equal_repeat (x : byte) l :
  List.Forall (fun b => b = x) l -> l = repeat x (length l).
Proof.
  induction 1 as [|b l Hb _ IH]; [reflexivity|].
  cbn [length repeat]. now rewrite Hb, <- IH.
Qed.

(** A block that passes the padding check ends with [n] bytes of value [n]. *)
Lemma padding_length_shape final n :
  length final = AES_BLOCK_SIZE ->
  padding_length final = Some n ->
  final = firstn (AES_BLOCK_SIZE - n) final ++ repeat (of_Z (Z.of_nat n)) n.
Proof.
  intros Hlen H. pose proof (padding_length_bound _ _ H) as Hn. revert H.
  unfold padding_length.
  set (z := to_Z (nth (AES_BLOCK_SIZE - 1) final x00)).
  destruct (z =? 0) eqn:E0; [discriminate|].
  destruct (Z.of_nat AES_BLOCK_SIZE <? z) eqn:E1; [discriminate|].
  cbn [orb].
  destruct (forallb _ _) eqn:Ef; [|discriminate].
  intros [= <-].
  apply Z.eqb_neq in E0. apply Z.ltb_ge in E1.
  pose proof (to_Z_range (nth (AES_BLOCK_SIZE - 1) final x00)) as Hz. fold z in Hz.
  rewrite Z2Nat.id by lia.
  rewrite <- (List.firstn_skipn (AES_BLOCK_SIZE - Z.to_nat z) final) at 1.
  f_equal.
  assert (Hs : length (skipn (AES_BLOCK_SIZE - Z.to_nat z) final) = Z.to_nat z)
    by (rewrite List.length_skipn; lia).
  rewrite <- Hs at 2. apply all_equal_repeat.
  apply List.Forall_forall. intros b Hb.
  rewrite List.forallb_forall in Ef. specialize (Ef b Hb).
  apply Z.eqb_eq in Ef. rewrite <- Ef. symmetry. apply of_to_Z.
Qed.

(** Outcomes of [decryptDataWithIV] on any container whose cipher text
    length fits an [int]. *)
Lemma decrypt_returned ct key w P :
  Z.of_nat (length ct) - 16 <= INT_MAX ->
  fst (decryptDataWithIV ct key w) = Returned P ->
  exists k n,
    length ct = (AES_BLOCK_SIZE + AES_BLOCK_SIZE * S k)%nat
    /\ padding_length (final_block key ct) = Some n
    /\ P = firstn (AES_BLOCK_SIZE * S k - n) (cbc_decrypted key ct)
    /\ decryptDataWithIV ct key w
       = (Returned P, printed_iv "Extracted IV: " (firstn AES_BLOCK_SIZE ct) w).
Proof.
  intros Hmax H.
  destruct (Nat.lt_ge_cases (length ct) AES_BLOCK_SIZE) as [Hs|Hs].
  { rewrite decrypt_short in H by exact Hs. discriminate H. }
  destruct (Nat.eq_dec (length ct) AES_BLOCK_SIZE) as [He|He].
  { rewrite decrypt_misaligned in H by (try left; assumption). discriminate H. }
  destruct (Nat.eq_dec (length ct mod AES_BLOCK_SIZE)%nat 0%nat) as [Hm|Hm].
  2:{ rewrite decrypt_misaligned in H by (try right; assumption). discriminate H. }
  pose proof (Nat.div_mod_eq (length ct) AES_BLOCK_SIZE) as Hd.
  rewrite Hm, Nat.add_0_r in Hd.
  set (q := (length ct / AES_BLOCK_SIZE)%nat) in *.
  assert (Hk : length ct
               = (AES_BLOCK_SIZE + AES_BLOCK_SIZE * S (q - 2))%nat).
  { unfold AES_BLOCK_SIZE in *. lia. }
  exists (q - 2)%nat.
  rewrite (decrypt_spec ct key w _ Hk Hmax) in H |- *.
  destruct (padding_length (final_block key ct)) as [n|]; [|discriminate H].
  exists n. cbn [fst] in H. injection H as <-.
  replace (length ct - AES_BLOCK_SIZE - n)%nat
    with (AES_BLOCK_SIZE * S (q - 2) - n)%nat by lia.
  repeat split; assumption.
Qed.

(** The blocks that re-encryption of a decrypted plaintext feeds to the
    cipher are the decrypted blocks. *)
Lemma padded_blocks_decrypted (d : list byte) k n :
  length d = (AES_BLOCK_SIZE * S k)%nat ->
  padding_length (skipn (length d - AES_BLOCK_SIZE) d) = Some n ->
  padded_blocks (firstn (AES_BLOCK_SIZE * S k - n) d) = blocks_of d.
Proof.
  intros Hd Hp.
  pose proof (padding_length_bound _ _ Hp) as Hn.
  replace (length d - AES_BLOCK_SIZE)%nat with (AES_BLOCK_SIZE * k)%nat in Hp by lia.
  set (a := firstn (AES_BLOCK_SIZE * k) d).
  set (f := skipn (AES_BLOCK_SIZE * k) d) in *.
  assert (Ha : length a = (AES_BLOCK_SIZE * k)%nat)
    by (unfold a; rewrite List.length_firstn; lia).
  assert (Hf : length f = AES_BLOCK_SIZE)
    by (unfold f; rewrite List.length_skipn; lia).
  assert (Ed : d = a ++ f) by (symmetry; apply List.firstn_skipn).
  assert (EP : firstn (AES_BLOCK_SIZE * S k - n) d = a ++ firstn (AES_BLOCK_SIZE - n) f).
  { rewrite Ed at 1. rewrite List.firstn_app, Ha.
    rewrite List.firstn_all2 by lia. f_equal. f_equal. lia. }
  rewrite EP. unfold padded_blocks.
  assert (Hl : length (a ++ firstn (AES_BLOCK_SIZE - n) f)
               = (AES_BLOCK_SIZE * k + (AES_BLOCK_SIZE - n))%nat)
    by (rewrite List.length_app, List.length_firstn, Ha, Hf; lia).
  assert (Hw : whole_length (length (a ++ firstn (AES_BLOCK_SIZE - n) f))
               = (AES_BLOCK_SIZE * k)%nat).
  { rewrite Hl. unfold whole_length.
    rewrite (Nat.mul_comm AES_BLOCK_SIZE k), Nat.div_add_l by (unfold AES_BLOCK_SIZE; lia).
    rewrite (Nat.div_small (AES_BLOCK_SIZE - n)) by lia. lia. }
  rewrite Hw.
  rewrite (take_app_length' a _ _ (eq_sym Ha)), (drop_app_length' a _ _ (eq_sym Ha)).
  rewrite Ed, (blocks_of_whole_app k a f Ha), (blocks_of_one f Hf).
  do 2 f_equal. unfold padded_block.
  rewrite List.length_firstn, Hf.
  replace (AES_BLOCK_SIZE - Init.Nat.min (AES_BLOCK_SIZE - n) AES_BLOCK_SIZE)%nat
    with n by lia.
  symmetry. now apply padding_length_shape.
Qed.

(** Whatever [decryptDataWithIV] returns for a container encrypts, under
    the same key and the IV of the container, to that container. *)
Lemma encrypt_decrypted ct key w P w' :
  Z.of_nat (length ct) - 16 <= INT_MAX ->
  fst (decryptDataWithIV ct key w) = Returned P ->
  encryptDataWithIV P key (firstn AES_BLOCK_SIZE ct) w' = (Returned ct, w').
Proof.
  intros Hmax H.
  destruct (decrypt_returned ct key w P Hmax H) as (k & n & Hlen & Hp & EP & _).
  pose proof (padding_length_bound _ _ Hp) as Hn.
  pose proof (cbc_decrypted_length key ct (S k) Hlen) as Hd.
  assert (HP : length P = (AES_BLOCK_SIZE * S k - n)%nat)
    by (rewrite EP, List.length_firstn; lia).
  assert (Hint : to_int (Z.of_nat (length P)) = Z.of_nat (length P))
    by (apply to_int_small; unfold INT_MAX, AES_BLOCK_SIZE in *; lia).
  assert (Hiv : length (firstn AES_BLOCK_SIZE ct) = AES_BLOCK_SIZE)
    by (rewrite List.length_firstn; lia).
  rewrite encrypt_spec; rewrite ?Hint, ?Nat2Z.id; try lia.
  2:{ pose proof (whole_length_le (length P)).
      unfold INT_MAX, AES_BLOCK_SIZE in *. lia. }
  rewrite List.firstn_all, List.firstn_firstn, Nat.min_id.
  do 2 f_equal.
  rewrite <- (List.firstn_skipn AES_BLOCK_SIZE ct) at 3. f_equal.
  unfold cbc_pkcs7_encrypt. rewrite EP.
  unfold final_block in Hp.
  rewrite (padded_blocks_decrypted _ k n Hd Hp).
  unfold cbc_decrypted.
  rewrite List.firstn_firstn, Nat.min_id.
  assert (Hb : length (skipn AES_BLOCK_SIZE ct) = (AES_BLOCK_SIZE * S k)%nat)
    by (rewrite List.length_skipn; lia).
  destruct (blocks_of_spec (S k) _ Hb) as (Hall & Hcat & _).
  rewrite (cbc_encrypt_decrypt _ _ _ Hall Hiv). exact Hcat.
Qed.

(** *** A container whose IV was modified *)





End DecryptFacts.

(** ** Runs of [main] *)

Module RunFacts.
Import Bytes BytesFacts EVPFacts ProgramFacts RoundTripFacts KeyFacts FrameFacts
  MainFacts DecryptFacts.

Lemma main_accepts argv w o : accepts argv w o -> main argv w = process o w.
Proof. intros [H1 H2]. unfold main. now rewrite H1, H2. Qed.

Lemma accepts_decrypt argv w o :
  accepts argv w o -> encrypt o = false -> decrypt o = true.
Proof.
  intros [_ H] He. unfold refused in H. rewrite He in H.
  destruct (decrypt o); [reflexivity|discriminate H].
Qed.

Lemma resized_iv_length (v : list byte) : length (vector_resize v AES_BLOCK_SIZE) = AES_BLOCK_SIZE.
Proof.
  unfold vector_resize. rewrite List.length_app, List.length_firstn, zeros_length. lia.
Qed.

(** *** The transformation in memory *)

Lemma transform_missing o w :
  Z.of_nat (String.length (password o)) <= INT_MAX ->
  files w !! inputFile o = None ->
  transform o w = (Exited 1, cannot_open (inputFile o) w).
Proof.
  intros Hpw Hin. unfold transform.
  rewrite (bind_returned _ _ _ _ _ (generateKey_spec _ w Hpw)).
  unfold bind, readFile. now rewrite Hin.
Qed.

Lemma transform_rand_failure o w P :
  encrypt o = true ->
  Z.of_nat (String.length (password o)) <= INT_MAX ->
  files w !! inputFile o = Some P ->
  fst (RAND w) = 0 ->
  transform o w = (Aborted, errors_printed w).
Proof.
  intros He Hpw Hin Hrand. unfold transform.
  rewrite (bind_returned _ _ _ _ _ (generateKey_spec _ w Hpw)).
  assert (Hr : readFile (inputFile o) w = (Returned P, w))
    by (unfold readFile; now rewrite Hin).
  rewrite (bind_returned _ _ _ _ _ Hr), He.
  unfold RAND_bytes at 1. unfold bind at 1. now rewrite Hrand.
Qed.

Lemma transform_encrypts o w P :
  encrypt o = true ->
  Z.of_nat (String.length (password o)) <= INT_MAX ->
  files w !! inputFile o = Some P ->
  Z.of_nat (length P) < 2 ^ 31 - 16 ->
  fst (RAND w) <> 0 ->
  let iv := vector_resize (snd (RAND w)) AES_BLOCK_SIZE in
  transform o w
  = (Returned (iv ++ cbc_pkcs7_encrypt (derived_key (password o)) iv P),
     printed_iv "Generated IV: " iv w).
Proof.
  intros He Hpw Hin HP Hrand iv.
  assert (Hiv : length iv = AES_BLOCK_SIZE) by apply resized_iv_length.
  unfold transform.
  rewrite (bind_returned _ _ _ _ _ (generateKey_spec _ w Hpw)).
  assert (Hr : readFile (inputFile o) w = (Returned P, w))
    by (unfold readFile; now rewrite Hin).
  rewrite (bind_returned _ _ _ _ _ Hr), He.
  unfold RAND_bytes at 1. unfold bind at 1. fold iv.
  apply Z.eqb_neq in Hrand. rewrite Hrand.
  rewrite (bind_returned _ _ _ _ _ (print_iv_spec _ _ w)).
  assert (Hn : to_int (Z.of_nat (length P)) = Z.of_nat (length P))
    by (apply to_int_small; unfold INT_MAX; lia).
  rewrite encrypt_spec; rewrite ?Hn, ?Nat2Z.id; try lia.
  - rewrite List.firstn_all. rewrite <- Hiv at 1. now rewrite List.firstn_all.
  - now apply whole_length_bound.
Qed.

Lemma transform_decrypts o w ct :
  encrypt o = false -> decrypt o = true ->
  Z.of_nat (String.length (password o)) <= INT_MAX ->
  files w !! inputFile o = Some ct ->
  transform o w = decryptDataWithIV ct (derived_key (password o)) w.
Proof.
  intros He Hd Hpw Hin. unfold transform.
  rewrite (bind_returned _ _ _ _ _ (generateKey_spec _ w Hpw)).
  assert (Hr : readFile (inputFile o) w = (Returned ct, w))
    by (unfold readFile; now rewrite Hin).
  now rewrite (bind_returned _ _ _ _ _ Hr), He, Hd.
Qed.

(** *** Runs that stop *)

Lemma main_missing_input argv w o :
  accepts argv w o ->
  Z.of_nat (String.length (password o)) <= INT_MAX ->
  files w !! inputFile o = None ->
  main argv w = (Exited 1, cannot_open (inputFile o) w).
Proof.
  intros Ha Hpw Hin. rewrite (main_accepts _ _ _ Ha).
  pose proof (transform_missing o w Hpw Hin) as HT.
  rewrite process_stopped by (rewrite HT; discriminate).
  now rewrite HT.
Qed.

Lemma main_rand_failure argv w o P :
  accepts argv w o -> encrypt o = true ->
  Z.of_nat (String.length (password o)) <= INT_MAX ->
  files w !! inputFile o = Some P ->
  fst (RAND w) = 0 ->
  main argv w = (Aborted, errors_printed w).
Proof.
  intros Ha He Hpw Hin Hrand. rewrite (main_accepts _ _ _ Ha).
  pose proof (transform_rand_failure o w P He Hpw Hin Hrand) as HT.
  rewrite process_stopped by (rewrite HT; discriminate).
  now rewrite HT.
Qed.

(** *** Runs that reach [writeFile] *)

Lemma main_encrypts argv w o P :
  accepts argv w o -> encrypt o = true ->
  Z.of_nat (String.length (password o)) <= INT_MAX ->
  files w !! inputFile o = Some P ->
  Z.of_nat (length P) < 2 ^ 31 - 16 ->
  fst (RAND w) <> 0 ->
  let iv := vector_resize (snd (RAND w)) AES_BLOCK_SIZE in
  let c := iv ++ cbc_pkcs7_encrypt (derived_key (password o)) iv P in
  main argv w
  = if writable w (outputFile o)
    then (Returned 0, completed_run o "Generated IV: " iv c w)
    else (Exited 1, cannot_open (outputFile o) (printed_iv "Generated IV: " iv w)).
Proof.
  intros Ha He Hpw Hin HP Hrand iv c. rewrite (main_accepts _ _ _ Ha).
  rewrite (process_written _ _ _ _ (transform_encrypts o w P He Hpw Hin HP Hrand)).
  reflexivity.
Qed.

Lemma main_decrypts argv w o iv P :
  accepts argv w o -> encrypt o = false ->
  Z.of_nat (String.length (password o)) <= INT_MAX ->
  length iv = AES_BLOCK_SIZE ->
  Z.of_nat (length P) < 2 ^ 31 - 16 ->
  files w !! inputFile o
  = Some (iv ++ cbc_pkcs7_encrypt (derived_key (password o)) iv P) ->
  main argv w
  = if writable w (outputFile o)
    then (Returned 0, completed_run o "Extracted IV: " iv P w)
    else (Exited 1, cannot_open (outputFile o) (printed_iv "Extracted IV: " iv w)).
Proof.
  intros Ha He Hpw Hiv HP Hin. rewrite (main_accepts _ _ _ Ha).
  pose proof (accepts_decrypt _ _ _ Ha He) as Hd.
  assert (HT : transform o w = (Returned P, printed_iv "Extracted IV: " iv w)).
  { rewrite (transform_decrypts o w _ He Hd Hpw Hin).
    apply decrypt_container; [exact Hiv|now apply whole_length_bound]. }
  rewrite (process_written _ _ _ _ HT). reflexivity.
Qed.

(** *** What a run leaves unchanged when it returns *)

Section OnReturn.
Context {X : Type} (obs : world -> X).
Hypothesis obs_queue : forall q w, obs (set_err_queue q w) = obs w.
Hypothesis obs_cout : forall s w, obs (set_cout s w) = obs w.
Hypothesis obs_files : forall f w, obs (set_files f w) = obs w.

Lemma on_return_preserves {A} (m : M A) :
  preserves obs m -> preserves_on_return obs m.
Proof. intros H w a _. apply H. Qed.

Lemma on_return_never {A} (m : M A) :
  (forall w a, fst (m w) <> Returned a) -> preserves_on_return obs m.
Proof. intros H w a Hr. now contradiction (H w a). Qed.

Lemma on_return_bind {A B} (m : M A) (k : A -> M B) :
  preserves_on_return obs m -> (forall a, preserves_on_return obs (k a)) ->
  preserves_on_return obs (bind m k).
Proof.
  intros Hm Hk w b. unfold bind. specialize (Hm w).
  destruct (m w) as [[a| | |] w']; cbn [fst snd] in *; try discriminate.
  intros Hr. rewrite (Hk a w' b Hr). now apply (Hm a).
Qed.

Lemma on_return_handleErrors {A} : preserves_on_return obs (@handleErrors A).
Proof. apply on_return_never. intros w a. discriminate. Qed.

Lemma on_return_ret {A} (a : A) : preserves_on_return obs (ret a).
Proof. apply on_return_preserves, preserves_ret. Qed.

Lemma on_return_buffer_write buf off data :
  preserves_on_return obs (buffer_write buf off data).
Proof. apply on_return_preserves, preserves_buffer_write. Qed.

Lemma on_return_print_iv label iv : preserves_on_return obs (print_iv label iv).
Proof.
  apply on_return_preserves. unfold print_iv.
  repeat (apply preserves_bind; [intros w; apply obs_cout|intros ?]).
  intros w. apply obs_cout.
Qed.

Lemma on_return_generateKey pw :
  preserves_on_return obs (generateKeyFromPassword pw).
Proof.
  unfold generateKeyFromPassword.
  destruct (negb _); [apply on_return_handleErrors|apply on_return_ret].
Qed.

Lemma on_return_readFile name : preserves_on_return obs (readFile name).
Proof.
  intros w a. unfold readFile. destruct (files w !! name); [reflexivity|].
  discriminate.
Qed.

Lemma on_return_encrypt P key iv :
  preserves_on_return obs (encryptDataWithIV P key iv).
Proof.
  unfold encryptDataWithIV, EVP_EncryptInit_ex, EVP_EncryptUpdate, EVP_EncryptFinal_ex.
  apply on_return_bind; [apply on_return_ret|intros [ok ctx]].
  destruct (negb _); [apply on_return_handleErrors|].
  apply on_return_bind; [apply on_return_ret|intros [[ok1 out1] ctx1]].
  destruct (negb _); [apply on_return_handleErrors|].
  apply on_return_bind; [apply on_return_buffer_write|intros buf1].
  apply on_return_bind; [apply on_return_ret|intros [[ok2 out2] ctx2]].
  destruct (negb _); [apply on_return_handleErrors|].
  apply on_return_bind; [apply on_return_buffer_write|intros buf2].
  apply on_return_bind; [apply on_return_preserves, preserves_int_add|intros len].
  apply on_return_preserves, preserves_pack.
Qed.

Lemma on_return_decrypt ct key :
  preserves_on_return obs (decryptDataWithIV ct key).
Proof.
  unfold decryptDataWithIV, EVP_DecryptInit_ex, EVP_DecryptUpdate.
  apply on_return_bind; [apply on_return_preserves, preserves_unpack|intros [iv body]].
  apply on_return_bind; [apply on_return_print_iv|intros _].
  apply on_return_bind; [apply on_return_ret|intros [ok ctx]].
  destruct (negb _); [apply on_return_handleErrors|].
  cbv zeta.
  apply on_return_bind; [apply on_return_ret|intros [[ok1 out1] ctx1]].
  destruct (negb _); [apply on_return_handleErrors|].
  apply on_return_bind; [apply on_return_buffer_write|intros buf1].
  apply on_return_bind;
    [apply on_return_preserves, preserves_DecryptFinal, obs_queue
    |intros [[ok2 out2] ctx2]].
  destruct (negb _); [apply on_return_handleErrors|].
  apply on_return_bind; [apply on_return_buffer_write|intros buf2].
  apply on_return_bind; [apply on_return_preserves, preserves_int_add|intros len].
  apply on_return_ret.
Qed.

Lemma on_return_transform o : preserves_on_return obs (transform o).
Proof.
  unfold transform.
  apply on_return_bind; [apply on_return_generateKey|intros key].
  apply on_return_bind; [apply on_return_readFile|intros data].
  destruct (encrypt o).
  - apply on_return_bind;
      [apply on_return_preserves, preserves_RAND_bytes|intros [ok iv]].
    destruct (ok =? 0); [apply on_return_handleErrors|].
    apply on_return_bind; [apply on_return_print_iv|intros _].
    apply on_return_encrypt.
  - destruct (decrypt o); [apply on_return_decrypt|apply on_return_ret].
Qed.

Lemma on_return_process o : preserves_on_return obs (process o).
Proof.
  unfold process.
  apply on_return_bind; [apply on_return_transform|intros data].
  apply on_return_bind.
  - intros w a. unfold writeFile.
    destruct (writable w (outputFile o)); [intros _; apply obs_files|discriminate].
  - intros _. apply on_return_bind; [|intros _; apply on_return_ret].
    apply on_return_preserves. intros w. apply obs_cout.
Qed.

End OnReturn.

(** *** Encryption as a function of the plaintext *)



Lemma encrypt_returns P key iv w :
  length iv = AES_BLOCK_SIZE ->
  Z.of_nat (length P) < 2 ^ 31 - 16 ->
  encryptDataWithIV P key iv w = (Returned (iv ++ cbc_pkcs7_encrypt key iv P), w).
Proof.
  intros Hiv HP.
  assert (Hn : to_int (Z.of_nat (length P)) = Z.of_nat (length P))
    by (apply to_int_small; unfold INT_MAX; lia).
  rewrite encrypt_spec; rewrite ?Hn, ?Nat2Z.id; try lia.
  - rewrite List.firstn_all. rewrite <- Hiv at 1. now rewrite List.firstn_all.
  - now apply whole_length_bound.
Qed.

Lemma whole_length_large n :
  2 ^ 31 - 16 <= Z.of_nat n -> 2 ^ 31 - 16 <= Z.of_nat (whole_length n).
Proof.
  intros H. unfold whole_length, AES_BLOCK_SIZE.
  rewrite Nat2Z.inj_mul, Nat2Z.inj_div. change (Z.of_nat 16) with 16.
  assert (134217727 <= Z.of_nat n / 16).
  { apply Z.div_le_lower_bound; lia. }
  lia.
Qed.

(** *** The hexadecimal dump *)

(** A byte is printed as one or two characters, none of them a space. *)
Lemma hex_of_byte_shape b :
  match hex_of_byte b with
  | String c EmptyString => c <> " "%char
  | String c (String d EmptyString) => c <> " "%char /\ d <> " "%char
  | _ => False
  end.
Proof. destruct b; cbv; repeat split; discriminate. Qed.

Lemma hex_of_byte_inj a b : hex_of_byte a = hex_of_byte b -> a = b.
Proof.
  intros H. apply Byte.byte_dec_bl.
  assert (Hc : implb (String.eqb (hex_of_byte a) (hex_of_byte b)) (Byte.eqb a b) = true).
  { apply (AESFacts.forall_bytes2
             (fun a b => implb (String.eqb (hex_of_byte a) (hex_of_byte b)) (Byte.eqb a b))).
    vm_compute. reflexivity. }
  apply String.eqb_eq in H. rewrite H in Hc. exact Hc.
Qed.

Lemma hex_dump_cons_inj a b (s t : string) :
  (hex_of_byte a ++ " " ++ s)%string = (hex_of_byte b ++ " " ++ t)%string ->
  a = b /\ s = t.
Proof.
  intros H.
  pose proof (hex_of_byte_shape a) as Ha. pose proof (hex_of_byte_shape b) as Hb.
  pose proof (hex_of_byte_inj a b) as Hinj.
  destruct (hex_of_byte a) as [|a1 [|a2 [|? ?]]]; cbn in Ha; try contradiction;
    destruct (hex_of_byte b) as [|b1 [|b2 [|? ?]]]; cbn in Hb; try contradiction;
    cbv [String.append] in H; injection H as ?; subst.
  - split; [now apply Hinj|reflexivity].
  - now destruct Hb.
  - now destruct Ha.
  - split; [now apply Hinj|reflexivity].
Qed.

(** *** Exit statuses *)

Lemma never_exits {A} (m : M A) s0 :
  (forall w s, fst (m w) <> Exited s) -> exits_only_with s0 m.
Proof. intros H w s Hs. now contradiction (H w s). Qed.

Lemma exits_bind {A B} (m : M A) (k : A -> M B) s0 :
  exits_only_with s0 m -> (forall a, exits_only_with s0 (k a)) ->
  exits_only_with s0 (bind m k).
Proof.
  intros Hm Hk w s. unfold bind. specialize (Hm w).
  destruct (m w) as [[a| | |] w']; cbn [fst snd] in *; try discriminate.
  - apply Hk.
  - intros [= <-]. now apply Hm.
Qed.

Lemma exits_ret {A} (a : A) s0 : exits_only_with s0 (ret a).
Proof. apply never_exits. discriminate. Qed.

Lemma exits_handleErrors {A} s0 : exits_only_with s0 (@handleErrors A).
Proof. apply never_exits. discriminate. Qed.

Lemma exits_buffer_write buf off data s0 :
  exits_only_with s0 (buffer_write buf off data).
Proof.
  apply never_exits. intros w s. unfold buffer_write.
  destruct (store buf off data); discriminate.
Qed.

Lemma exits_int_add a b s0 : exits_only_with s0 (int_add a b).
Proof.
  apply never_exits. intros w s. unfold int_add. destruct (_ && _); discriminate.
Qed.

Lemma exits_print_iv label iv s0 : exits_only_with s0 (print_iv label iv).
Proof. apply never_exits. discriminate. Qed.

Lemma exits_pack iv ct s0 : exits_only_with s0 (pack iv ct).
Proof.
  unfold pack.
  repeat (apply exits_bind; [apply exits_buffer_write|intros ?]).
  apply exits_ret.
Qed.

Lemma exits_DecryptFinal ctx s0 : exits_only_with s0 (EVP_DecryptFinal_ex ctx).
Proof.
  apply never_exits. intros w s. unfold EVP_DecryptFinal_ex.
  destruct (ctx_buf ctx), (ctx_final_used ctx);
    try destruct (padding_length _); discriminate.
Qed.

Lemma exits_encrypt P key iv s0 : exits_only_with s0 (encryptDataWithIV P key iv).
Proof.
  unfold encryptDataWithIV, EVP_EncryptInit_ex, EVP_EncryptUpdate, EVP_EncryptFinal_ex.
  apply exits_bind; [apply exits_ret|intros [ok ctx]].
  destruct (negb _); [apply exits_handleErrors|].
  apply exits_bind; [apply exits_ret|intros [[ok1 out1] ctx1]].
  destruct (negb _); [apply exits_handleErrors|].
  apply exits_bind; [apply exits_buffer_write|intros buf1].
  apply exits_bind; [apply exits_ret|intros [[ok2 out2] ctx2]].
  destruct (negb _); [apply exits_handleErrors|].
  apply exits_bind; [apply exits_buffer_write|intros buf2].
  apply exits_bind; [apply exits_int_add|intros len].
  apply exits_pack.
Qed.

Lemma exits_decrypt ct key s0 : exits_only_with s0 (decryptDataWithIV ct key).
Proof.
  unfold decryptDataWithIV, EVP_DecryptInit_ex, EVP_DecryptUpdate.
  apply exits_bind.
  { apply never_exits. intros w s. unfold unpack, vector_read, bind.
    destruct (_ <=? _)%nat; discriminate. }
  intros [iv body].
  apply exits_bind; [apply exits_print_iv|intros _].
  apply exits_bind; [apply exits_ret|intros [ok ctx]].
  destruct (negb _); [apply exits_handleErrors|].
  cbv zeta.
  apply exits_bind; [apply exits_ret|intros [[ok1 out1] ctx1]].
  destruct (negb _); [apply exits_handleErrors|].
  apply exits_bind; [apply exits_buffer_write|intros buf1].
  apply exits_bind; [apply exits_DecryptFinal|intros [[ok2 out2] ctx2]].
  destruct (negb _); [apply exits_handleErrors|].
  apply exits_bind; [apply exits_buffer_write|intros buf2].
  apply exits_bind; [apply exits_int_add|intros len].
  apply exits_ret.
Qed.

Lemma exits_transform o : exits_only_with 1 (transform o).
Proof.
  unfold transform.
  apply exits_bind.
  { unfold generateKeyFromPassword.
    destruct (negb _); [apply exits_handleErrors|apply exits_ret]. }
  intros key. apply exits_bind.
  { intros w s. unfold readFile. destruct (files w !! inputFile o); [discriminate|].
    cbn. now intros [= <-]. }
  intros data. destruct (encrypt o).
  - apply exits_bind; [apply never_exits; discriminate|intros [ok iv]].
    destruct (ok =? 0); [apply exits_handleErrors|].
    apply exits_bind; [apply exits_print_iv|intros _].
    apply exits_encrypt.
  - destruct (decrypt o); [apply exits_decrypt|apply exits_ret].
Qed.

(** *** The command line of the usage text *)

Lemma usage_line_loop prog e i o p rest w :
  option_loop (getopt_returns (usage_line prog e i o p) w) no_options
  = inl (Options i o p e (negb e))
  /\ getopt_returns (usage_line prog e i o p ++ "--"%string :: rest) w
     = getopt_returns (usage_line prog e i o p) w.
Proof.
  unfold getopt_returns. generalize (posixly_correct w). intros posix.
  destruct e; split; vm_compute; reflexivity.
Qed.

Lemma string_empty_false s : s <> EmptyString -> string_empty s = false.
Proof. intros H. unfold string_empty. now apply String.eqb_neq. Qed.

(** *** Where a run is aborted *)

Lemma never_aborts {A} (m : M A) :
  (forall w, fst (m w) <> Aborted) -> aborts_in_handleErrors m.
Proof. intros H w Ha. now contradiction (H w). Qed.

Lemma aborts_bind {A B} (m : M A) (k : A -> M B) :
  aborts_in_handleErrors m -> (forall a, aborts_in_handleErrors (k a)) ->
  aborts_in_handleErrors (bind m k).
Proof.
  intros Hm Hk w. unfold bind. specialize (Hm w).
  destruct (m w) as [[a| | |] w']; cbn [fst snd] in *; try discriminate.
  - apply Hk.
  - intros _. now apply Hm.
Qed.

Lemma aborts_ret {A} (a : A) : aborts_in_handleErrors (ret a).
Proof. apply never_aborts. discriminate. Qed.

Lemma aborts_handleErrors {A} : aborts_in_handleErrors (@handleErrors A).
Proof. intros w _. exists w. reflexivity. Qed.

Lemma aborts_buffer_write buf off data :
  aborts_in_handleErrors (buffer_write buf off data).
Proof.
  apply never_aborts. intros w. unfold buffer_write.
  destruct (store buf off data); discriminate.
Qed.

Lemma aborts_int_add a b : aborts_in_handleErrors (int_add a b).
Proof.
  apply never_aborts. intros w. unfold int_add. destruct (_ && _); discriminate.
Qed.

Lemma aborts_print_iv label iv : aborts_in_handleErrors (print_iv label iv).
Proof. apply never_aborts. discriminate. Qed.

Lemma aborts_pack iv ct : aborts_in_handleErrors (pack iv ct).
Proof.
  unfold pack.
  repeat (apply aborts_bind; [apply aborts_buffer_write|intros ?]).
  apply aborts_ret.
Qed.

Lemma aborts_DecryptFinal ctx : aborts_in_handleErrors (EVP_DecryptFinal_ex ctx).
Proof.
  apply never_aborts. intros w. unfold EVP_DecryptFinal_ex.
  destruct (ctx_buf ctx), (ctx_final_used ctx);
    try destruct (padding_length _); discriminate.
Qed.

Lemma aborts_encrypt P key iv : aborts_in_handleErrors (encryptDataWithIV P key iv).
Proof.
  unfold encryptDataWithIV, EVP_EncryptInit_ex, EVP_EncryptUpdate, EVP_EncryptFinal_ex.
  apply aborts_bind; [apply aborts_ret|intros [ok ctx]].
  destruct (negb _); [apply aborts_handleErrors|].
  apply aborts_bind; [apply aborts_ret|intros [[ok1 out1] ctx1]].
  destruct (negb _); [apply aborts_handleErrors|].
  apply aborts_bind; [apply aborts_buffer_write|intros buf1].
  apply aborts_bind; [apply aborts_ret|intros [[ok2 out2] ctx2]].
  destruct (negb _); [apply aborts_handleErrors|].
  apply aborts_bind; [apply aborts_buffer_write|intros buf2].
  apply aborts_bind; [apply aborts_int_add|intros len].
  apply aborts_pack.
Qed.

Lemma aborts_decrypt ct key : aborts_in_handleErrors (decryptDataWithIV ct key).
Proof.
  unfold decryptDataWithIV, EVP_DecryptInit_ex, EVP_DecryptUpdate.
  apply aborts_bind.
  { apply never_aborts. intros w. unfold unpack, vector_read, bind.
    destruct (_ <=? _)%nat; discriminate. }
  intros [iv body].
  apply aborts_bind; [apply aborts_print_iv|intros _].
  apply aborts_bind; [apply aborts_ret|intros [ok ctx]].
  destruct (negb _); [apply aborts_handleErrors|].
  cbv zeta.
  apply aborts_bind; [apply aborts_ret|intros [[ok1 out1] ctx1]].
  destruct (negb _); [apply aborts_handleErrors|].
  apply aborts_bind; [apply aborts_buffer_write|intros buf1].
  apply aborts_bind; [apply aborts_DecryptFinal|intros [[ok2 out2] ctx2]].
  destruct (negb _); [apply aborts_handleErrors|].
  apply aborts_bind; [apply aborts_buffer_write|intros buf2].
  apply aborts_bind; [apply aborts_int_add|intros len].
  apply aborts_ret.
Qed.

Lemma aborts_transform o : aborts_in_handleErrors (transform o).
Proof.
  unfold transform.
  apply aborts_bind.
  { unfold generateKeyFromPassword.
    destruct (negb _); [apply aborts_handleErrors|apply aborts_ret]. }
  intros key. apply aborts_bind.
  { apply never_aborts. intros w. unfold readFile.
    destruct (files w !! inputFile o); discriminate. }
  intros data. destruct (encrypt o).
  - apply aborts_bind; [apply never_aborts; discriminate|intros [ok iv]].
    destruct (ok =? 0); [apply aborts_handleErrors|].
    apply aborts_bind; [apply aborts_print_iv|intros _].
    apply aborts_encrypt.
  - destruct (decrypt o); [apply aborts_decrypt|apply aborts_ret].
Qed.

(** *** Why a run ends as it does *)

Lemma generateKey_cases pw w :
  (exists key, generateKeyFromPassword pw w = (Returned key, w))
  \/ fst (generateKeyFromPassword pw w) = Aborted.
Proof.
  unfold generateKeyFromPassword.
  destruct (negb _); [right; reflexivity|left; eexists; reflexivity].
Qed.

(** [exit] inside the transformation means that the input file could not
    be opened. *)
Lemma transform_exit_cause o w s :
  fst (transform o w) = Exited s -> files w !! inputFile o = None.
Proof.
  intros H. destruct (files w !! inputFile o) as [data|] eqn:F; [exfalso|reflexivity].
  unfold transform in H.
  destruct (generateKey_cases (password o) w) as [[key G]|G].
  - rewrite (bind_returned _ _ _ _ _ G) in H.
    assert (Hr : readFile (inputFile o) w = (Returned data, w))
      by (unfold readFile; now rewrite F).
    rewrite (bind_returned _ _ _ _ _ Hr) in H.
    assert (Hs : s = s + 1); [|lia].
    destruct (encrypt o).
    + match type of H with
      | fst (?m w) = _ => assert (X : exits_only_with (s + 1) m)
      end.
      { apply exits_bind; [apply never_exits; discriminate|intros [ok iv]].
        destruct (ok =? 0); [apply exits_handleErrors|].
        apply exits_bind; [apply exits_print_iv|intros _].
        apply exits_encrypt. }
      exact (X w s H).
    + destruct (decrypt o); [|discriminate H].
      apply (exits_decrypt data key (s + 1) w s H).
  - unfold bind in H.
    destruct (generateKeyFromPassword (password o) w) as [[key| | |] w0];
      cbn [fst] in G, H; discriminate.
Qed.

(** The transformation returns only if the input file could be opened. *)
Lemma transform_return_cause o w data :
  fst (transform o w) = Returned data -> files w !! inputFile o <> None.
Proof.
  intros H F. unfold transform in H.
  destruct (generateKey_cases (password o) w) as [[key G]|G].
  - rewrite (bind_returned _ _ _ _ _ G) in H.
    unfold bind, readFile in H. rewrite F in H. discriminate H.
  - unfold bind in H.
    destruct (generateKeyFromPassword (password o) w) as [[key| | |] w0];
      cbn [fst] in G, H; discriminate.
Qed.

(** The ways in which [process] ends, with their causes. *)
Lemma process_ends o w :
  (fst (process o w) = Returned 0
   /\ files w !! inputFile o <> None /\ writable w (outputFile o) = true)
  \/ (fst (process o w) = Exited 1
      /\ (files w !! inputFile o = None \/ writable w (outputFile o) = false))
  \/ (fst (process o w) = Aborted
      /\ exists w1, snd (process o w) = errors_printed w1)
  \/ fst (process o w) = Undefined.
Proof.
  pose proof (preserves_transform writable (fun _ _ => eq_refl) (fun _ _ => eq_refl)
                (fun _ _ => eq_refl) o w) as Hw.
  pose proof (transform_exit_cause o w) as Hexit.
  pose proof (transform_return_cause o w) as Hret.
  pose proof (exits_transform o w) as Hone.
  pose proof (aborts_transform o w) as Habort.
  destruct (transform o w) as [r w1] eqn:E. cbn [fst snd] in *.
  destruct r as [data|s| |].
  - rewrite (process_written o w data w1 E), Hw.
    destruct (writable w (outputFile o)).
    + left. cbn [fst]. repeat split. now apply (Hret data).
    + right; left. cbn [fst]. split; [reflexivity|now right].
  - rewrite process_stopped by (rewrite E; discriminate). rewrite E. cbn [fst snd].
    right; left. rewrite (Hone s eq_refl). split; [reflexivity|left; now apply (Hexit s)].
  - rewrite process_stopped by (rewrite E; discriminate). rewrite E. cbn [fst snd].
    right; right; left. split; [reflexivity|now apply Habort].
  - rewrite process_stopped by (rewrite E; discriminate). rewrite E.
    right; right; right. reflexivity.
Qed.

Lemma accepts_unique argv w o1 o2 : accepts argv w o1 -> accepts argv w o2 -> o1 = o2.
Proof. intros [H1 _] [H2 _]. rewrite H1 in H2. now injection H2. Qed.

(** [main] returns 1 exactly when the arguments are not accepted. *)
Lemma main_refuses argv w :
  (forall o, ~ accepts argv w o) ->
  main argv w = (Returned 1, snd (main argv w)).
Proof.
  intros H. unfold main.
  destruct (option_loop (getopt_returns argv w) no_options) as [o|d] eqn:E.
  - destruct (refused o) eqn:R; [reflexivity|].
    exfalso. apply (H o). now split.
  - destruct d; reflexivity.
Qed.

End RunFacts.

(** ** Behaviour of the program beyond the claims *)

Module Behaviour.
Import Bytes BytesFacts EVPFacts ProgramFacts RoundTripFacts KeyFacts FrameFacts
  MainFacts DecryptFacts RunFacts.

Lemma accepts_encrypt_line w :
  posixly_correct w = false -> accepts encrypt_line w encrypt_options.
Proof.
  intros H. split; [|reflexivity].
  unfold getopt_returns. rewrite H. vm_compute. reflexivity.
Qed.

Lemma secret_length : Z.of_nat (String.length "secret") <= INT_MAX.
Proof. vm_compute. discriminate. Qed.

Lemma hello_world_length : Z.of_nat (length hello_world) < 2 ^ 31 - 16.
Proof. vm_compute. reflexivity. Qed.

Lemma sample_iv_resized : vector_resize sample_iv AES_BLOCK_SIZE = sample_iv.
Proof. reflexivity. Qed.

(** X3. A run whose arguments are accepted and whose input file cannot be
    opened prints "Cannot open file: " and the name to standard error and
    exits with status 1; it prints nothing to standard output and leaves
    the files as they were. *)
Theorem missing_input_reported (argv : list string) (w : world) (o : options) :
  accepts argv w o ->
  Z.of_nat (String.length (password o)) <= INT_MAX ->
  files w !! inputFile o = None ->
  main argv w = (Exited 1, cannot_open (inputFile o) w)
  /\ cerr (snd (main argv w))
     = cerr w ++ [Message ("Cannot open file: " ++ inputFile o ++ endl)]
  /\ cout (snd (main argv w)) = cout w
  /\ files (snd (main argv w)) = files w.
Proof.
  intros Ha Hpw Hin. rewrite (main_missing_input argv w o Ha Hpw Hin).
  repeat split.
Qed.

Lemma missing_input_reported_sample :
  main missing_input sample_world
  = (Exited 1, cannot_open (inputFile absent_options) sample_world)
  /\ cerr (snd (main missing_input sample_world))
     = cerr sample_world
       ++ [Message ("Cannot open file: " ++ inputFile absent_options ++ endl)]
  /\ cout (snd (main missing_input sample_world)) = cout sample_world
  /\ files (snd (main missing_input sample_world)) = files sample_world.
Proof.
  apply (missing_input_reported missing_input sample_world absent_options).
  - split; vm_compute; reflexivity.
  - apply secret_length.
  - vm_compute. reflexivity.
Defined.



(** X5. A complete encryption run. With the arguments accepted, the input
    file holding fewer than 2^31 - 16 bytes, [RAND_bytes] returning
    anything but 0 and the output file writable, [main] returns 0; the
    output file holds the 16 bytes of the IV followed by the cipher text,
    16 + (n/16 + 1)*16 bytes in all; standard output receives the line
    "Generated IV: " with that same IV and the completion line; the rest of
    the world is unchanged. *)
Theorem encryption_run
    (argv : list string) (w : world) (o : options) (P : list byte) :
  accepts argv w o -> encrypt o = true ->
  Z.of_nat (String.length (password o)) <= INT_MAX ->
  files w !! inputFile o = Some P ->
  Z.of_nat (length P) < 2 ^ 31 - 16 ->
  fst (RAND w) <> 0 ->
  writable w (outputFile o) = true ->
  let iv := vector_resize (snd (RAND w)) AES_BLOCK_SIZE in
  let c := iv ++ cbc_pkcs7_encrypt (derived_key (password o)) iv P in
  main argv w = (Returned 0, completed_run o "Generated IV: " iv c w)
  /\ files (snd (main argv w)) !! outputFile o = Some c
  /\ length c = (16 + (length P / 16 + 1) * 16)%nat
  /\ firstn AES_BLOCK_SIZE c = iv.
Proof.
  intros Ha He Hpw Hin HP Hrand Hw iv c.
  assert (Hiv : length iv = AES_BLOCK_SIZE) by apply resized_iv_length.
  rewrite (main_encrypts argv w o P Ha He Hpw Hin HP Hrand), Hw. fold iv c.
  split; [reflexivity|split; [|split]].
  - apply lookup_insert_eq.
  - unfold c. rewrite List.length_app, cbc_pkcs7_encrypt_length, Hiv by lia.
    unfold whole_length, AES_BLOCK_SIZE. lia.
  - unfold c. now apply take_app_length'.
Qed.

Lemma encryption_run_sample :
  let c := sample_iv
           ++ cbc_pkcs7_encrypt (derived_key (password encrypt_options))
                sample_iv hello_world in
  main encrypt_line sample_world
  = (Returned 0, completed_run encrypt_options "Generated IV: " sample_iv c sample_world)
  /\ files (snd (main encrypt_line sample_world)) !! outputFile encrypt_options = Some c
  /\ length c = (16 + (length hello_world / 16 + 1) * 16)%nat
  /\ firstn AES_BLOCK_SIZE c = sample_iv.
Proof.
  apply (encryption_run encrypt_line sample_world encrypt_options hello_world).
  - apply accepts_encrypt_line. reflexivity.
  - reflexivity.
  - apply secret_length.
  - vm_compute. reflexivity.
  - apply hello_world_length.
  - vm_compute. discriminate.
  - reflexivity.
Defined.

(** X6. When [RAND_bytes] returns 0 an encryption run aborts in
    [handleErrors]: the OpenSSL error queue is printed to standard error,
    no IV is printed, and no file is written. *)
Theorem rand_failure_aborts
    (argv : list string) (w : world) (o : options) (P : list byte) :
  accepts argv w o -> encrypt o = true ->
  Z.of_nat (String.length (password o)) <= INT_MAX ->
  files w !! inputFile o = Some P ->
  fst (RAND w) = 0 ->
  main argv w = (Aborted, errors_printed w)
  /\ cout (snd (main argv w)) = cout w
  /\ files (snd (main argv w)) = files w.
Proof.
  intros Ha He Hpw Hin Hrand.
  rewrite (main_rand_failure argv w o P Ha He Hpw Hin Hrand).
  repeat split.
Qed.

Lemma rand_failure_sample :
  main encrypt_line no_random_world = (Aborted, errors_printed no_random_world)
  /\ cout (snd (main encrypt_line no_random_world)) = cout no_random_world
  /\ files (snd (main encrypt_line no_random_world)) = files no_random_world.
Proof.
  apply (rand_failure_aborts encrypt_line no_random_world encrypt_options hello_world).
  - apply accepts_encrypt_line. reflexivity.
  - reflexivity.
  - apply secret_length.
  - vm_compute. reflexivity.
  - reflexivity.
Defined.

(** X7. Whatever the command line and however the run ends, [main] changes
    no file other than the one named by -o. *)
Theorem only_output_file_changes (argv : list string) (w : world) (f : string) :
  (forall o, option_loop (getopt_returns argv w) no_options = inl o ->
             f <> outputFile o) ->
  files (snd (main argv w)) !! f = files w !! f.
Proof.
  intros H. unfold main.
  destruct (option_loop (getopt_returns argv w) no_options) as [o|d] eqn:E.
  - destruct (refused o); [reflexivity|].
    destruct (process_cases o w) as [(data & w1 & _ & _ & Hf)|[_ Hf]]; rewrite Hf.
    + apply lookup_insert_ne. intros Heq. now apply (H o eq_refl).
    + reflexivity.
  - destruct d; reflexivity.
Qed.

Lemma only_output_file_changes_sample :
  files (snd (main encrypt_line sample_world)) !! ("in.bin" : string)
  = files sample_world !! ("in.bin" : string).
Proof.
  apply (only_output_file_changes encrypt_line sample_world "in.bin").
  intros o H. destruct (accepts_encrypt_line sample_world eq_refl) as [E _].
  rewrite E in H. injection H as <-. discriminate.
Defined.

(** X8. A run of [main] that returns 0 has written nothing to standard
    error. *)
Theorem success_is_silent (argv : list string) (w : world) :
  fst (main argv w) = Returned 0 -> cerr (snd (main argv w)) = cerr w.
Proof.
  unfold main.
  destruct (option_loop (getopt_returns argv w) no_options) as [o|d].
  - destruct (refused o); [discriminate|].
    apply (on_return_process cerr); reflexivity.
  - destruct d; discriminate.
Qed.

Lemma success_is_silent_sample :
  cerr (snd (main encrypt_line sample_world)) = cerr sample_world.
Proof.
  apply (success_is_silent encrypt_line sample_world).
  rewrite (main_encrypts encrypt_line sample_world encrypt_options hello_world
             (accepts_encrypt_line sample_world eq_refl) eq_refl secret_length
             eq_refl hello_world_length ltac:(vm_compute; discriminate)).
  reflexivity.
Defined.

(** X9. What [decryptDataWithIV] can return. For a container whose cipher
    text length fits an [int], a returned plaintext means that the
    container is a whole number of blocks, at least two, that the last
    decrypted block ends in valid padding of [n] bytes, and that the
    plaintext is the decrypted cipher text without those [n] bytes: it is
    between 17 and 32 bytes shorter than the container. *)
Theorem decrypt_result_bounds (ct K : list byte) (w : world) (P : list byte) :
  Z.of_nat (length ct) - 16 <= INT_MAX ->
  fst (decryptDataWithIV ct K w) = Returned P ->
  (length ct mod AES_BLOCK_SIZE = 0)%nat
  /\ (2 * AES_BLOCK_SIZE <= length ct)%nat
  /\ exists n,
       (1 <= n <= AES_BLOCK_SIZE)%nat
       /\ padding_length (final_block K ct) = Some n
       /\ P = firstn (length ct - AES_BLOCK_SIZE - n) (cbc_decrypted K ct)
       /\ length P = (length ct - AES_BLOCK_SIZE - n)%nat.
Proof.
  intros Hmax H.
  destruct (decrypt_returned ct K w P Hmax H) as (k & n & Hlen & Hp & EP & _).
  pose proof (padding_length_bound _ _ Hp) as Hn.
  pose proof (cbc_decrypted_length K ct (S k) Hlen) as Hd.
  split; [|split].
  - rewrite Hlen.
    replace (AES_BLOCK_SIZE + AES_BLOCK_SIZE * S k)%nat
      with ((S (S k)) * AES_BLOCK_SIZE)%nat by lia.
    apply Nat.Div0.mod_mul.
  - unfold AES_BLOCK_SIZE in *. lia.
  - exists n. repeat split; try lia; try assumption.
    + rewrite EP. f_equal. lia.
    + rewrite EP, List.length_firstn. lia.
Qed.

Lemma decrypt_result_bounds_sample :
  let ct := sample_iv ++ cbc_pkcs7_encrypt sample_key sample_iv hello_world in
  (length ct mod AES_BLOCK_SIZE = 0)%nat
  /\ (2 * AES_BLOCK_SIZE <= length ct)%nat
  /\ exists n,
       (1 <= n <= AES_BLOCK_SIZE)%nat
       /\ padding_length (final_block sample_key ct) = Some n
       /\ hello_world
          = firstn (length ct - AES_BLOCK_SIZE - n) (cbc_decrypted sample_key ct)
       /\ length hello_world = (length ct - AES_BLOCK_SIZE - n)%nat.
Proof.
  apply (decrypt_result_bounds
           (sample_iv ++ cbc_pkcs7_encrypt sample_key sample_iv hello_world)
           sample_key sample_world hello_world).
  - vm_compute. discriminate.
  - vm_compute. reflexivity.
Defined.

(** X10. Decryption followed by encryption: whatever [decryptDataWithIV]
    returns for a container encrypts, under the same key and the IV of the
    container, to exactly that container. *)
Theorem decrypted_plaintext_reencrypts
    (ct K : list byte) (w : world) (P : list byte) (w' : world) :
  Z.of_nat (length ct) - 16 <= INT_MAX ->
  fst (decryptDataWithIV ct K w) = Returned P ->
  encryptDataWithIV P K (firstn AES_BLOCK_SIZE ct) w' = (Returned ct, w').
Proof.
  intros Hmax H. now apply (encrypt_decrypted ct K w P w').
Qed.

Lemma decrypted_plaintext_reencrypts_sample :
  let ct := sample_iv ++ cbc_pkcs7_encrypt sample_key sample_iv one_block in
  encryptDataWithIV one_block sample_key (firstn AES_BLOCK_SIZE ct) read_only_world
  = (Returned ct, read_only_world).
Proof.
  apply (decrypted_plaintext_reencrypts
           (sample_iv ++ cbc_pkcs7_encrypt sample_key sample_iv one_block)
           sample_key sample_world one_block read_only_world).
  - vm_compute. discriminate.
  - vm_compute. reflexivity.
Defined.

(** X11. Under one key and one IV, plaintexts that differ never encrypt to
    the same container (plaintexts shorter than 2^31 - 16 bytes). *)
Theorem distinct_plaintexts_distinct_containers
    (P1 P2 K iv : list byte) (w1 w2 : world) :
  length iv = AES_BLOCK_SIZE ->
  Z.of_nat (length P1) < 2 ^ 31 - 16 ->
  Z.of_nat (length P2) < 2 ^ 31 - 16 ->
  P1 <> P2 ->
  fst (encryptDataWithIV P1 K iv w1) <> fst (encryptDataWithIV P2 K iv w2).
Proof.
  intros Hiv H1 H2 Hne.
  rewrite (encrypt_returns P1 K iv w1 Hiv H1), (encrypt_returns P2 K iv w2 Hiv H2).
  cbn [fst]. intros [= E]. apply Hne.
  pose proof (decrypt_container K iv P1 w1 Hiv (whole_length_bound _ H1)) as D1.
  pose proof (decrypt_container K iv P2 w1 Hiv (whole_length_bound _ H2)) as D2.
  rewrite E in D1. rewrite D1 in D2. now injection D2.
Qed.

Lemma distinct_plaintexts_sample :
  fst (encryptDataWithIV hello_world sample_key sample_iv sample_world)
  <> fst (encryptDataWithIV one_block sample_key sample_iv sample_world).
Proof.
  apply (distinct_plaintexts_distinct_containers hello_world one_block sample_key
           sample_iv sample_world sample_world).
  - reflexivity.
  - vm_compute. reflexivity.
  - vm_compute. reflexivity.
  - discriminate.
Defined.





(** X14. For a plaintext of 2^31 - 16 to 2^31 - 1 bytes the addition
    [ciphertext_len += len] of line 100 overflows [int]: the two output
    lengths sum to 2^31. *)
Theorem large_plaintext_overflows (P K iv : list byte) (w : world) :
  (AES_BLOCK_SIZE <= length iv)%nat ->
  2 ^ 31 - 16 <= Z.of_nat (length P) < 2 ^ 31 ->
  encryptDataWithIV P K iv w = (Undefined, w).
Proof.
  intros Hiv HP.
  assert (Hn : to_int (Z.of_nat (length P)) = Z.of_nat (length P))
    by (apply to_int_small; unfold INT_MAX; lia).
  apply encrypt_overflow; rewrite ?Hn, ?Nat2Z.id; try lia.
  pose proof (whole_length_large (length P) (proj1 HP)). unfold INT_MAX. lia.
Qed.

Lemma two_gigabytes_overflow :
  encryptDataWithIV two_gigabytes sample_key sample_iv sample_world
  = (Undefined, sample_world).
Proof.
  apply (large_plaintext_overflows two_gigabytes sample_key sample_iv sample_world).
  - vm_compute. lia.
  - unfold two_gigabytes. rewrite repeat_length, Z2Nat.id by lia. lia.
Defined.

(** X15. A complete decryption run. With the arguments accepted in
    decryption mode and the input file holding the container of a
    plaintext [P] under the key of the password, [main] returns 0, the
    output file holds [P], and standard output receives the line
    "Extracted IV: " with the IV of the container and the completion
    line. *)
Theorem decryption_run
    (argv : list string) (w : world) (o : options) (iv P : list byte) :
  accepts argv w o -> encrypt o = false ->
  Z.of_nat (String.length (password o)) <= INT_MAX ->
  length iv = AES_BLOCK_SIZE ->
  Z.of_nat (length P) < 2 ^ 31 - 16 ->
  files w !! inputFile o
  = Some (iv ++ cbc_pkcs7_encrypt (derived_key (password o)) iv P) ->
  writable w (outputFile o) = true ->
  main argv w = (Returned 0, completed_run o "Extracted IV: " iv P w)
  /\ files (snd (main argv w)) !! outputFile o = Some P.
Proof.
  intros Ha He Hpw Hiv HP Hin Hw.
  rewrite (main_decrypts argv w o iv P Ha He Hpw Hiv HP Hin), Hw.
  split; [reflexivity|apply lookup_insert_eq].
Qed.

Lemma decryption_run_sample :
  main decrypt_line container_world
  = (Returned 0,
     completed_run decrypt_options "Extracted IV: " sample_iv hello_world
       container_world)
  /\ files (snd (main decrypt_line container_world)) !! outputFile decrypt_options
     = Some hello_world.
Proof.
  apply (decryption_run decrypt_line container_world decrypt_options sample_iv
           hello_world).
  - split; [|reflexivity].
    unfold getopt_returns, container_world. cbn [posixly_correct].
    vm_compute. reflexivity.
  - reflexivity.
  - apply secret_length.
  - reflexivity.
  - apply hello_world_length.
  - unfold container_world, hello_container. cbn [files inputFile decrypt_options].
    apply lookup_singleton_eq.
  - reflexivity.
Defined.

(** X16. The hexadecimal dump of the IV is unambiguous although a byte
    below 16 is printed as a single digit: byte sequences that differ have
    dumps that differ. *)
Theorem hex_dump_distinguishes (a b : list byte) :
  a <> b -> hex_dump a <> hex_dump b.
Proof.
  intros Hne E. apply Hne. clear Hne. revert b E.
  induction a as [|x a IH]; intros [|y b] H.
  - reflexivity.
  - exfalso. cbn [hex_dump fold_right] in H.
    pose proof (hex_of_byte_shape y) as Hy.
    destruct (hex_of_byte y); [contradiction|].
    cbv [String.append] in H. discriminate H.
  - exfalso. cbn [hex_dump fold_right] in H.
    pose proof (hex_of_byte_shape x) as Hx.
    destruct (hex_of_byte x); [contradiction|].
    cbv [String.append] in H. discriminate H.
  - cbn [hex_dump fold_right] in H.
    destruct (hex_dump_cons_inj _ _ _ _ H) as [-> Ht].
    f_equal. now apply IH.
Qed.

Lemma hex_dump_distinguishes_sample : hex_dump sample_iv <> hex_dump other_iv.
Proof. apply (hex_dump_distinguishes sample_iv other_iv). discriminate. Defined.

(** X17. How a run of [main] ends, and why. It ends in one of five ways:
    it returns 0 or 1, calls [exit(1)], is aborted, or has undefined
    behaviour. It returns 1 exactly when the arguments are not accepted.
    It calls [exit] only with status 1 and only when the input file cannot
    be opened or the output file cannot be opened for writing. It is
    aborted only by [handleErrors], which has just printed the OpenSSL
    error queue. So with the arguments accepted and both files openable, a
    run that does not return 0 is aborted (or has undefined behaviour):
    an OpenSSL failure never ends in status 1. *)
Theorem main_exit_statuses (argv : list string) (w : world) :
  (fst (main argv w) = Returned 0 \/ fst (main argv w) = Returned 1
   \/ fst (main argv w) = Exited 1 \/ fst (main argv w) = Aborted
   \/ fst (main argv w) = Undefined)
  /\ (exit_status (fst (main argv w)) = Some 0
      \/ exit_status (fst (main argv w)) = Some 1
      \/ exit_status (fst (main argv w)) = Some (128 + SIGABRT)
      \/ exit_status (fst (main argv w)) = None)
  /\ (fst (main argv w) = Returned 1 <-> forall o, ~ accepts argv w o)
  /\ (forall s, fst (main argv w) = Exited s ->
        s = 1
        /\ exists o, accepts argv w o
                     /\ (files w !! inputFile o = None
                         \/ writable w (outputFile o) = false))
  /\ (fst (main argv w) = Aborted ->
        exists w1, snd (main argv w) = errors_printed w1)
  /\ (forall o, accepts argv w o ->
        files w !! inputFile o <> None -> writable w (outputFile o) = true ->
        fst (main argv w) = Returned 0 \/ fst (main argv w) = Aborted
        \/ fst (main argv w) = Undefined).
Proof.
  assert (H : (exists o, accepts argv w o /\ main argv w = process o w)
              \/ ((forall o, ~ accepts argv w o) /\ fst (main argv w) = Returned 1)).
  { destruct (option_loop (getopt_returns argv w) no_options) as [o|d] eqn:E.
    - destruct (refused o) eqn:R.
      + right. assert (Hn : forall o', ~ accepts argv w o').
        { intros o' [E' R']. rewrite E in E'. injection E' as <-. congruence. }
        split; [exact Hn|]. now rewrite (main_refuses argv w Hn).
      + left. exists o. assert (Ha : accepts argv w o) by now split.
        split; [exact Ha|now apply main_accepts].
    - right. assert (Hn : forall o', ~ accepts argv w o').
      { intros o' [E' _]. rewrite E in E'. discriminate E'. }
      split; [exact Hn|]. now rewrite (main_refuses argv w Hn). }
  destruct H as [(o & Ha & Hm)|[Hn Hm]].
  - rewrite Hm.
    destruct (process_ends o w) as [(E & Hin & Hout)|[(E & Hc)|[(E & Hw)|E]]];
      rewrite E; cbn [exit_status].
    + repeat split; try discriminate; auto.
      intros Hno. now contradiction (Hno o).
    + repeat split; try discriminate; auto 6.
      * intros Hno. now contradiction (Hno o).
      * congruence.
      * exists o. now split.
      * intros o' Ha' Hin Hout.
        rewrite <- (accepts_unique _ _ _ _ Ha Ha') in Hin, Hout.
        destruct Hc as [Hc|Hc]; [now contradiction Hin|congruence].
    + repeat split; try discriminate; auto 6.
      intros Hno. now contradiction (Hno o).
    + repeat split; try discriminate; auto 6.
      intros Hno. now contradiction (Hno o).
  - rewrite Hm. cbn [exit_status].
    repeat split; try discriminate; auto.
    intros o Ha. now contradiction (Hn o).
Qed.

(** With [RAND_bytes] failing, the arguments accepted and both files
    openable, the run does not end in status 1. *)
Lemma main_exit_statuses_sample :
  fst (main encrypt_line no_random_world) = Returned 0
  \/ fst (main encrypt_line no_random_world) = Aborted
  \/ fst (main encrypt_line no_random_world) = Undefined.
Proof.
  apply (proj2 (proj2 (proj2 (proj2 (proj2
           (main_exit_statuses encrypt_line no_random_world)))))
           encrypt_options).
  - apply accepts_encrypt_line. reflexivity.
  - vm_compute. discriminate.
  - reflexivity.
Defined.

(** X18. The command line of the usage text is accepted for all non-empty
    values: the option loop assigns each value as it stands, also one that
    begins with a dash, and [main] goes on to key derivation with them.
    Arguments after a "--" that follows are ignored. *)
Theorem usage_line_accepted
    (prog i o p : string) (e : bool) (rest : list string) (w : world) :
  i <> EmptyString -> o <> EmptyString -> p <> EmptyString ->
  accepts (usage_line prog e i o p) w (Options i o p e (negb e))
  /\ main (usage_line prog e i o p) w = process (Options i o p e (negb e)) w
  /\ main (usage_line prog e i o p ++ "--"%string :: rest) w
     = main (usage_line prog e i o p) w.
Proof.
  intros Hi Ho Hp.
  destruct (usage_line_loop prog e i o p rest w) as [Hl Hr].
  assert (Ha : accepts (usage_line prog e i o p) w (Options i o p e (negb e))).
  { split; [exact Hl|]. unfold refused. cbn [encrypt decrypt inputFile outputFile password].
    rewrite !string_empty_false by assumption. now destruct e. }
  split; [exact Ha|split; [now apply main_accepts|]].
  unfold main. rewrite Hr. reflexivity.
Qed.

Lemma usage_line_sample :
  accepts (usage_line "prog" true "in.bin" "out.bin" "-d") sample_world
    (Options "in.bin" "out.bin" "-d" true (negb true))
  /\ main (usage_line "prog" true "in.bin" "out.bin" "-d") sample_world
     = process (Options "in.bin" "out.bin" "-d" true (negb true)) sample_world
  /\ main (usage_line "prog" true "in.bin" "out.bin" "-d" ++ "--"%string :: ["more"%string])
          sample_world
     = main (usage_line "prog" true "in.bin" "out.bin" "-d") sample_world.
Proof.
  apply (usage_line_accepted "prog" "in.bin" "out.bin" "-d" true ["more"%string]
           sample_world); discriminate.
Defined.




(** X20. A decryption run that returns 0 is exact: the output file then
    holds a plaintext that [encryptDataWithIV] maps, under the key of the
    same password and the IV at the start of the input file, to exactly the
    input file. *)
Theorem successful_decryption_is_exact
    (argv : list string) (w : world) (o : options) (ct : list byte) :
  accepts argv w o -> encrypt o = false ->
  Z.of_nat (String.length (password o)) <= INT_MAX ->
  files w !! inputFile o = Some ct ->
  Z.of_nat (length ct) - 16 <= INT_MAX ->
  fst (main argv w) = Returned 0 ->
  exists P,
    files (snd (main argv w)) !! outputFile o = Some P
    /\ encryptDataWithIV P (derived_key (password o)) (firstn AES_BLOCK_SIZE ct) w
       = (Returned ct, w).
Proof.
  intros Ha He Hpw Hin Hmax.
  rewrite (main_accepts _ _ _ Ha).
  pose proof (accepts_decrypt _ _ _ Ha He) as Hd.
  pose proof (transform_decrypts o w ct He Hd Hpw Hin) as HT.
  destruct (decryptDataWithIV ct (derived_key (password o)) w) as [r w1] eqn:E.
  destruct r as [P|s| |].
  - rewrite (process_written o w P w1 HT).
    destruct (writable w1 (outputFile o)); [|discriminate].
    intros _. exists P. split; [apply lookup_insert_eq|].
    apply (encrypt_decrypted ct _ w P w Hmax). now rewrite E.
  - rewrite process_stopped by (rewrite HT; discriminate). rewrite HT. discriminate.
  - rewrite process_stopped by (rewrite HT; discriminate). rewrite HT. discriminate.
  - rewrite process_stopped by (rewrite HT; discriminate). rewrite HT. discriminate.
Qed.

Lemma successful_decryption_sample :
  exists P,
    files (snd (main decrypt_line container_world)) !! outputFile decrypt_options
    = Some P
    /\ encryptDataWithIV P (derived_key (password decrypt_options))
         (firstn AES_BLOCK_SIZE hello_container) container_world
       = (Returned hello_container, container_world).
Proof.
  assert (Hf : files container_world !! inputFile decrypt_options = Some hello_container).
  { unfold container_world. cbn [files inputFile decrypt_options].
    apply lookup_singleton_eq. }
  assert (Ha : accepts decrypt_line container_world decrypt_options).
  { split; [|reflexivity].
    unfold getopt_returns, container_world. cbn [posixly_correct].
    vm_compute. reflexivity. }
  apply (successful_decryption_is_exact decrypt_line container_world decrypt_options
           hello_container Ha eq_refl secret_length Hf).
  - unfold hello_container.
    rewrite List.length_app, cbc_pkcs7_encrypt_length by (vm_compute; lia).
    vm_compute. discriminate.
  - rewrite (main_decrypts decrypt_line container_world decrypt_options sample_iv
               hello_world Ha eq_refl secret_length eq_refl hello_world_length Hf).
    reflexivity.
Defined.

End Behaviour.
